(** * pam.c: colour histogram and nearest-colour search

    A shallow embedding of [src/pam.c] (improved-pngquant) and the proofs of
    the properties its specification states about it.

    - C [float] is IEEE-754 binary32 and [double] is binary64, both through
      the Standard Library's [SpecFloat] (round to nearest, ties to even).
    - [int] and [unsigned int] values are in [Z]; the 32-bit wrap-around of
      [unsigned int] is written out where the code can reach it. A shift
      count is taken modulo 32, as the shift instructions take it; C defines
      a shift for the counts 0..31 only, and what is proved of the masks is
      proved for these counts.
    - Arrays are lists read by index; a read outside the array has no
      defined behaviour in C and is the outcome [OutOfBounds].
    - [pam.h] and [mempool.h] are not among the sources: [colordifference]
      and [to_f] are parameters, the arena is modelled from the
      specification. *)

From Stdlib Require Import ZArith List Bool Lia QArith Qpower Zpower.
From Stdlib Require Import Floats.SpecFloat.
From stdpp Require Import base list gmap.

Local Open Scope Z_scope.

(** ** Floating point *)

Abbreviation float := spec_float (only parsing).

(** C [float]: binary32. *)
Module Float32.
Definition prec : Z := 24.
Definition emax : Z := 128.

Definition add : float -> float -> float := SFadd prec emax.
Definition sub : float -> float -> float := SFsub prec emax.
Definition mul : float -> float -> float := SFmul prec emax.
Definition div : float -> float -> float := SFdiv prec emax.

(** C's [x < y], [x > y], [x <= y], [x >= y]: all false on a NaN. *)
Definition lt (x y : float) : bool := SFltb x y.
Definition gt (x y : float) : bool := SFltb y x.
Definition le (x y : float) : bool := SFleb x y.
Definition ge (x y : float) : bool := SFleb y x.

Definition valid (x : float) : bool := valid_binary prec emax x.

(** The literals [1.f] and [1024.f]. *)
Definition one : float := S754_finite false 8388608 (-23).
Definition f1024 : float := S754_finite false 8388608 (-13).
End Float32.

(** C [double]: binary64. *)
Module Float64.
Definition prec : Z := 53.
Definition emax : Z := 1024.

Definition add : float -> float -> float := SFadd prec emax.

(** The literal [0.5]. *)
Definition half : float := S754_finite false 4503599627370496 (-53).

(** Conversion of a [float] to [double] (exact) and of a [double] to
    [float] (rounded to nearest even). *)
Definition of_float (x : float) : float :=
  match x with
  | S754_finite s m e => binary_normalize prec emax (cond_Zopp s (Zpos m)) e s
  | _ => x
  end.
Definition to_float (x : float) : float :=
  match x with
  | S754_finite s m e =>
      binary_normalize Float32.prec Float32.emax (cond_Zopp s (Zpos m)) e s
  | _ => x
  end.
End Float64.

(** The exact value of a finite float, as a rational. *)
Definition finite (x : float) : bool :=
  match x with
  | S754_zero _ | S754_finite _ _ _ => true
  | _ => false
  end.

Definition value (x : float) : Q :=
  match x with
  | S754_finite s m e => (inject_Z (cond_Zopp s (Zpos m)) * Qpower 2 e)%Q
  | _ => 0%Q
  end.

(** ** Outcomes *)

(** What a call does: it returns, or it reads outside an array. *)
Inductive outcome (A : Type) : Type :=
  | Defined (a : A)
  | OutOfBounds.
Arguments Defined {A} a.
Arguments OutOfBounds {A}.

#[global] Instance outcome_bind : MBind outcome := fun A B k o =>
  match o with
  | Defined a => k a
  | OutOfBounds => OutOfBounds
  end.

(** [arr[i]] for an array of [length arr] elements. *)
Definition read {A} (arr : list A) (i : Z) : outcome A :=
  if i <? 0 then OutOfBounds
  else match arr !! Z.to_nat i with
       | Some x => Defined x
       | None => OutOfBounds
       end.

(** ** Colours and palettes *)

(** Modelled from the spec: the types [f_pixel], [colormap_item] and
    [colormap] of [pam.h], which is not among the sources, with the members
    that pam.c uses. An [f_pixel] is the PerceptualColor, four [float]
    components; a [colormap] is the Palette, the array [palette] of [colors]
    entries. *)
Record f_pixel := { f_a : float; f_r : float; f_g : float; f_b : float }.

Record colormap_item := { acolor : f_pixel }.

Record colormap := { palette : list colormap_item; colors : Z }.

(** [pam_colormap], for [colors >= 0]: [calloc] gives [colors] zeroed
    entries. *)
Definition zero_pixel : f_pixel :=
  {| f_a := S754_zero false; f_r := S754_zero false;
     f_g := S754_zero false; f_b := S754_zero false |}.

Definition pam_colormap (n : Z) : colormap :=
  {| palette := replicate (Z.to_nat n) {| acolor := zero_pixel |};
     colors := n |}.

(** A colormap as [pam_colormap] makes them: [colors] is the length of
    [palette]. *)
Definition colormap_wf (map : colormap) : Prop :=
  colors map = Z.of_nat (length (palette map)).

(** Memory for [dist_out]: float cells by address; [None] is the null
    pointer. *)
Abbreviation float_mem := (gmap Z float) (only parsing).

(** ** best_color_index *)

Section Matcher.
Variable colordifference : f_pixel -> f_pixel -> float.

(** The locals [ind] and [dist]. *)
Record scan := { ind : Z; dist : float }.

(** One iteration of the loop over [i]. *)
Definition scan_step (px : f_pixel) (acolormap : list colormap_item)
    (iebug : bool) (i : Z) (st : scan) : outcome scan :=
  c ← read acolormap i;
  let newdist := colordifference px (acolor c) in
  if Float32.lt newdist (dist st) then
    if iebug && Float32.lt (f_a (acolor c)) Float32.one then
      if Float32.gt (Float32.add newdist (Float32.div Float32.one Float32.f1024))
                    (dist st)
      then Defined st
      else Defined {| ind := i; dist := newdist |}
    else Defined {| ind := i; dist := newdist |}
  else Defined st.

Fixpoint scan_loop (px : f_pixel) (acolormap : list colormap_item)
    (iebug : bool) (idx : list Z) (st : scan) : outcome scan :=
  match idx with
  | [] => Defined st
  | i :: idx' =>
      st' ← scan_step px acolormap iebug i st;
      scan_loop px acolormap iebug idx' st'
  end.

(** What the loop keeps true: [ind] is an index of the palette and [dist]
    is the distance to the entry at [ind]. *)
Definition scan_inv (px : f_pixel) (acolormap : list colormap_item)
    (st : scan) : Prop :=
  exists c, read acolormap (ind st) = Defined c /\
            dist st = colordifference px (acolor c).

Definition best_color_index (px : f_pixel) (map : colormap)
    (min_opaque_val : float) (dist_out : option Z) (mem : float_mem)
    : outcome (Z * float_mem) :=
  let acolormap := palette map in
  let numcolors := colors map in
  let iebug := Float32.gt (f_a px) min_opaque_val in
  c0 ← read acolormap 0;
  let st0 := {| ind := 0; dist := colordifference px (acolor c0) |} in
  st ← scan_loop px acolormap iebug (seqZ 1 (numcolors - 1)) st0;
  let mem' := match dist_out with
              | Some p => <[p := dist st]> mem
              | None => mem
              end in
  Defined (ind st, mem').
End Matcher.

(** ** Pixels and packed colours *)

(** Modelled from the spec: the types [rgb_pixel] and [union rgb_as_long]
    of [pam.h], which is not among the sources. An [rgb_pixel] is the
    PixelRGBA8, four 8-bit channels, each in 0..255; the member [l] of the
    union is the PackedColor, the 32-bit integer that the four bytes of the
    pixel make (first byte least significant), and the member [rgb] reads
    it back as a pixel. *)
Record rgb_pixel := { rgb_r : Z; rgb_g : Z; rgb_b : Z; rgb_a : Z }.

Definition rgb_pixel_wf (p : rgb_pixel) : Prop :=
  0 <= rgb_r p < 256 /\ 0 <= rgb_g p < 256 /\
  0 <= rgb_b p < 256 /\ 0 <= rgb_a p < 256.

(** [unsigned int] arithmetic is modulo 2^32. *)
Definition uint (x : Z) : Z := x mod 2 ^ 32.

Definition rgb_as_long_l (p : rgb_pixel) : Z :=
  Z.lor (rgb_r p)
    (Z.lor (Z.shiftl (rgb_g p) 8)
       (Z.lor (Z.shiftl (rgb_b p) 16) (Z.shiftl (rgb_a p) 24))).

Definition rgb_as_long_rgb (l : Z) : rgb_pixel :=
  {| rgb_r := Z.land l 255;
     rgb_g := Z.land (Z.shiftr l 8) 255;
     rgb_b := Z.land (Z.shiftr l 16) 255;
     rgb_a := Z.land (Z.shiftr l 24) 255 |}.

(** The count of a shift of a 32-bit integer. C defines the shift for a
    count in 0..31 only; for any other count the shift instructions use the
    five low bits of the count, and so does this definition: a count of 32
    shifts by 0, a count of -1 by 31. *)
Definition shift_count (n : Z) : Z := n mod 32.

(** [255>>ignorebits<<ignorebits], and the mask of the four channels. *)
Definition channel_mask (ignorebits : Z) : Z :=
  uint (Z.shiftl (Z.shiftr 255 (shift_count ignorebits)) (shift_count ignorebits)).

Definition posterize_mask (ignorebits : Z) : Z :=
  let cm := channel_mask ignorebits in
  Z.lor (Z.lor (Z.lor (uint (Z.shiftl cm 24)) (uint (Z.shiftl cm 16)))
           (uint (Z.shiftl cm 8)))
        cm.

(** [px.l &= posterize_mask]. *)
Definition posterize (ignorebits : Z) (p : rgb_pixel) : Z :=
  Z.land (rgb_as_long_l p) (posterize_mask ignorebits).

(** ** The arena and the heap *)

(** Modelled from the spec: the Bump Arena of [mempool.h], which is not among
    the sources. A pool hands out objects and is released as one unit; the
    heap counts the live arenas and the live [malloc] blocks. [mempool_new]
    on a null pool starts an arena; the memory it returns is zeroed, as
    [pam_computeacolorhash] reads [buckets] without writing them first. *)
Record heap := { live_arenas : nat; live_blocks : nat }.

(** A pool handle: [None] is the null pool, [Some n] a pool that has handed
    out [n] objects. *)
Definition mempool_new (m : option nat) (h : heap) : option nat * heap :=
  match m with
  | None => (Some 1%nat,
             {| live_arenas := S (live_arenas h); live_blocks := live_blocks h |})
  | Some n => (Some (S n), h)
  end.

Definition mempool_free (m : option nat) (h : heap) : heap :=
  match m with
  | None => h
  | Some _ =>
      {| live_arenas := Nat.pred (live_arenas h); live_blocks := live_blocks h |}
  end.

Definition malloc (h : heap) : heap :=
  {| live_arenas := live_arenas h; live_blocks := S (live_blocks h) |}.

(** ** The colour hash table *)

Definition HASH_SIZE : Z := 30029.

(** Modelled from the spec: [struct acolorhist_list_item] and the table of
    [pam.h], with the members that pam.c uses. A node holds the packed
    colour [color.l] and its [perceptual_weight]; the [next] pointers of a
    chain are the list; the table has its [buckets] and its [mempool]. *)
Record acolorhist_list_item :=
  { achl_color : Z; achl_perceptual_weight : float }.

Record acolorhash_table :=
  { buckets : list (list acolorhist_list_item); mempool : option nat }.

Definition pam_allocacolorhash (h : heap) : acolorhash_table * heap :=
  let '(m1, h1) := mempool_new None h in
  let '(m2, h2) := mempool_new m1 h1 in
  ({| buckets := replicate (Z.to_nat HASH_SIZE) []; mempool := m2 |}, h2).

Definition pam_freeacolorhash (acht : acolorhash_table) (h : heap) : heap :=
  mempool_free (mempool acht) h.

(** The search of a chain: the position of the first node of colour [l]. *)
Fixpoint chain_search (achl : list acolorhist_list_item) (l : Z) : option nat :=
  match achl with
  | [] => None
  | it :: next =>
      if achl_color it =? l then Some 0%nat
      else S <$> chain_search next l
  end.

(** [achl->perceptual_weight += boost]. *)
Definition add_weight (boost : float) (it : acolorhist_list_item)
    : acolorhist_list_item :=
  {| achl_color := achl_color it;
     achl_perceptual_weight := Float32.add (achl_perceptual_weight it) boost |}.

(** [0.5+*importance_map]: the sum is a [double], stored in the [float]
    [boost]. *)
Definition boost_of (v : float) : float :=
  Float64.to_float (Float64.add Float64.half (Float64.of_float v)).

(** How a loop body ends: the loop goes on, or the function returns. *)
Inductive flow (S R : Type) : Type :=
  | Next (s : S)
  | Return (r : R).
Arguments Next {S R} s.
Arguments Return {S R} r.

(** The locals of [pam_computeacolorhash] that the loops change, and the
    heap. [importance_map] is the offset the pointer has advanced to. *)
Record hash_scan :=
  { acht : acolorhash_table;
    hs_colors : Z;
    hs_importance : Z;
    hs_boost : float;
    hs_heap : heap }.

(** The second half of the body of the loop over [col]: the pixel of
    posterized colour [l] and boost [boost] goes into the table.
    [importance] is where [importance_map] points by now. *)
Definition table_step (maxacolors : Z) (l : Z) (boost : float)
    (importance : Z) (st : hash_scan) : outcome (flow hash_scan heap) :=
  let hash := l mod HASH_SIZE in
  chain ← read (buckets (acht st)) hash;
  match chain_search chain l with
  | Some k =>
      Defined (Next
        {| acht := {| buckets := <[Z.to_nat hash := alter (add_weight boost) k chain]>
                                   (buckets (acht st));
                      mempool := mempool (acht st) |};
           hs_colors := hs_colors st;
           hs_importance := importance;
           hs_boost := boost;
           hs_heap := hs_heap st |})
  | None =>
      let colors' := hs_colors st + 1 in
      if colors' >? maxacolors then
        Defined (Return (pam_freeacolorhash (acht st) (hs_heap st)))
      else
        let '(m, h) := mempool_new (mempool (acht st)) (hs_heap st) in
        let achl := {| achl_color := l; achl_perceptual_weight := boost |} in
        Defined (Next
          {| acht := {| buckets := <[Z.to_nat hash := achl :: chain]>
                                     (buckets (acht st));
                        mempool := m |};
             hs_colors := colors';
             hs_importance := importance;
             hs_boost := boost;
             hs_heap := h |})
  end.

(** The body of the loop over [col]. *)
Definition pixel_step (apixels : list (list rgb_pixel))
    (importance_map : option (list float)) (maxacolors : Z) (mask : Z)
    (row col : Z) (st : hash_scan) : outcome (flow hash_scan heap) :=
  '(boost, importance) ←
     match importance_map with
     | Some m =>
         v ← read m (hs_importance st);
         Defined (boost_of v, hs_importance st + 1)
     | None => Defined (hs_boost st, hs_importance st)
     end;
  line ← read apixels row;
  p ← read line col;
  table_step maxacolors (Z.land (rgb_as_long_l p) mask) boost importance st.

Fixpoint cols_loop (apixels : list (list rgb_pixel))
    (importance_map : option (list float)) (maxacolors : Z) (mask : Z)
    (row : Z) (cs : list Z) (st : hash_scan) : outcome (flow hash_scan heap) :=
  match cs with
  | [] => Defined (Next st)
  | col :: cs' =>
      r ← pixel_step apixels importance_map maxacolors mask row col st;
      match r with
      | Next st' => cols_loop apixels importance_map maxacolors mask row cs' st'
      | Return h => Defined (Return h)
      end
  end.

Definition set_boost (b : float) (st : hash_scan) : hash_scan :=
  {| acht := acht st; hs_colors := hs_colors st;
     hs_importance := hs_importance st; hs_boost := b; hs_heap := hs_heap st |}.

Fixpoint rows_loop (apixels : list (list rgb_pixel))
    (importance_map : option (list float)) (maxacolors : Z) (mask : Z)
    (cols : Z) (rs : list Z) (st : hash_scan) : outcome (flow hash_scan heap) :=
  match rs with
  | [] => Defined (Next st)
  | row :: rs' =>
      r ← cols_loop apixels importance_map maxacolors mask row (seqZ 0 cols)
            (set_boost Float32.one st);
      match r with
      | Next st' => rows_loop apixels importance_map maxacolors mask cols rs' st'
      | Return h => Defined (Return h)
      end
  end.

(** [pam_computeacolorhash]: the table and [*acolorsP], or [None] for the
    null pointer; with the heap it leaves. *)
Definition pam_computeacolorhash (apixels : list (list rgb_pixel))
    (cols rows : Z) (gamma : float) (maxacolors ignorebits : Z)
    (importance_map : option (list float)) (h : heap)
    : outcome (option (acolorhash_table * Z) * heap) :=
  let mask := posterize_mask ignorebits in
  let '(t, h1) := pam_allocacolorhash h in
  let st0 := {| acht := t; hs_colors := 0; hs_importance := 0;
                hs_boost := Float32.one; hs_heap := h1 |} in
  r ← rows_loop apixels importance_map maxacolors mask cols (seqZ 0 rows) st0;
  match r with
  | Next st => Defined (Some (acht st, hs_colors st), hs_heap st)
  | Return h' => Defined (None, h')
  end.

(** ** The histogram *)

(** Modelled from the spec: the types [hist_item] and [hist] of [pam.h], with
    the members that pam.c uses; the member [acolor] of an item is
    [hist_acolor] here. *)
Record hist_item :=
  { hist_acolor : f_pixel; adjusted_weight : float; perceptual_weight : float }.

(** The array [achv] and its [size]. A cell of the array that [malloc]
    returned and nothing has written yet is [None]. *)
Record hist := { achv : list (option hist_item); size : Z }.

(** [arr[i] = x] for an array of [length arr] elements. *)
Definition write {A} (arr : list A) (i : Z) (x : A) : outcome (list A) :=
  if i <? 0 then OutOfBounds
  else if (Z.to_nat i <? length arr)%nat then Defined (<[Z.to_nat i := x]> arr)
  else OutOfBounds.

Section Histogram.
Variable to_f : float -> rgb_pixel -> f_pixel.

(** The histogram entry written for a node of the table. *)
Definition hist_entry (gamma : float) (achl : acolorhist_list_item) : hist_item :=
  let w := achl_perceptual_weight achl in
  {| hist_acolor := to_f gamma (rgb_as_long_rgb (achl_color achl));
     adjusted_weight := w;
     perceptual_weight := w |}.

(** The loop over the nodes of one chain; [j] is the next free cell. *)
Fixpoint chain_loop (gamma : float) (achl : list acolorhist_list_item)
    (hv : list (option hist_item)) (j : Z)
    : outcome (list (option hist_item) * Z) :=
  match achl with
  | [] => Defined (hv, j)
  | it :: next =>
      hv' ← write hv j (Some (hist_entry gamma it));
      chain_loop gamma next hv' (j + 1)
  end.

(** The loop over the buckets. *)
Fixpoint buckets_loop (gamma : float) (bk : list (list acolorhist_list_item))
    (idx : list Z) (hv : list (option hist_item)) (j : Z)
    : outcome (list (option hist_item) * Z) :=
  match idx with
  | [] => Defined (hv, j)
  | i :: idx' =>
      achl ← read bk i;
      '(hv', j') ← chain_loop gamma achl hv j;
      buckets_loop gamma bk idx' hv' j'
  end.

(** [pam_acolorhashtoacolorhist]: the block of the header, the block of the
    array, then the two loops. The heap counts the blocks and does not hold
    their sizes, and the header is taken to hold its two members: line 152
    asks for [sizeof(hist)] bytes with [hist] the local pointer, the size of
    a pointer and not of the structure, which this model does not
    represent. What is proved below is about the table, the array, the
    entries, their weights and the count of the blocks; nothing is proved
    about where the members of the header are stored. *)
Definition pam_acolorhashtoacolorhist (t : acolorhash_table) (hist_size : Z)
    (gamma : float) (h : heap) : outcome (hist * heap) :=
  let h1 := malloc h in
  let h2 := malloc h1 in
  let hv0 := replicate (Z.to_nat hist_size) None in
  '(hv, _) ← buckets_loop gamma (buckets t) (seqZ 0 HASH_SIZE) hv0 0;
  Defined ({| achv := hv; size := hist_size |}, h2).

(** [pam_computeacolorhist]: the histogram, or [None] for the null pointer
    (Overflow); with the heap it leaves. [gamma] is a [double], converted
    to [float] for [pam_acolorhashtoacolorhist]. *)
Definition pam_computeacolorhist (apixels : list (list rgb_pixel))
    (cols rows : Z) (gamma : float) (maxacolors ignorebits : Z)
    (importance_map : option (list float)) (h : heap)
    : outcome (option hist * heap) :=
  r ← pam_computeacolorhash apixels cols rows gamma maxacolors ignorebits
        importance_map h;
  match r with
  | (None, h') => Defined (None, h')
  | (Some (t, hist_size), h') =>
      '(hv, h'') ← pam_acolorhashtoacolorhist t hist_size
                      (Float64.to_float gamma) h';
      Defined (Some hv, pam_freeacolorhash t h'')
  end.
End Histogram.

(** ** The image as the scan sees it *)

(** The positions [(row, col)] in the order of the two loops. *)
Definition scan_positions (cols rows : Z) : list (Z * Z) :=
  mjoin ((fun row => (fun col => (row, col)) <$> seqZ 0 cols) <$> seqZ 0 rows).

(** What the scan reads at a position: the pixel and its boost. The
    importance of the pixel at [(row, col)] is the element [row*cols + col]
    of the map. *)
Definition pixel_at (apixels : list (list rgb_pixel))
    (importance_map : option (list float)) (cols : Z) (pos : Z * Z)
    : outcome (rgb_pixel * float) :=
  boost ← match importance_map with
          | Some m => v ← read m (pos.1 * cols + pos.2); Defined (boost_of v)
          | None => Defined Float32.one
          end;
  line ← read apixels pos.1;
  p ← read line pos.2;
  Defined (p, boost).

Definition defined {A} (o : outcome A) : bool :=
  match o with Defined _ => true | OutOfBounds => false end.

(** An image of [rows] rows of [cols] pixels, with an importance for every
    pixel when there is a map: every read of the scan is inside its array. *)
Definition image_wf (apixels : list (list rgb_pixel)) (cols rows : Z)
    (importance_map : option (list float)) : Prop :=
  forallb (fun pos => defined (pixel_at apixels importance_map cols pos))
          (scan_positions cols rows) = true.

Definition outcome_to_option {A} (o : outcome A) : option A :=
  match o with Defined a => Some a | OutOfBounds => None end.

(** The pixels with their boosts, in scan order. *)
Definition scan_pixels (apixels : list (list rgb_pixel)) (cols rows : Z)
    (importance_map : option (list float)) : list (rgb_pixel * float) :=
  omap (fun pos => outcome_to_option (pixel_at apixels importance_map cols pos))
       (scan_positions cols rows).

(** The posterized colour and the boost of every pixel, in scan order. *)
Definition scan_inputs (apixels : list (list rgb_pixel)) (cols rows : Z)
    (ignorebits : Z) (importance_map : option (list float))
    : list (Z * float) :=
  (fun pb => (posterize ignorebits pb.1, pb.2))
    <$> scan_pixels apixels cols rows importance_map.

(** The number of distinct colours in a list of posterized colours. *)
Definition distinct_colors (cs : list Z) : Z :=
  Z.of_nat (length (remove_dups cs)).

(** The boosts of the pixels of posterized colour [c], in scan order. *)
Definition boosts_of_color (c : Z) (ins : list (Z * float)) : list float :=
  snd <$> filter (fun i => i.1 = c) ins.

(** [w = b1; w += b2; ...; w += bn]: the sum of the boosts as the code
    accumulates it, in binary32. *)
Definition accumulate (bs : list float) : float :=
  match bs with
  | [] => S754_zero false
  | b :: bs' => fold_left Float32.add bs' b
  end.

(** The entries of a returned histogram, in array order. *)
Definition hist_entries (hv : hist) : list hist_item :=
  omap id (achv hv).

(** ** The table as a finite map *)

(** The nodes of the table in the order [pam_acolorhashtoacolorhist] visits
    them: buckets by index, each chain from its head. *)
Definition table_nodes (t : acolorhash_table) : list acolorhist_list_item :=
  mjoin (buckets t).

Definition node_pair (achl : acolorhist_list_item) : Z * float :=
  (achl_color achl, achl_perceptual_weight achl).

(** The map from the colours of the table to their weights. *)
Definition table_map (t : acolorhash_table) : gmap Z float :=
  list_to_map (node_pair <$> table_nodes t).

(** What the scan keeps true of the buckets: there are [HASH_SIZE] of them,
    a node is in the bucket of its hash, and no colour has two nodes. *)
Definition table_inv (bk : list (list acolorhist_list_item)) : Prop :=
  length bk = Z.to_nat HASH_SIZE /\
  (forall i chain achl, bk !! i = Some chain -> achl ∈ chain ->
     0 <= achl_color achl /\ Z.to_nat (achl_color achl mod HASH_SIZE) = i) /\
  NoDup (achl_color <$> mjoin bk).

(** One pixel on the map from posterized colour to accumulated weight:
    [None] when a new colour would exceed [maxacolors]. *)
Definition hist_step (maxacolors : Z) (m : gmap Z float) (i : Z * float)
    : option (gmap Z float) :=
  match m !! i.1 with
  | Some w => Some (<[i.1 := Float32.add w i.2]> m)
  | None =>
      if Z.of_nat (base.size m) + 1 >? maxacolors then None
      else Some (<[i.1 := i.2]> m)
  end.

(** The scan on the map; it stops at the first read out of bounds and at
    the first overflow. *)
Fixpoint hist_scan (maxacolors : Z) (ins : list (outcome (Z * float)))
    (m : gmap Z float) : outcome (option (gmap Z float)) :=
  match ins with
  | [] => Defined (Some m)
  | i :: ins' =>
      x ← i;
      match hist_step maxacolors m x with
      | Some m' => hist_scan maxacolors ins' m'
      | None => Defined None
      end
  end.

(** ** The scan of the code against the scan on the map *)

(** What the scan gives to the table at a position. *)
Definition input_at (apixels : list (list rgb_pixel))
    (importance_map : option (list float)) (cols ignorebits : Z) (pos : Z * Z)
    : outcome (Z * float) :=
  pb ← pixel_at apixels importance_map cols pos;
  Defined (posterize ignorebits pb.1, pb.2).

Definition scan_reads (apixels : list (list rgb_pixel)) (cols rows : Z)
    (ignorebits : Z) (importance_map : option (list float))
    : list (outcome (Z * float)) :=
  input_at apixels importance_map cols ignorebits <$> scan_positions cols rows.

(** The heap while the table is alive: one more arena than at the call. *)
Definition arena_heap (h : heap) : heap :=
  {| live_arenas := S (live_arenas h); live_blocks := live_blocks h |}.

(** The state of the loops represents the map [m]; [h] is the heap at the
    call. *)
Definition sim_inv (h : heap) (m : gmap Z float) (st : hash_scan) : Prop :=
  table_inv (buckets (acht st)) /\
  table_map (acht st) = m /\
  hs_colors st = Z.of_nat (length (table_nodes (acht st))) /\
  hs_heap st = arena_heap h /\
  is_Some (mempool (acht st)).

(** The result of a loop of the code against the result on the map; [pos]
    is where the importance pointer has to be when the loop goes on. *)
Definition sim_flow (h : heap) (importance_map : option (list float)) (pos : Z)
    (r : outcome (flow hash_scan heap)) (a : outcome (option (gmap Z float)))
    : Prop :=
  match r, a with
  | OutOfBounds, OutOfBounds => True
  | Defined (Return h'), Defined None => h' = h
  | Defined (Next st), Defined (Some m) =>
      sim_inv h m st /\
      (is_Some importance_map -> hs_importance st = pos) /\
      (importance_map = None -> hs_boost st = Float32.one)
  | _, _ => False
  end.

(** The weight that the scan leaves for a colour: what was there, then the
    boosts of its pixels added one by one. *)
Definition acc_from (o : option float) (bs : list float) : option float :=
  match o, bs with
  | Some w, _ => Some (fold_left Float32.add bs w)
  | None, [] => None
  | None, b :: bs' => Some (fold_left Float32.add bs' b)
  end.

(** ** Sums without rounding *)

(** The sum of the exact values of a list of floats. *)
Definition exact_sum (xs : list float) : Q :=
  fold_right Qplus 0%Q (value <$> xs).

(** The accumulation of [bs] in binary32 has lost nothing to rounding. *)
Definition exact_accumulation (bs : list float) : Prop :=
  finite (accumulate bs) = true /\ (value (accumulate bs) == exact_sum bs)%Q.

(** ** The claim of the specification about a replacement, and the test
    of the code *)

(** A candidate at distance [newdist] replaces the best at distance [dist],
    as the specification words it: strictly nearer, and the query not
    opaque-biased, or the candidate opaque, or the improvement above
    [1/1024]. *)
Definition spec_replaces (px : f_pixel) (min_opaque_val : float)
    (cand : f_pixel) (dist newdist : float) : bool :=
  Float32.lt newdist dist
  && (Float32.le (f_a px) min_opaque_val
      || Float32.ge (f_a cand) Float32.one
      || Float32.gt (Float32.sub dist newdist)
                    (Float32.div Float32.one Float32.f1024)).

(** The same, as the code tests it: [iebug] is [px.a > min_opaque_val], the
    candidate is opaque when [a < 1] fails, and the improvement is enough
    when [newdist + 1/1024 > dist] fails. *)
Definition replaces (px : f_pixel) (min_opaque_val : float)
    (cand : f_pixel) (dist newdist : float) : bool :=
  Float32.lt newdist dist
  && (negb (Float32.gt (f_a px) min_opaque_val)
      || negb (Float32.lt (f_a cand) Float32.one)
      || negb (Float32.gt
                 (Float32.add newdist (Float32.div Float32.one Float32.f1024))
                 dist)).

(** ** Sample data *)

Module Sample.
(** [2^e] as a [float], for the exponents used below. *)
Definition pow2 (e : Z) : float := S754_finite false 8388608 (e - 23).
Definition zero : float := S754_zero false.

(** A distance: the sum of the absolute differences of the four
    components. *)
Definition absdiff (x y : float) : float := SFabs (Float32.sub x y).
Definition colordifference (px py : f_pixel) : float :=
  Float32.add
    (Float32.add
       (Float32.add (absdiff (f_a px) (f_a py)) (absdiff (f_r px) (f_r py)))
       (absdiff (f_g px) (f_g py)))
    (absdiff (f_b px) (f_b py)).

(** A conversion: every channel divided by 255. *)
Definition of_Z (z : Z) : float :=
binary_normalize Float32.prec Float32.emax z 0 false.
Definition to_f (gamma : float) (p : rgb_pixel) : f_pixel :=
{| f_a := Float32.div (of_Z (rgb_a p)) (of_Z 255);
   f_r := Float32.div (of_Z (rgb_r p)) (of_Z 255);
   f_g := Float32.div (of_Z (rgb_g p)) (of_Z 255);
   f_b := Float32.div (of_Z (rgb_b p)) (of_Z 255) |}.

Definition pixel (a r g b : float) : f_pixel :=
{| f_a := a; f_r := r; f_g := g; f_b := b |}.

(** An opaque query, and a palette of an opaque entry 0 at the distance
    [r0] from the query and a half-transparent entry 1 at the distance
    [0.5 + r1]. *)
Definition query : f_pixel := pixel (pow2 0) zero zero zero.
Definition entry0 (r0 : float) : colormap_item :=
  {| acolor := pixel (pow2 0) r0 zero zero |}.
Definition entry1 (r1 : float) : colormap_item :=
  {| acolor := pixel (pow2 (-1)) r1 zero zero |}.
Definition palette2 (r0 r1 : float) : colormap :=
  {| palette := [entry0 r0; entry1 r1]; colors := 2 |}.

(** [0.5 + 2^e], and [0.5 - 2^-10 + 2^-24]. *)
Definition above_half (e : Z) : float := Float32.add (pow2 (-1)) (pow2 e).
Definition below_half : float :=
  Float32.add (Float32.sub (pow2 (-1)) (pow2 (-10))) (pow2 (-24)).

Definition heap0 : heap := {| live_arenas := 0; live_blocks := 0 |}.
Definition gamma : float := Float64.half.

Definition rgba (r g b a : Z) : rgb_pixel :=
{| rgb_r := r; rgb_g := g; rgb_b := b; rgb_a := a |}.

(** Two rows of two pixels, three colours. *)
Definition image22 : list (list rgb_pixel) :=
[[rgba 1 2 3 255; rgba 4 5 6 255]; [rgba 1 2 3 255; rgba 9 9 9 9]].

(** One row of three pixels, the first and the last of one colour, with
  importances 0, [2^-23] and [2^-24]. *)
Definition image13 : list (list rgb_pixel) :=
[[rgba 1 2 3 255; rgba 4 5 6 255; rgba 1 2 3 255]].
Definition importance13 : list float := [zero; pow2 (-23); pow2 (-24)].

(** The table and the histogram that the scan of [image13] with
  [importance13] leaves: weight [1] for the colour of the two pixels of
  boosts [0.5] and [0.5 + 2^-24], weight [0.5 + 2^-23] for the other. *)
Definition nodes13 : list acolorhist_list_item :=
[{| achl_color := 4278387201; achl_perceptual_weight := pow2 0 |};
 {| achl_color := 4278584580;
    achl_perceptual_weight := S754_finite false 8388610 (-24) |}].
Definition hist13 : hist :=
{| achv := Some <$> (hist_entry to_f (Float64.to_float gamma) <$> nodes13);
   size := 2 |}.
End Sample.

(** ** Integers in binary32 *)

(** [x] is the float of the integer [n], for [1 <= n <= 2^24]: a mantissa
    of 24 digits [m] and an exponent [e] with [m * 2^e = n]. *)
Definition int_float (n : Z) (x : float) : Prop :=
  exists m e,
    x = S754_finite false m e /\
    Zpos (digits2_pos m) = 24 /\ -23 <= e <= 1 /\
    Zpos m * 2 ^ (e + 23) = n * 2 ^ 23.

(** ** What the scan of the palette keeps true of the entries it has seen *)

(** [1.f/1024.f], the allowance of the penalty. *)
Definition penalty : float := Float32.div Float32.one Float32.f1024.

(** After the entries below [i]: [ind] is one of them and [dist] its
    distance; an entry strictly nearer than [dist] was skipped for the
    penalty; an entry before [ind] that is at most as far was skipped for
    the penalty; entry 0 is never nearer, and is farther once it has been
    replaced; no entry before [ind] has the colour of the entry [ind]. *)
Definition nearest_inv (colordifference : f_pixel -> f_pixel -> float)
    (px : f_pixel) (acolormap : list colormap_item) (iebug : bool) (i : Z)
    (st : scan) : Prop :=
  0 <= ind st < i /\
  scan_inv colordifference px acolormap st /\
  (forall j cj, 0 <= j < i -> read acolormap j = Defined cj ->
     let dj := colordifference px (acolor cj) in
     (Float32.lt dj (dist st) = true ->
        0 < j /\ iebug = true /\ Float32.lt (f_a (acolor cj)) Float32.one = true /\
        Float32.gt (Float32.add dj penalty) (dist st) = true) /\
     (j < ind st -> Float32.le dj (dist st) = true ->
        0 < j /\ iebug = true /\ Float32.lt (f_a (acolor cj)) Float32.one = true)) /\
  (forall c0, read acolormap 0 = Defined c0 -> ind st <> 0 ->
     Float32.lt (dist st) (colordifference px (acolor c0)) = true) /\
  (forall j cj c, 0 <= j < ind st -> read acolormap j = Defined cj ->
     read acolormap (ind st) = Defined c -> acolor cj <> acolor c).

(** ** The scan as a function of what it reads *)

(** The table, the counter of colours and the heap: the locals of
    [pam_computeacolorhash] that its result is made of. *)
Definition scan_core (st : hash_scan) : acolorhash_table * Z * heap :=
  (acht st, hs_colors st, hs_heap st).

(** The locals after [pam_allocacolorhash], before the loops. *)
Definition scan_start (h : heap) : hash_scan :=
  {| acht := (pam_allocacolorhash h).1; hs_colors := 0; hs_importance := 0;
     hs_boost := Float32.one; hs_heap := (pam_allocacolorhash h).2 |}.

(** What the scan has read goes into the table an element at a time; the
    scan stops at the first read outside an array and at the first
    overflow. *)
Fixpoint table_scan (maxacolors : Z) (reads : list (outcome (Z * float)))
    (st : hash_scan) : outcome (flow hash_scan heap) :=
  match reads with
  | [] => Defined (Next st)
  | r :: reads' =>
      x ← r;
      f ← table_step maxacolors x.1 x.2 (hs_importance st) st;
      match f with
      | Next st' => table_scan maxacolors reads' st'
      | Return h => Defined (Return h)
      end
  end.

(** What [pam_computeacolorhash] returns for the end of its loops. *)
Definition scan_result (r : outcome (flow hash_scan heap))
    : outcome (option (acolorhash_table * Z) * heap) :=
  f ← r;
  match f with
  | Next st => Defined (Some (acht st, hs_colors st), hs_heap st)
  | Return h' => Defined (None, h')
  end.

(** Two ends of a loop with the same table, counter and heap. *)
Definition same_core (r a : outcome (flow hash_scan heap)) : Prop :=
  match r, a with
  | OutOfBounds, OutOfBounds => True
  | Defined (Return h), Defined (Return h') => h = h'
  | Defined (Next st), Defined (Next st') => scan_core st = scan_core st'
  | _, _ => False
  end.

(** The loops of the code against [table_scan]: the same table, counter
    and heap; [pos] is where the importance pointer has to be when the loop
    goes on, and without a map the boost is still [1.0]. *)
Definition core_sim (importance_map : option (list float)) (pos : Z)
    (r a : outcome (flow hash_scan heap)) : Prop :=
  same_core r a /\
  forall st, r = Defined (Next st) ->
    (is_Some importance_map -> hs_importance st = pos) /\
    (importance_map = None -> hs_boost st = Float32.one).


(** ** Releasing the histogram and the colormap *)

(** [free]: one live block less. *)
Definition free (h : heap) : heap :=
  {| live_arenas := live_arenas h; live_blocks := Nat.pred (live_blocks h) |}.

(** [pam_freeacolorhist]: the array, then the histogram. *)
Definition pam_freeacolorhist (hv : hist) (h : heap) : heap := free (free h).


(** The [float] 0.5. *)
Definition f_half : float := S754_finite false 8388608 (-24).

(** ** The order of the histogram *)

(** The distinct colours of a scan, the one that came last first. *)
Definition colors_seen (cs : list Z) : list Z := remove_dups (reverse cs).

(** The colours in the order of the histogram: by bucket, that is by
    [color % HASH_SIZE], and in a bucket the colour that came last
    first. *)
Definition hist_order (cs : list Z) : list Z :=
  mjoin ((fun i => filter (fun c => c mod HASH_SIZE = i) (colors_seen cs))
           <$> seqZ 0 HASH_SIZE).

(** What the scan keeps true of the chains, after the colours [cs]. *)
Definition bucket_order (bk : list (list acolorhist_list_item)) (cs : list Z)
    : Prop :=
  length bk = Z.to_nat HASH_SIZE /\
  forall i chain, bk !! i = Some chain ->
    achl_color <$> chain =
    filter (fun c => c mod HASH_SIZE = Z.of_nat i) (colors_seen cs).

(** The node of a colour after the scan of [ins]. *)
Definition node_of (ins : list (Z * float)) (c : Z) : acolorhist_list_item :=
  {| achl_color := c;
     achl_perceptual_weight := accumulate (boosts_of_color c ins) |}.

(** The number of pixels of posterized colour [c] in a scan. *)
Definition pixel_count (c : Z) (ins : list (Z * float)) : Z :=
  Z.of_nat (length (filter (fun i => i.1 = c) ins)).

(** ** Posterization, channel by channel *)

(** The pixel with [channel_mask] applied to each of its channels. *)
Definition posterize_pixel (ignorebits : Z) (p : rgb_pixel) : rgb_pixel :=
  {| rgb_r := Z.land (rgb_r p) (channel_mask ignorebits);
     rgb_g := Z.land (rgb_g p) (channel_mask ignorebits);
     rgb_b := Z.land (rgb_b p) (channel_mask ignorebits);
     rgb_a := Z.land (rgb_a p) (channel_mask ignorebits) |}.

(** * Facts *)

(** ** Reading and writing arrays *)

Lemma read_Defined {A} (arr : list A) (i : Z) (x : A) :
  read arr i = Defined x <-> 0 <= i /\ arr !! Z.to_nat i = Some x.
Proof.
  unfold read. destruct (Z.ltb_spec i 0) as [Hneg | Hpos].
  - split; [discriminate | lia].
  - destruct (arr !! Z.to_nat i) as [y |]; split.
    + intros [= ->]. auto.
    + intros [_ [= ->]]. reflexivity.
    + discriminate.
    + intros [_ [=]].
Qed.

Lemma read_in_range {A} (arr : list A) (i : Z) :
  0 <= i < Z.of_nat (length arr) -> exists x, read arr i = Defined x.
Proof.
  intros Hi. destruct (lookup_lt_is_Some_2 arr (Z.to_nat i)) as [x Hx]; [lia |].
  exists x. apply read_Defined. split; [lia | exact Hx].
Qed.

Lemma read_nil {A} (i : Z) : read (@nil A) i = OutOfBounds.
Proof. unfold read. destruct (i <? 0); reflexivity. Qed.

(** ** best_color_index *)

Section MatcherFacts.
Variable colordifference : f_pixel -> f_pixel -> float.

(** The test of one candidate, as the [if]s of the loop body decide it. *)
Lemma scan_step_Defined px acolormap iebug i st c :
  read acolormap i = Defined c ->
  scan_step colordifference px acolormap iebug i st =
    Defined (if Float32.lt (colordifference px (acolor c)) (dist st)
                && negb (iebug && Float32.lt (f_a (acolor c)) Float32.one
                         && Float32.gt
                              (Float32.add (colordifference px (acolor c))
                                 (Float32.div Float32.one Float32.f1024))
                              (dist st))
             then {| ind := i; dist := colordifference px (acolor c) |}
             else st).
Proof.
  intros Hc. unfold scan_step. rewrite Hc. cbn.
  destruct (Float32.lt _ (dist st)); [| reflexivity].
  destruct (iebug && _); [| reflexivity].
  destruct (Float32.gt _ _); reflexivity.
Qed.

Lemma scan_step_inv px acolormap iebug i st :
  0 <= i < Z.of_nat (length acolormap) ->
  scan_inv colordifference px acolormap st ->
  exists st', scan_step colordifference px acolormap iebug i st = Defined st' /\
              scan_inv colordifference px acolormap st'.
Proof.
  intros Hi Hst. destruct (read_in_range acolormap i Hi) as [c Hc].
  rewrite (scan_step_Defined _ _ _ _ _ _ Hc).
  eexists; split; [reflexivity |].
  destruct (_ && _); [| exact Hst].
  exists c. split; [exact Hc | reflexivity].
Qed.

Lemma scan_loop_inv px acolormap iebug idx : forall st,
  Forall (fun i => 0 <= i < Z.of_nat (length acolormap)) idx ->
  scan_inv colordifference px acolormap st ->
  exists st', scan_loop colordifference px acolormap iebug idx st = Defined st' /\
              scan_inv colordifference px acolormap st'.
Proof.
  induction idx as [| i idx IH]; intros st Hidx Hst.
  - exists st. split; [reflexivity | exact Hst].
  - inversion Hidx as [| ? ? Hi Hidx']; subst.
    destruct (scan_step_inv px acolormap iebug i st Hi Hst) as [st1 [Hstep Hst1]].
    cbn. rewrite Hstep. cbn. apply IH; assumption.
Qed.

Lemma seqZ_in_range (n : Z) :
  Forall (fun i => 0 <= i < n) (seqZ 1 (n - 1)).
Proof.
  apply Forall_forall. intros i Hi. apply elem_of_seqZ in Hi. lia.
Qed.

(** The whole call on a palette of [colors map] entries, [colors map]
    at least one. *)
Lemma best_color_index_Defined px map min_opaque_val dist_out (mem : gmap Z float) :
  colormap_wf map -> 0 < colors map ->
  exists st c,
    read (palette map) (ind st) = Defined c /\
    dist st = colordifference px (acolor c) /\
    best_color_index colordifference px map min_opaque_val dist_out mem =
      Defined (ind st,
               match dist_out with
               | Some p => <[p := dist st]> mem
               | None => mem
               end).
Proof.
  intros Hwf Hpos. unfold colormap_wf in Hwf.
  destruct (read_in_range (palette map) 0) as [c0 Hc0]; [lia |].
  unfold best_color_index. rewrite Hc0. cbn.
  destruct (scan_loop_inv px (palette map)
              (Float32.gt (f_a px) min_opaque_val) (seqZ 1 (colors map - 1))
              {| ind := 0; dist := colordifference px (acolor c0) |})
    as [st [Hloop [c [Hc Hd]]]].
  - rewrite <- Hwf. apply seqZ_in_range.
  - exists c0. split; [exact Hc0 | reflexivity].
  - rewrite Hloop. cbn. exists st, c. auto.
Qed.
End MatcherFacts.
(** ** Chains and buckets *)

Lemma chain_search_None chain l :
  chain_search chain l = None -> l ∉ achl_color <$> chain.
Proof.
  induction chain as [| it next IH]; cbn.
  - intros _. apply not_elem_of_nil.
  - destruct (Z.eqb_spec (achl_color it) l) as [Heq | Hne]; [discriminate |].
    destruct (chain_search next l) eqn:Hs; [discriminate |].
    intros _. rewrite not_elem_of_cons. split; [congruence | auto].
Qed.

Lemma chain_search_Some chain l : forall k,
  chain_search chain l = Some k ->
  exists it, chain !! k = Some it /\ achl_color it = l.
Proof.
  induction chain as [| it next IH]; cbn; intros k; [discriminate |].
  destruct (Z.eqb_spec (achl_color it) l) as [Heq | Hne].
  - intros [= <-]. exists it. auto.
  - destruct (chain_search next l) as [k' |] eqn:Hs; [| discriminate].
    intros [= <-]. cbn. apply IH. reflexivity.
Qed.

(** Replacing the chain of one bucket changes that stretch of the nodes. *)
Lemma join_insert {A} (bk : list (list A)) (i : nat) (chain chain' : list A) :
  bk !! i = Some chain ->
  exists pre post,
    mjoin bk = pre ++ chain ++ post /\
    mjoin (<[i := chain']> bk) = pre ++ chain' ++ post.
Proof.
  intros Hi. exists (mjoin (take i bk)), (mjoin (drop (S i) bk)). split.
  - rewrite <- (take_drop_middle bk i chain Hi) at 1.
    rewrite join_app. reflexivity.
  - rewrite insert_take_drop by (eapply lookup_lt_Some; exact Hi).
    rewrite join_app. reflexivity.
Qed.

Lemma alter_middle {A} (f : A -> A) (chain : list A) (k : nat) (x : A) :
  chain !! k = Some x ->
  exists c1 c2, chain = c1 ++ x :: c2 /\ alter f k chain = c1 ++ f x :: c2.
Proof.
  intros Hk. exists (take k chain), (drop (S k) chain). split.
  - symmetry. apply take_drop_middle. exact Hk.
  - revert k Hk. induction chain as [| y chain IH]; intros [| k] Hk;
      try discriminate; cbn in *.
    + injection Hk as ->. rewrite drop_0. reflexivity.
    + f_equal. apply IH. exact Hk.
Qed.

Lemma list_to_map_middle (A B : list (Z * float)) (k : Z) (v : float) :
  NoDup (fst <$> (A ++ (k, v) :: B)) ->
  (list_to_map (A ++ (k, v) :: B) : gmap Z float) = <[k := v]> (list_to_map (A ++ B)).
Proof.
  intros Hnd. rewrite <- list_to_map_cons.
  apply list_to_map_proper; [exact Hnd |].
  symmetry. apply Permutation_middle.
Qed.

Lemma NoDup_middle_change {A} (xs ys : list A) (x : A) :
  NoDup (xs ++ x :: ys) -> NoDup (xs ++ ys) /\ x ∉ xs ++ ys.
Proof.
  intros Hnd. assert (Hp : xs ++ x :: ys ≡ₚ x :: (xs ++ ys))
    by (symmetry; apply Permutation_middle).
  rewrite Hp in Hnd. apply NoDup_cons in Hnd. tauto.
Qed.
Lemma node_pair_fst (nodes : list acolorhist_list_item) :
  fst <$> (node_pair <$> nodes) = achl_color <$> nodes.
Proof. rewrite <- list_fmap_compose. reflexivity. Qed.

(** A colour that its own bucket does not hold is nowhere in the table. *)
Lemma table_inv_absent bk l chain :
  table_inv bk ->
  bk !! Z.to_nat (l mod HASH_SIZE) = Some chain ->
  chain_search chain l = None ->
  l ∉ achl_color <$> mjoin bk.
Proof.
  intros (_ & Hhash & _) Hchain Hs Hin.
  apply list_elem_of_fmap in Hin as (it & -> & Hit).
  apply list_elem_of_join in Hit as (chain' & Hit & Hchain').
  apply list_elem_of_lookup in Hchain' as (i & Hi).
  destruct (Hhash i chain' it Hi Hit) as [_ Hih].
  rewrite Hih in Hchain. assert (chain' = chain) by congruence. subst chain'.
  apply chain_search_None in Hs. apply Hs.
  apply list_elem_of_fmap. exists it. auto.
Qed.

(** A new node at the head of its chain. *)
Lemma table_insert_new bk l b chain :
  table_inv bk -> 0 <= l ->
  bk !! Z.to_nat (l mod HASH_SIZE) = Some chain ->
  chain_search chain l = None ->
  let achl := {| achl_color := l; achl_perceptual_weight := b |} in
  let bk' := <[Z.to_nat (l mod HASH_SIZE) := achl :: chain]> bk in
  table_inv bk' /\
  (list_to_map (node_pair <$> mjoin bk) : gmap Z float) !! l = None /\
  (list_to_map (node_pair <$> mjoin bk') : gmap Z float) =
    <[l := b]> (list_to_map (node_pair <$> mjoin bk)) /\
  length (mjoin bk') = S (length (mjoin bk)).
Proof.
  intros Hinv Hl Hchain Hs achl bk'.
  pose proof (table_inv_absent bk l chain Hinv Hchain Hs) as Habs.
  destruct Hinv as (Hlen & Hhash & Hnd).
  destruct (join_insert bk _ chain (achl :: chain) Hchain) as (pre & post & Hj & Hj').
  fold bk' in Hj'.
  assert (Hperm : mjoin bk' ≡ₚ achl :: mjoin bk).
  { rewrite Hj', Hj. cbn. symmetry. apply Permutation_middle. }
  assert (Hnd' : NoDup (achl_color <$> mjoin bk')).
  { rewrite Hperm. cbn. apply NoDup_cons. split; assumption. }
  split; [| split; [| split]].
  - split; [| split].
    + unfold bk'. rewrite length_insert. exact Hlen.
    + intros i chain0 it Hi Hit. unfold bk' in Hi.
      destruct (decide (i = Z.to_nat (l mod HASH_SIZE))) as [-> | Hne].
      * rewrite list_lookup_insert_eq in Hi by (eapply lookup_lt_Some; exact Hchain).
        injection Hi as <-. apply elem_of_cons in Hit as [-> | Hit].
        -- cbn. auto.
        -- eapply Hhash; eassumption.
      * rewrite list_lookup_insert_ne in Hi by congruence.
        eapply Hhash; eassumption.
    + exact Hnd'.
  - apply not_elem_of_list_to_map. rewrite node_pair_fst. exact Habs.
  - rewrite Hj', Hj. cbn. rewrite fmap_app. cbn.
    change (node_pair achl) with (l, b).
    rewrite list_to_map_middle.
    + rewrite <- fmap_app. reflexivity.
    + change (l, b) with (node_pair achl).
      rewrite <- (fmap_cons node_pair achl), <- fmap_app, node_pair_fst.
      rewrite Hj' in Hnd'. exact Hnd'.
  - rewrite Hperm. reflexivity.
Qed.

(** The weight of the node found goes up by the boost. *)
Lemma table_add_weight bk h l b chain k :
  table_inv bk ->
  bk !! h = Some chain ->
  chain_search chain l = Some k ->
  let bk' := <[h := alter (add_weight b) k chain]> bk in
  exists w,
    (list_to_map (node_pair <$> mjoin bk) : gmap Z float) !! l = Some w /\
    table_inv bk' /\
    (list_to_map (node_pair <$> mjoin bk') : gmap Z float) =
      <[l := Float32.add w b]> (list_to_map (node_pair <$> mjoin bk)) /\
    length (mjoin bk') = length (mjoin bk).
Proof.
  intros (Hlen & Hhash & Hnd) Hchain Hs bk'.
  destruct (chain_search_Some chain l k Hs) as (it & Hk & Hcol).
  destruct (alter_middle (add_weight b) chain k it Hk) as (c1 & c2 & Hc & Hc').
  destruct (join_insert bk h chain (alter (add_weight b) k chain) Hchain)
    as (pre & post & Hj & Hj').
  fold bk' in Hj'. rewrite Hc' in Hj'. rewrite Hc in Hj.
  assert (Hj1 : mjoin bk = (pre ++ c1) ++ it :: (c2 ++ post))
    by (rewrite Hj, <- !app_assoc; reflexivity).
  assert (Hj2 : mjoin bk' = (pre ++ c1) ++ add_weight b it :: (c2 ++ post))
    by (rewrite Hj', <- !app_assoc; reflexivity).
  assert (Hcols : achl_color <$> mjoin bk' = achl_color <$> mjoin bk).
  { rewrite Hj1, Hj2, !fmap_app. reflexivity. }
  exists (achl_perceptual_weight it).
  assert (Hm : (list_to_map (node_pair <$> mjoin bk) : gmap Z float) =
               <[l := achl_perceptual_weight it]>
                 (list_to_map (node_pair <$> ((pre ++ c1) ++ (c2 ++ post))))).
  { rewrite Hj1, fmap_app, fmap_cons. unfold node_pair at 2. rewrite Hcol.
    rewrite list_to_map_middle; [rewrite <- fmap_app; reflexivity |].
    rewrite <- Hcol. change (achl_color it, achl_perceptual_weight it) with (node_pair it).
    rewrite <- fmap_cons, <- fmap_app, node_pair_fst, <- Hj1. exact Hnd. }
  split; [| split; [| split]].
  - rewrite Hm. apply lookup_insert_eq.
  - split; [| split].
    + unfold bk'. rewrite length_insert. exact Hlen.
    + intros i chain0 it0 Hi Hit0. unfold bk' in Hi.
      destruct (decide (i = h)) as [-> | Hne].
      * rewrite list_lookup_insert_eq in Hi by (eapply lookup_lt_Some; exact Hchain).
        injection Hi as <-. rewrite Hc' in Hit0.
        apply elem_of_app in Hit0 as [Hit0 | Hit0].
        -- apply (Hhash h chain it0 Hchain). rewrite Hc. apply elem_of_app. auto.
        -- apply elem_of_cons in Hit0 as [-> | Hit0].
           ++ cbn. apply (Hhash h chain it Hchain). rewrite Hc.
              apply elem_of_app. right. apply elem_of_cons. auto.
           ++ apply (Hhash h chain it0 Hchain). rewrite Hc.
              apply elem_of_app. right. apply elem_of_cons. auto.
      * rewrite list_lookup_insert_ne in Hi by congruence.
        eapply Hhash; eassumption.
    + rewrite Hcols. exact Hnd.
  - rewrite Hm, insert_insert_eq.
    rewrite Hj2, fmap_app, fmap_cons. unfold node_pair at 2. cbn. rewrite Hcol.
    rewrite list_to_map_middle; [rewrite <- fmap_app; reflexivity |].
    replace l with (achl_color (add_weight b it)) at 1 by (cbn; exact Hcol).
    change (achl_color (add_weight b it), Float32.add (achl_perceptual_weight it) b)
      with (node_pair (add_weight b it)).
    rewrite <- fmap_cons, <- fmap_app, node_pair_fst, <- Hj2, Hcols. exact Hnd.
  - rewrite Hj1, Hj2, !length_app. reflexivity.
Qed.
Lemma uint_nonneg x : 0 <= uint x.
Proof. unfold uint. apply Z.mod_pos_bound. reflexivity. Qed.

Lemma posterize_mask_nonneg ignorebits : 0 <= posterize_mask ignorebits.
Proof.
  unfold posterize_mask, channel_mask.
  rewrite !Z.lor_nonneg. repeat split; apply uint_nonneg.
Qed.

Lemma posterize_nonneg ignorebits p : 0 <= posterize ignorebits p.
Proof.
  unfold posterize. apply Z.land_nonneg. right. apply posterize_mask_nonneg.
Qed.

Lemma hash_in_range l : 0 <= l mod HASH_SIZE < HASH_SIZE.
Proof. apply Z.mod_pos_bound. reflexivity. Qed.

Lemma table_map_size bk :
  table_inv bk ->
  base.size (list_to_map (node_pair <$> mjoin bk) : gmap Z float) = length (mjoin bk).
Proof.
  intros (_ & _ & Hnd). rewrite map_size_list_to_map.
  - apply length_fmap.
  - rewrite node_pair_fst. exact Hnd.
Qed.

Lemma free_arena_heap t h :
  is_Some (mempool t) -> pam_freeacolorhash t (arena_heap h) = h.
Proof.
  intros [n Hn]. unfold pam_freeacolorhash. rewrite Hn. destruct h. reflexivity.
Qed.

(** A pixel going into the table does to it what [hist_step] does to the
    map. *)
Lemma table_step_sim imp maxacolors h m st boost pos cur l :
  sim_inv h m st -> 0 <= l ->
  (is_Some imp -> cur = pos) ->
  (imp = None -> boost = Float32.one) ->
  sim_flow h imp pos (table_step maxacolors l boost cur st)
    (Defined (hist_step maxacolors m (l, boost))).
Proof.
  intros (Hinv & Hmap & Hcol & Hheap & Hpool) Hl Hcur Hboost.
  unfold table_step, table_map, table_nodes in *.
  pose proof (hash_in_range l) as Hh.
  destruct (read_in_range (buckets (acht st)) (l mod HASH_SIZE)) as [chain Hchain].
  { destruct Hinv as (Hlen & _). rewrite Hlen. lia. }
  rewrite Hchain. cbn. apply read_Defined in Hchain as [_ Hchain].
  unfold hist_step. cbn.
  destruct (chain_search chain l) as [k |] eqn:Hs.
  - destruct (table_add_weight _ _ l boost chain k Hinv Hchain Hs)
      as (w & Hw & Hinv' & Hmap' & Hlen').
    rewrite <- Hmap, Hw. cbn.
    split; [| split; [exact Hcur | exact Hboost]].
    unfold sim_inv, table_map, table_nodes. cbn.
    split; [exact Hinv' | split; [exact Hmap' |]].
    split; [| split; [exact Hheap | exact Hpool]].
    rewrite Hlen'. exact Hcol.
  - destruct (table_insert_new _ l boost chain Hinv Hl Hchain Hs)
      as (Hinv' & Hnone & Hmap' & Hlen').
    rewrite <- Hmap, Hnone, (table_map_size _ Hinv), <- Hcol.
    destruct (hs_colors st + 1 >? maxacolors).
    + cbn. rewrite Hheap. apply free_arena_heap. exact Hpool.
    + destruct Hpool as [n Hn]. rewrite Hn. cbn.
      split; [| split; [exact Hcur | exact Hboost]].
      unfold sim_inv, table_map, table_nodes. cbn.
      split; [exact Hinv' | split; [exact Hmap' |]].
      split; [| split; [exact Hheap | eauto]].
      rewrite Hlen', Hcol. lia.
Qed.

Lemma pixel_step_sim apixels imp maxacolors ignorebits cols row col h m st :
  sim_inv h m st ->
  (is_Some imp -> hs_importance st = row * cols + col) ->
  (imp = None -> hs_boost st = Float32.one) ->
  sim_flow h imp (row * cols + col + 1)
    (pixel_step apixels imp maxacolors (posterize_mask ignorebits) row col st)
    (x ← input_at apixels imp cols ignorebits (row, col);
     Defined (hist_step maxacolors m x)).
Proof.
  intros Hinv Hcur Hboost. unfold pixel_step, input_at, pixel_at. cbn.
  destruct imp as [mp |].
  - rewrite Hcur by eauto.
    destruct (read mp (row * cols + col)) as [v |]; cbn; [| exact I].
    destruct (read apixels row) as [line |]; cbn; [| exact I].
    destruct (read line col) as [p |]; cbn; [| exact I].
    apply table_step_sim;
      [exact Hinv | apply posterize_nonneg | reflexivity | discriminate].
  - cbn. destruct (read apixels row) as [line |]; cbn; [| exact I].
    destruct (read line col) as [p |]; cbn; [| exact I].
    rewrite Hboost by reflexivity.
    apply table_step_sim;
      [exact Hinv | apply posterize_nonneg | intros [? [=]] | reflexivity].
Qed.
(** ** The loops of pam_computeacolorhash *)

Lemma hist_scan_app maxacolors ins1 ins2 : forall m,
  hist_scan maxacolors (ins1 ++ ins2) m =
    match hist_scan maxacolors ins1 m with
    | Defined (Some m') => hist_scan maxacolors ins2 m'
    | r => r
    end.
Proof.
  induction ins1 as [| i ins1 IH]; intros m; cbn; [reflexivity |].
  destruct i as [x |]; cbn; [| reflexivity].
  destruct (hist_step maxacolors m x) as [m' |]; [apply IH | reflexivity].
Qed.

Lemma seqZ_to_nat m n : seqZ m n = seqZ m (Z.of_nat (Z.to_nat n)).
Proof. unfold seqZ. rewrite Nat2Z.id. reflexivity. Qed.

Lemma seqZ_succ m (n : nat) :
  seqZ m (Z.of_nat (S n)) = m :: seqZ (Z.succ m) (Z.of_nat n).
Proof.
  rewrite seqZ_cons by lia. do 2 f_equal. lia.
Qed.

Lemma cols_loop_sim apixels imp maxacolors ignorebits cols row h :
  forall (n : nat) c0 m st,
    0 <= c0 -> c0 + Z.of_nat n <= Z.max 0 cols ->
    sim_inv h m st ->
    (is_Some imp -> hs_importance st = row * Z.max 0 cols + c0) ->
    (imp = None -> hs_boost st = Float32.one) ->
    sim_flow h imp (row * Z.max 0 cols + c0 + Z.of_nat n)
      (cols_loop apixels imp maxacolors (posterize_mask ignorebits) row
         (seqZ c0 (Z.of_nat n)) st)
      (hist_scan maxacolors
         (input_at apixels imp cols ignorebits
            <$> ((fun col => (row, col)) <$> seqZ c0 (Z.of_nat n))) m).
Proof.
  induction n as [| n IH]; intros c0 m st Hc0 Hn Hinv Hcur Hboost.
  - cbn. split; [exact Hinv | split; [| exact Hboost]].
    intros Hs. rewrite Hcur by exact Hs. lia.
  - rewrite seqZ_succ. cbn.
    assert (Hcols : Z.max 0 cols = cols) by lia.
    pose proof (pixel_step_sim apixels imp maxacolors ignorebits cols row c0 h m st
                  Hinv) as Hstep.
    rewrite Hcols in Hcur. specialize (Hstep Hcur Hboost).
    destruct (input_at apixels imp cols ignorebits (row, c0)) as [x |]; cbn in *.
    + destruct (pixel_step _ _ _ _ _ _ _) as [[st' | h'] |]; cbn in *;
        destruct (hist_step maxacolors m x) as [m' |]; try contradiction.
      * destruct Hstep as (Hinv' & Hcur' & Hboost').
        replace (row * Z.max 0 cols + c0 + Z.of_nat (S n))
          with (row * Z.max 0 cols + Z.succ c0 + Z.of_nat n) by lia.
        apply IH; try assumption; try lia.
        intros Hs. rewrite Hcur' by exact Hs. lia.
      * exact Hstep.
    + destruct (pixel_step _ _ _ _ _ _ _) as [[st' | h'] |]; cbn in *;
        try contradiction. exact I.
Qed.

Lemma sim_inv_set_boost h m st b : sim_inv h m st -> sim_inv h m (set_boost b st).
Proof. intros Hinv. exact Hinv. Qed.

Lemma rows_loop_sim apixels imp maxacolors ignorebits cols h :
  forall (k : nat) r0 m st,
    sim_inv h m st ->
    (is_Some imp -> hs_importance st = r0 * Z.max 0 cols) ->
    (imp = None -> hs_boost st = Float32.one) ->
    sim_flow h imp ((r0 + Z.of_nat k) * Z.max 0 cols)
      (rows_loop apixels imp maxacolors (posterize_mask ignorebits) cols
         (seqZ r0 (Z.of_nat k)) st)
      (hist_scan maxacolors
         (input_at apixels imp cols ignorebits
            <$> mjoin ((fun row => (fun col => (row, col)) <$> seqZ 0 cols)
                         <$> seqZ r0 (Z.of_nat k))) m).
Proof.
  induction k as [| k IH]; intros r0 m st Hinv Hcur Hboost.
  - cbn. split; [exact Hinv | split; [| exact Hboost]].
    intros Hs. rewrite Hcur by exact Hs. lia.
  - rewrite seqZ_succ. cbn. rewrite fmap_app, hist_scan_app.
    pose proof (cols_loop_sim apixels imp maxacolors ignorebits cols r0 h
                  (Z.to_nat cols) 0 m (set_boost Float32.one st)) as Hrow.
    rewrite <- seqZ_to_nat in Hrow.
    specialize (Hrow ltac:(lia) ltac:(lia) (sim_inv_set_boost _ _ _ _ Hinv)).
    cbn in Hrow. rewrite Z.add_0_r in Hrow.
    specialize (Hrow Hcur (fun _ => eq_refl)).
    destruct (cols_loop _ _ _ _ _ _ _) as [[st' | h'] |]; cbn in *;
      destruct (hist_scan maxacolors _ m) as [[m' |] |]; try contradiction;
      try exact Hrow.
    destruct Hrow as (Hinv' & Hcur' & Hboost').
    replace ((r0 + Z.of_nat (S k)) * Z.max 0 cols)
      with ((Z.succ r0 + Z.of_nat k) * Z.max 0 cols) by lia.
    apply IH; [exact Hinv' | | exact Hboost'].
    intros Hs. rewrite Hcur' by exact Hs. lia.
Qed.

Lemma table_inv_empty : table_inv (replicate (Z.to_nat HASH_SIZE) []).
Proof.
  assert (Hj : mjoin (replicate (Z.to_nat HASH_SIZE) (@nil acolorhist_list_item)) = []).
  { apply join_nil_2. apply Forall_replicate. reflexivity. }
  split; [apply length_replicate | split].
  - intros i chain achl Hi Hin. apply lookup_replicate in Hi as [-> _].
    apply elem_of_nil in Hin. contradiction.
  - rewrite Hj. apply NoDup_nil. constructor.
Qed.

(** [pam_computeacolorhash] against the scan on the map, from the empty
    map. *)
Lemma pam_computeacolorhash_sim apixels cols rows gamma maxacolors ignorebits imp h :
  match hist_scan maxacolors (scan_reads apixels cols rows ignorebits imp) ∅ with
  | OutOfBounds =>
      pam_computeacolorhash apixels cols rows gamma maxacolors ignorebits imp h
        = OutOfBounds
  | Defined None =>
      pam_computeacolorhash apixels cols rows gamma maxacolors ignorebits imp h
        = Defined (None, h)
  | Defined (Some m) =>
      exists t,
        pam_computeacolorhash apixels cols rows gamma maxacolors ignorebits imp h
          = Defined (Some (t, Z.of_nat (length (table_nodes t))), arena_heap h) /\
        table_inv (buckets t) /\ table_map t = m /\ is_Some (mempool t)
  end.
Proof.
  unfold pam_computeacolorhash, scan_reads, scan_positions. cbn.
  set (st0 := {| acht := _ |}).
  pose proof (rows_loop_sim apixels imp maxacolors ignorebits cols h
                (Z.to_nat rows) 0 ∅ st0) as Hsim.
  rewrite <- seqZ_to_nat in Hsim.
  assert (Hinv0 : sim_inv h ∅ st0).
  { unfold sim_inv, st0, table_map, table_nodes. cbn.
    pose proof table_inv_empty as Hinv. split; [exact Hinv |].
    assert (Hj : mjoin (replicate (Z.to_nat HASH_SIZE) (@nil acolorhist_list_item)) = []).
    { apply join_nil_2. apply Forall_replicate. reflexivity. }
    rewrite Hj. cbn. repeat split; eauto. }
  specialize (Hsim Hinv0 (fun _ => eq_refl) (fun _ => eq_refl)).
  destruct (rows_loop _ _ _ _ _ _ _) as [[st | h'] |]; cbn in *;
    destruct (hist_scan maxacolors _ ∅) as [[m |] |]; try contradiction.
  - destruct Hsim as ((Hinv & Hmap & Hcol & Hheap & Hpool) & _).
    exists (acht st). rewrite Hcol, Hheap. auto.
  - rewrite Hsim. reflexivity.
  - reflexivity.
Qed.
(** ** pam_acolorhashtoacolorhist *)

Section HistogramFacts.
Variable to_f : float -> rgb_pixel -> f_pixel.

Lemma write_next {A} (done : list A) (x y : A) (rest : list A) :
  write (done ++ y :: rest) (Z.of_nat (length done)) x = Defined (done ++ x :: rest).
Proof.
  unfold write. destruct (Z.ltb_spec (Z.of_nat (length done)) 0); [lia |].
  rewrite Nat2Z.id.
  destruct (Nat.ltb_spec (length done) (length (done ++ y :: rest))) as [_ | Hge].
  - f_equal. rewrite insert_app_r_alt by lia.
    rewrite Nat.sub_diag. reflexivity.
  - rewrite length_app in Hge. cbn in Hge. lia.
Qed.

(** The loop over a chain fills the next free cells, one per node. *)
Lemma chain_loop_fill gamma nodes : forall done (k : nat),
  (length nodes <= k)%nat ->
  chain_loop to_f gamma nodes (done ++ replicate k None) (Z.of_nat (length done)) =
    Defined (done ++ (Some <$> (hist_entry to_f gamma <$> nodes))
                  ++ replicate (k - length nodes) None,
             Z.of_nat (length done + length nodes)).
Proof.
  induction nodes as [| it nodes IH]; intros done k Hk; cbn.
  - rewrite Nat.sub_0_r, Nat.add_0_r. reflexivity.
  - destruct k as [| k]; [cbn in Hk; lia |]. cbn.
    rewrite write_next. cbn.
    replace (Z.of_nat (length done) + 1)
      with (Z.of_nat (length (done ++ [Some (hist_entry to_f gamma it)])))
      by (rewrite length_app; cbn; lia).
    rewrite (cons_middle _ done), app_assoc.
    rewrite IH by (cbn in Hk; lia).
    rewrite length_app, <- !app_assoc. cbn. do 2 f_equal. lia.
Qed.

Lemma chain_loop_app gamma nodes1 nodes2 : forall hv j,
  chain_loop to_f gamma (nodes1 ++ nodes2) hv j =
    r ← chain_loop to_f gamma nodes1 hv j;
    chain_loop to_f gamma nodes2 r.1 r.2.
Proof.
  induction nodes1 as [| it nodes1 IH]; intros hv j; cbn; [reflexivity |].
  destruct (write hv j _) as [hv' |]; cbn; [apply IH | reflexivity].
Qed.

(** The loop over the buckets visits the nodes bucket by bucket. *)
Lemma buckets_loop_join gamma rest : forall pre hv j,
  buckets_loop to_f gamma (pre ++ rest)
    (seqZ (Z.of_nat (length pre)) (Z.of_nat (length rest))) hv j =
  chain_loop to_f gamma (mjoin rest) hv j.
Proof.
  induction rest as [| chain rest IH]; intros pre hv j; [reflexivity |].
  cbn [length]. rewrite seqZ_succ. cbn.
  assert (Hread : read (pre ++ chain :: rest) (Z.of_nat (length pre)) = Defined chain).
  { apply read_Defined. split; [lia |]. rewrite Nat2Z.id.
    rewrite lookup_app_r by lia. rewrite Nat.sub_diag. reflexivity. }
  rewrite Hread. cbn. rewrite chain_loop_app.
  destruct (chain_loop to_f gamma chain hv j) as [[hv' j'] |]; cbn; [| reflexivity].
  rewrite (cons_middle chain pre rest), app_assoc.
  replace (Z.succ (Z.of_nat (length pre)))
    with (Z.of_nat (length (pre ++ [chain])))
    by (rewrite length_app; cbn; lia).
  apply IH.
Qed.

Lemma pam_acolorhashtoacolorhist_nodes t gamma h :
  table_inv (buckets t) ->
  pam_acolorhashtoacolorhist to_f t (Z.of_nat (length (table_nodes t))) gamma h =
    Defined ({| achv := Some <$> (hist_entry to_f gamma <$> table_nodes t);
                size := Z.of_nat (length (table_nodes t)) |},
             malloc (malloc h)).
Proof.
  intros (Hlen & _). unfold pam_acolorhashtoacolorhist.
  pose proof (buckets_loop_join gamma (buckets t) []) as Hloop.
  cbn [length app] in Hloop. rewrite Hlen, Z2Nat.id in Hloop by discriminate.
  rewrite Hloop, Nat2Z.id.
  pose proof (chain_loop_fill gamma (table_nodes t) [] (length (table_nodes t))
                (Nat.le_refl _)) as Hfill.
  cbn [length app] in Hfill. unfold table_nodes in *.
  change (Z.of_nat 0) with 0 in Hfill. cbn. rewrite Hfill. cbn.
  rewrite Nat.sub_diag. cbn. rewrite app_nil_r. reflexivity.
Qed.

(** The call against the scan on the map. *)
Lemma pam_computeacolorhist_sim apixels cols rows gamma maxacolors ignorebits imp h :
  match hist_scan maxacolors (scan_reads apixels cols rows ignorebits imp) ∅ with
  | OutOfBounds =>
      pam_computeacolorhist to_f apixels cols rows gamma maxacolors ignorebits imp h
        = OutOfBounds
  | Defined None =>
      pam_computeacolorhist to_f apixels cols rows gamma maxacolors ignorebits imp h
        = Defined (None, h)
  | Defined (Some m) =>
      exists nodes,
        pam_computeacolorhist to_f apixels cols rows gamma maxacolors ignorebits imp h
          = Defined (Some {| achv := Some <$> (hist_entry to_f (Float64.to_float gamma)
                                                 <$> nodes);
                             size := Z.of_nat (length nodes) |},
                     malloc (malloc h)) /\
        NoDup (achl_color <$> nodes) /\
        (list_to_map (node_pair <$> nodes) : gmap Z float) = m
  end.
Proof.
  pose proof (pam_computeacolorhash_sim apixels cols rows gamma maxacolors
                ignorebits imp h) as Hhash.
  unfold pam_computeacolorhist.
  destruct (hist_scan maxacolors _ ∅) as [[m |] |].
  - destruct Hhash as (t & -> & Hinv & Hmap & Hpool). cbn.
    rewrite (pam_acolorhashtoacolorhist_nodes t _ _ Hinv). cbn.
    exists (table_nodes t). split; [| split].
    + do 2 f_equal. unfold malloc. cbn.
      destruct Hpool as [n Hn]. unfold pam_freeacolorhash. rewrite Hn.
      reflexivity.
    + destruct Hinv as (_ & _ & Hnd). exact Hnd.
    + exact Hmap.
  - rewrite Hhash. reflexivity.
  - rewrite Hhash. reflexivity.
Qed.
End HistogramFacts.
(** ** The scan on the map *)

Lemma distinct_colors_size (cs : list Z) :
  distinct_colors cs = Z.of_nat (base.size (list_to_set cs : gset Z)).
Proof.
  unfold distinct_colors. f_equal.
  assert (Heq : (list_to_set cs : gset Z) = list_to_set (remove_dups cs)).
  { apply set_eq. intros x. rewrite !elem_of_list_to_set, elem_of_remove_dups.
    reflexivity. }
  rewrite Heq. symmetry. apply size_list_to_set. apply NoDup_remove_dups.
Qed.

Lemma hist_step_lookup maxacolors m i m' c :
  hist_step maxacolors m i = Some m' ->
  m' !! c = if decide (c = i.1)
            then Some (match m !! i.1 with
                       | Some w => Float32.add w i.2
                       | None => i.2
                       end)
            else m !! c.
Proof.
  unfold hist_step. destruct (m !! i.1) as [w |] eqn:Hl.
  - intros [= <-]. destruct (decide (c = i.1)) as [-> | Hne].
    + apply lookup_insert_eq.
    + apply lookup_insert_ne. congruence.
  - destruct (_ >? _); [discriminate |]. intros [= <-].
    destruct (decide (c = i.1)) as [-> | Hne].
    + apply lookup_insert_eq.
    + apply lookup_insert_ne. congruence.
Qed.

(** Overflow: the scan stops exactly when a colour that the map does not
    hold comes while the map holds [maxacolors] colours or more. *)
Lemma hist_scan_overflow maxacolors ins : forall m : gmap Z float,
  let D := Z.of_nat (base.size (dom m ∪ list_to_set (fst <$> ins) : gset Z)) in
  match hist_scan maxacolors (Defined <$> ins) m with
  | Defined None => Z.of_nat (base.size m) < D /\ maxacolors < D
  | Defined (Some m') =>
      dom m' = dom m ∪ list_to_set (fst <$> ins) /\
      (Z.of_nat (base.size m) = D \/ D <= maxacolors)
  | OutOfBounds => False
  end.
Proof.
  induction ins as [| [l b] ins IH]; intros m; cbn.
  - split; [set_solver |]. left. f_equal. rewrite <- size_dom.
    f_equal. set_solver.
  - assert (Hle : forall (X Y : gset Z), X ⊆ Y -> (base.size X <= base.size Y)%nat)
      by (intros X Y; apply subseteq_size).
    unfold hist_step. cbn. destruct (m !! l) as [w |] eqn:Hl.
    + specialize (IH (<[l := Float32.add w b]> m)).
      assert (Hdom : dom (<[l := Float32.add w b]> m) = dom m).
      { rewrite dom_insert_L. apply elem_of_dom_2 in Hl. set_solver. }
      assert (Hsize : base.size (<[l := Float32.add w b]> m) = base.size m).
      { rewrite <- !size_dom, Hdom. reflexivity. }
      assert (HD : dom m ∪ ({[l]} ∪ list_to_set (fst <$> ins))
                   = dom m ∪ list_to_set (fst <$> ins) :> gset Z).
      { apply elem_of_dom_2 in Hl. set_solver. }
      cbn in IH. rewrite Hdom, Hsize in IH. rewrite HD. exact IH.
    + assert (Hnew : l ∉ dom m) by (apply not_elem_of_dom; exact Hl).
      assert (Hsize : base.size (<[l := b]> m) = S (base.size m))
        by (apply map_size_insert_None; exact Hl).
      assert (HD : dom (<[l := b]> m) ∪ list_to_set (fst <$> ins)
                   = dom m ∪ ({[l]} ∪ list_to_set (fst <$> ins)) :> gset Z).
      { rewrite dom_insert_L. set_solver. }
      assert (Hbig : (S (base.size m) <=
                      base.size (dom m ∪ ({[l]} ∪ list_to_set (fst <$> ins)) : gset Z))%nat).
      { rewrite <- Hsize, <- size_dom, <- HD. apply Hle. set_solver. }
      destruct (Z.gtb_spec (Z.of_nat (base.size m) + 1) maxacolors) as [Hgt | Hok].
      * lia.
      * specialize (IH (<[l := b]> m)). cbn in IH. rewrite HD, Hsize in IH.
        destruct (hist_scan maxacolors (Defined <$> ins) (<[l := b]> m))
          as [[m' |] |]; [| lia | exact IH].
        destruct IH as [Hdom' Hcases]. split; [exact Hdom' | lia].
Qed.

Lemma hist_scan_weights maxacolors ins : forall (m m' : gmap Z float) c,
  hist_scan maxacolors (Defined <$> ins) m = Defined (Some m') ->
  m' !! c = acc_from (m !! c) (boosts_of_color c ins).
Proof.
  induction ins as [| [l b] ins IH]; intros m m' c; cbn.
  - intros [= <-]. destruct (m !! c); reflexivity.
  - destruct (hist_step maxacolors m (l, b)) as [m1 |] eqn:Hstep; [| discriminate].
    intros Hscan. rewrite (IH m1 m' c Hscan).
    rewrite (hist_step_lookup _ _ _ _ c Hstep). cbn.
    unfold boosts_of_color.
    destruct (decide (l = c)) as [-> | Hne].
    + rewrite decide_True by reflexivity. cbn.
      destruct (m !! c); reflexivity.
    + rewrite decide_False by congruence. reflexivity.
Qed.
(** ** Reads of the scan *)

Lemma outcome_to_option_input_at apixels imp cols ignorebits pos :
  outcome_to_option (input_at apixels imp cols ignorebits pos) =
    (fun pb => (posterize ignorebits pb.1, pb.2))
      <$> outcome_to_option (pixel_at apixels imp cols pos).
Proof.
  unfold input_at. destruct (pixel_at apixels imp cols pos); reflexivity.
Qed.

Lemma scan_inputs_reads apixels cols rows ignorebits imp :
  scan_inputs apixels cols rows ignorebits imp =
    omap outcome_to_option (scan_reads apixels cols rows ignorebits imp).
Proof.
  unfold scan_inputs, scan_pixels, scan_reads.
  induction (scan_positions cols rows) as [| pos ps IH]; [reflexivity |].
  cbn. rewrite outcome_to_option_input_at.
  destruct (outcome_to_option (pixel_at apixels imp cols pos)); cbn;
    rewrite <- IH; reflexivity.
Qed.

Lemma hist_scan_Some_reads maxacolors reads : forall m m',
  hist_scan maxacolors reads m = Defined (Some m') ->
  reads = Defined <$> omap outcome_to_option reads.
Proof.
  induction reads as [| [x |] reads IH]; intros m m'; cbn;
    [reflexivity | | discriminate].
  destruct (hist_step maxacolors m x) as [m1 |]; [| discriminate].
  intros Hscan. f_equal. eapply IH. exact Hscan.
Qed.

Lemma image_wf_reads apixels cols rows ignorebits imp :
  image_wf apixels cols rows imp <->
  scan_reads apixels cols rows ignorebits imp =
    Defined <$> scan_inputs apixels cols rows ignorebits imp.
Proof.
  rewrite scan_inputs_reads. unfold image_wf, scan_reads.
  induction (scan_positions cols rows) as [| pos ps IH]; [cbn; tauto |].
  rewrite !fmap_cons. cbn [forallb omap].
  assert (Hd : defined (input_at apixels imp cols ignorebits pos) =
               defined (pixel_at apixels imp cols pos)).
  { unfold input_at. destruct (pixel_at apixels imp cols pos); reflexivity. }
  rewrite <- Hd.
  destruct (input_at apixels imp cols ignorebits pos) as [x |]; cbn.
  - rewrite IH. split; [intros Heq; f_equal; exact Heq |].
    intros Heq. apply (f_equal (drop 1)) in Heq. exact Heq.
  - split; [discriminate |].
    intros Heq. exfalso. revert Heq. generalize (input_at apixels imp cols ignorebits <$> ps).
    intros l. generalize (list_omap _ _ outcome_to_option l).
    intros [| x xs]; discriminate.
Qed.

(** The image has [rows * cols] pixels. *)
Lemma length_scan_positions cols rows :
  0 <= cols -> 0 <= rows ->
  Z.of_nat (length (scan_positions cols rows)) = rows * cols.
Proof.
  intros Hc Hr. unfold scan_positions.
  assert (Hgen : forall (k : nat) r0,
            length (mjoin ((fun row => (fun col => (row, col)) <$> seqZ 0 cols)
                             <$> seqZ r0 (Z.of_nat k)))
            = (k * Z.to_nat cols)%nat).
  { induction k as [| k IH]; intros r0; [reflexivity |].
    rewrite seqZ_succ. cbn. rewrite length_app, length_fmap, length_seqZ, IH.
    reflexivity. }
  rewrite (seqZ_to_nat 0 rows), Hgen. lia.
Qed.

Lemma length_scan_inputs apixels cols rows ignorebits imp :
  image_wf apixels cols rows imp -> 0 <= cols -> 0 <= rows ->
  Z.of_nat (length (scan_inputs apixels cols rows ignorebits imp)) = rows * cols.
Proof.
  intros Hwf Hc Hr. rewrite <- (length_scan_positions cols rows Hc Hr).
  apply (image_wf_reads _ _ _ ignorebits) in Hwf.
  apply (f_equal length) in Hwf. unfold scan_reads in Hwf.
  rewrite !length_fmap in Hwf. rewrite Hwf. reflexivity.
Qed.
(** ** pam_computeacolorhist on an image *)

Lemma distinct_colors_cons_pos c cs : 0 < distinct_colors (c :: cs).
Proof.
  unfold distinct_colors.
  assert (Hin : c ∈ remove_dups (c :: cs))
    by (apply elem_of_remove_dups, elem_of_cons; auto).
  destruct (remove_dups (c :: cs)); [apply elem_of_nil in Hin; contradiction |].
  cbn. lia.
Qed.

Section HistogramResults.
Variable to_f : float -> rgb_pixel -> f_pixel.

(** What the nodes of a map built by the scan are. *)
Lemma scan_nodes maxacolors ins (m : gmap Z float) nodes :
  hist_scan maxacolors (Defined <$> ins) ∅ = Defined (Some m) ->
  NoDup (achl_color <$> nodes) ->
  list_to_map (node_pair <$> nodes) = m ->
  (forall c, c ∈ achl_color <$> nodes <-> c ∈ fst <$> ins) /\
  (forall achl, achl ∈ nodes ->
     achl_perceptual_weight achl =
       accumulate (boosts_of_color (achl_color achl) ins)) /\
  Z.of_nat (length nodes) = distinct_colors (fst <$> ins) /\
  (ins = [] \/ distinct_colors (fst <$> ins) <= maxacolors).
Proof.
  intros Hscan Hnd Hmap.
  pose proof (hist_scan_overflow maxacolors ins ∅) as Hov.
  cbn in Hov. rewrite Hscan in Hov. destruct Hov as [Hdom Hcases].
  rewrite dom_empty_L, union_empty_l_L in Hdom, Hcases.
  rewrite map_size_empty, <- distinct_colors_size in Hcases.
  assert (Hkeys : forall c, c ∈ achl_color <$> nodes <-> c ∈ fst <$> ins).
  { intros c. rewrite <- node_pair_fst.
    rewrite <- (elem_of_list_to_set (C := gset Z) c (fst <$> ins)), <- Hdom, <- Hmap.
    rewrite dom_list_to_map_L, elem_of_list_to_set. reflexivity. }
  split; [exact Hkeys | split; [| split]].
  - intros achl Hin.
    assert (Hl : m !! achl_color achl = Some (achl_perceptual_weight achl)).
    { rewrite <- Hmap. apply elem_of_list_to_map_1.
      - rewrite node_pair_fst. exact Hnd.
      - apply list_elem_of_fmap. exists achl. auto. }
    rewrite (hist_scan_weights _ _ _ _ (achl_color achl) Hscan), lookup_empty in Hl.
    destruct (boosts_of_color (achl_color achl) ins) as [| b bs]; cbn in Hl;
      [discriminate |].
    injection Hl as <-. reflexivity.
  - rewrite distinct_colors_size, <- Hdom, size_dom, <- Hmap.
    rewrite map_size_list_to_map by (rewrite node_pair_fst; exact Hnd).
    rewrite length_fmap. reflexivity.
  - destruct Hcases as [Hzero | Hle]; [left | right; exact Hle].
    destruct ins as [| i ins]; [reflexivity |].
    pose proof (distinct_colors_cons_pos i.1 (fst <$> ins)) as Hpos.
    rewrite fmap_cons in Hzero. exfalso. lia.
Qed.

(** A histogram comes back: what it is. *)
Lemma histogram_success apixels cols rows gamma maxacolors ignorebits imp h hv h' :
  pam_computeacolorhist to_f apixels cols rows gamma maxacolors ignorebits imp h
    = Defined (Some hv, h') ->
  let ins := scan_inputs apixels cols rows ignorebits imp in
  exists nodes,
    image_wf apixels cols rows imp /\
    hv = {| achv := Some <$> (hist_entry to_f (Float64.to_float gamma) <$> nodes);
            size := Z.of_nat (length nodes) |} /\
    h' = malloc (malloc h) /\
    NoDup (achl_color <$> nodes) /\
    (forall c, c ∈ achl_color <$> nodes <-> c ∈ fst <$> ins) /\
    (forall achl, achl ∈ nodes ->
       achl_perceptual_weight achl =
         accumulate (boosts_of_color (achl_color achl) ins)) /\
    Z.of_nat (length nodes) = distinct_colors (fst <$> ins) /\
    (ins = [] \/ distinct_colors (fst <$> ins) <= maxacolors).
Proof.
  intros Hres ins.
  pose proof (pam_computeacolorhist_sim to_f apixels cols rows gamma maxacolors
                ignorebits imp h) as Hsim.
  destruct (hist_scan maxacolors _ ∅) as [[m |] |] eqn:Hscan;
    [| congruence | congruence].
  destruct Hsim as (nodes & Heq & Hnd & Hmap).
  rewrite Heq in Hres. injection Hres as <- <-.
  pose proof (hist_scan_Some_reads _ _ _ _ Hscan) as Hreads.
  rewrite <- scan_inputs_reads in Hreads. fold ins in Hreads.
  rewrite Hreads in Hscan.
  exists nodes. split; [| split; [reflexivity | split; [reflexivity |]]].
  - apply (image_wf_reads _ _ _ ignorebits). exact Hreads.
  - split; [exact Hnd |]. apply (scan_nodes maxacolors ins m nodes Hscan Hnd Hmap).
Qed.

(** On an image: Overflow or a histogram, and which. *)
Lemma histogram_result apixels cols rows gamma maxacolors ignorebits imp h :
  image_wf apixels cols rows imp ->
  let ins := scan_inputs apixels cols rows ignorebits imp in
  if decide (ins <> [] /\ maxacolors < distinct_colors (fst <$> ins))
  then pam_computeacolorhist to_f apixels cols rows gamma maxacolors ignorebits imp h
         = Defined (None, h)
  else exists hv,
         pam_computeacolorhist to_f apixels cols rows gamma maxacolors ignorebits imp h
           = Defined (Some hv, malloc (malloc h)).
Proof.
  intros Hwf ins.
  pose proof (pam_computeacolorhist_sim to_f apixels cols rows gamma maxacolors
                ignorebits imp h) as Hsim.
  apply (image_wf_reads _ _ _ ignorebits) in Hwf. fold ins in Hwf.
  rewrite Hwf in Hsim.
  pose proof (hist_scan_overflow maxacolors ins ∅) as Hov. cbn in Hov.
  rewrite dom_empty_L, union_empty_l_L, map_size_empty,
    <- distinct_colors_size in Hov.
  destruct (hist_scan maxacolors (Defined <$> ins) ∅) as [[m |] |];
    [| | contradiction].
  - destruct Hov as [_ Hcases], Hsim as (nodes & Heq & _).
    rewrite decide_False; [eauto |].
    intros [Hne Hgt]. destruct Hcases as [Hzero | Hle]; [| lia].
    destruct ins as [| i ins']; [congruence |].
    pose proof (distinct_colors_cons_pos i.1 (fst <$> ins')) as Hpos.
    rewrite fmap_cons in Hzero. exfalso. lia.
  - rewrite decide_True; [exact Hsim |].
    destruct Hov as [Hpos Hgt]. split; [| exact Hgt].
    intros Hnil. rewrite Hnil in Hpos. unfold distinct_colors in Hpos.
    cbn in Hpos. lia.
Qed.
End HistogramResults.
Section HistogramEval.
Variable to_f : float -> rgb_pixel -> f_pixel.

(** The call in terms of the table of [pam_computeacolorhash]. *)
Lemma pam_computeacolorhist_eval apixels cols rows gamma maxacolors ignorebits imp h :
  pam_computeacolorhist to_f apixels cols rows gamma maxacolors ignorebits imp h =
    match pam_computeacolorhash apixels cols rows gamma maxacolors ignorebits imp h with
    | Defined (Some (t, n), h') =>
        Defined (Some {| achv := Some <$> (hist_entry to_f (Float64.to_float gamma)
                                             <$> table_nodes t);
                         size := n |},
                 pam_freeacolorhash t (malloc (malloc h')))
    | Defined (None, h') => Defined (None, h')
    | OutOfBounds => OutOfBounds
    end.
Proof.
  pose proof (pam_computeacolorhash_sim apixels cols rows gamma maxacolors
                ignorebits imp h) as Hhash.
  unfold pam_computeacolorhist.
  destruct (hist_scan maxacolors _ ∅) as [[m |] |].
  - destruct Hhash as (t & -> & Hinv & _). cbn.
    rewrite (pam_acolorhashtoacolorhist_nodes to_f t _ _ Hinv). reflexivity.
  - rewrite Hhash. reflexivity.
  - rewrite Hhash. reflexivity.
Qed.

(** The scan stops at the first colour too many, whatever comes after. *)
Lemma histogram_abort apixels cols rows gamma maxacolors ignorebits imp h pre rest :
  scan_reads apixels cols rows ignorebits imp = (Defined <$> pre) ++ rest ->
  pre <> [] -> maxacolors < distinct_colors (fst <$> pre) ->
  pam_computeacolorhist to_f apixels cols rows gamma maxacolors ignorebits imp h
    = Defined (None, h).
Proof.
  intros Hreads Hne Hgt.
  pose proof (pam_computeacolorhist_sim to_f apixels cols rows gamma maxacolors
                ignorebits imp h) as Hsim.
  rewrite Hreads, hist_scan_app in Hsim.
  pose proof (hist_scan_overflow maxacolors pre ∅) as Hov. cbn in Hov.
  rewrite dom_empty_L, union_empty_l_L, map_size_empty,
    <- distinct_colors_size in Hov.
  destruct (hist_scan maxacolors (Defined <$> pre) ∅) as [[m |] |];
    [| exact Hsim | contradiction].
  destruct Hov as [_ [Hzero | Hle]]; [| lia].
  destruct pre as [| i pre']; [congruence |].
  pose proof (distinct_colors_cons_pos i.1 (fst <$> pre')) as Hpos.
  rewrite fmap_cons in Hzero. lia.
Qed.
End HistogramEval.
(** ** Posterization masks *)

Lemma shift_count_range n : 0 <= shift_count n < 32.
Proof. unfold shift_count. apply Z.mod_pos_bound. reflexivity. Qed.

Lemma shift_count_small n : 0 <= n <= 31 -> shift_count n = n.
Proof. intros Hn. unfold shift_count. apply Z.mod_small. lia. Qed.

(** Outside 0..31 the count wraps: 32 ignores no bit, -1 ignores all. *)
Lemma channel_mask_wraps :
  shift_count 32 = 0 /\ channel_mask 32 = channel_mask 0 /\ channel_mask 32 = 255 /\
  shift_count (-1) = 31 /\ channel_mask (-1) = 0.
Proof. repeat split. Qed.

(** From 8 bits on nothing is kept. *)
Lemma channel_mask_clamp ignorebits :
  channel_mask ignorebits = channel_mask (Z.min 8 (shift_count ignorebits)).
Proof.
  pose proof (shift_count_range ignorebits) as Hk.
  unfold channel_mask. rewrite (shift_count_small (Z.min 8 _)) by lia.
  destruct (Z_le_gt_dec 8 (shift_count ignorebits)) as [Hge | Hlt].
  - rewrite Z.min_l by lia.
    rewrite (Z.shiftr_eq_0 255 (shift_count ignorebits)) by (cbn; lia).
    rewrite Z.shiftl_0_l. reflexivity.
  - rewrite Z.min_r by lia. reflexivity.
Qed.

Lemma posterize_mask_clamp ignorebits :
  posterize_mask ignorebits = posterize_mask (Z.min 8 (shift_count ignorebits)).
Proof. unfold posterize_mask. rewrite channel_mask_clamp. reflexivity. Qed.

(** A coarser mask keeps a part of what a finer mask keeps. *)
Lemma posterize_mask_land ignorebits1 ignorebits2 :
  0 <= ignorebits1 -> ignorebits1 <= ignorebits2 -> ignorebits2 <= 31 ->
  Z.land (posterize_mask ignorebits1) (posterize_mask ignorebits2)
    = posterize_mask ignorebits2.
Proof.
  intros Hlow Hle Hhigh.
  rewrite (posterize_mask_clamp ignorebits1), (posterize_mask_clamp ignorebits2).
  rewrite !shift_count_small by lia.
  assert (H1 : 0 <= Z.min 8 ignorebits1 <= 8) by lia.
  assert (H2 : Z.min 8 ignorebits1 <= Z.min 8 ignorebits2 <= 8) by lia.
  generalize dependent (Z.min 8 ignorebits2).
  generalize dependent (Z.min 8 ignorebits1).
  intros k1 Hk1 k2 Hk2.
  assert (Hc1 : k1 = 0 \/ k1 = 1 \/ k1 = 2 \/ k1 = 3 \/ k1 = 4 \/ k1 = 5 \/
                k1 = 6 \/ k1 = 7 \/ k1 = 8) by lia.
  assert (Hc2 : k2 = 0 \/ k2 = 1 \/ k2 = 2 \/ k2 = 3 \/ k2 = 4 \/ k2 = 5 \/
                k2 = 6 \/ k2 = 7 \/ k2 = 8) by lia.
  repeat (destruct Hc1 as [-> | Hc1]); try subst k1;
    repeat (destruct Hc2 as [-> | Hc2]); try subst k2;
    try lia; reflexivity.
Qed.

Lemma posterize_coarser ignorebits1 ignorebits2 p :
  0 <= ignorebits1 -> ignorebits1 <= ignorebits2 -> ignorebits2 <= 31 ->
  posterize ignorebits2 p =
    Z.land (posterize ignorebits1 p) (posterize_mask ignorebits2).
Proof.
  intros Hlow Hle Hhigh. unfold posterize.
  rewrite <- Z.land_assoc, (posterize_mask_land _ _ Hlow Hle Hhigh). reflexivity.
Qed.

Lemma posterize_mask_zero ignorebits :
  8 <= ignorebits <= 31 -> posterize_mask ignorebits = 0.
Proof.
  intros Hge. rewrite posterize_mask_clamp, shift_count_small by lia.
  rewrite Z.min_l by lia. reflexivity.
Qed.

(** ** Counting colours *)

Lemma distinct_colors_fmap_le (f : Z -> Z) (cs : list Z) :
  distinct_colors (f <$> cs) <= distinct_colors cs.
Proof.
  unfold distinct_colors. apply inj_le.
  rewrite <- (length_fmap f (remove_dups cs)).
  apply submseteq_length, NoDup_submseteq; [apply NoDup_remove_dups |].
  intros x Hx. apply elem_of_remove_dups, list_elem_of_fmap in Hx as (y & -> & Hy).
  apply list_elem_of_fmap. exists y. split; [reflexivity |].
  apply elem_of_remove_dups. exact Hy.
Qed.

Lemma scan_inputs_coarser apixels cols rows ignorebits1 ignorebits2 imp :
  0 <= ignorebits1 -> ignorebits1 <= ignorebits2 -> ignorebits2 <= 31 ->
  fst <$> scan_inputs apixels cols rows ignorebits2 imp =
    (fun l => Z.land l (posterize_mask ignorebits2))
      <$> (fst <$> scan_inputs apixels cols rows ignorebits1 imp).
Proof.
  intros Hlow Hle Hhigh. unfold scan_inputs. rewrite <- !list_fmap_compose.
  apply list_fmap_ext. intros i pb _. cbn.
  apply posterize_coarser; assumption.
Qed.

Lemma scan_inputs_nil apixels cols rows ignorebits1 ignorebits2 imp :
  scan_inputs apixels cols rows ignorebits1 imp = [] ->
  scan_inputs apixels cols rows ignorebits2 imp = [].
Proof.
  unfold scan_inputs. intros Hnil. apply fmap_nil_inv in Hnil. rewrite Hnil.
  reflexivity.
Qed.

Lemma scan_inputs_snd apixels cols rows ignorebits1 ignorebits2 imp :
  snd <$> scan_inputs apixels cols rows ignorebits1 imp =
  snd <$> scan_inputs apixels cols rows ignorebits2 imp.
Proof. unfold scan_inputs. rewrite <- !list_fmap_compose. reflexivity. Qed.

Section HistogramFits.
Variable to_f : float -> rgb_pixel -> f_pixel.

(** An image with no more colours than [maxacolors] gives a histogram. *)
Lemma histogram_fits apixels cols rows gamma maxacolors ignorebits imp h :
image_wf apixels cols rows imp ->
distinct_colors (fst <$> scan_inputs apixels cols rows ignorebits imp)
  <= maxacolors ->
exists hv,
  pam_computeacolorhist to_f apixels cols rows gamma maxacolors ignorebits imp h
    = Defined (Some hv, malloc (malloc h)).
Proof.
intros Hwf Hle.
pose proof (histogram_result to_f apixels cols rows gamma maxacolors ignorebits
              imp h Hwf) as Hres.
cbv zeta in Hres. rewrite decide_False in Hres by lia. exact Hres.
Qed.

Lemma hist_entries_fmap (es : list hist_item) (n : Z) :
hist_entries {| achv := Some <$> es; size := n |} = es.
Proof.
unfold hist_entries. cbn. induction es as [| e es IH]; [reflexivity |].
cbn. f_equal. exact IH.
Qed.
End HistogramFits.
(** ** One colour *)

Lemma distinct_colors_one (c : Z) (cs : list Z) :
  cs <> [] -> (forall x, x ∈ cs -> x = c) -> distinct_colors cs = 1.
Proof.
  intros Hne Hall. rewrite distinct_colors_size.
  assert (Hset : (list_to_set cs : gset Z) = {[c]}).
  { apply set_eq. intros x. rewrite elem_of_list_to_set, elem_of_singleton.
    split; [apply Hall |]. intros ->.
    destruct cs as [| y cs]; [congruence |].
    rewrite <- (Hall y) by (apply elem_of_cons; auto). apply elem_of_cons. auto. }
  rewrite Hset, size_singleton. reflexivity.
Qed.

Lemma boosts_of_color_all (c : Z) (ins : list (Z * float)) :
  (forall i, i ∈ ins -> i.1 = c) -> boosts_of_color c ins = snd <$> ins.
Proof.
  intros Hall. unfold boosts_of_color. f_equal.
  induction ins as [| i ins IH]; [reflexivity |].
  rewrite filter_cons_True by (apply Hall, elem_of_cons; auto).
  f_equal. apply IH. intros j Hj. apply Hall, elem_of_cons. auto.
Qed.

Lemma posterize_zero ignorebits p :
  8 <= ignorebits <= 31 -> posterize ignorebits p = 0.
Proof.
  intros Hge. unfold posterize. rewrite (posterize_mask_zero _ Hge).
  apply Z.land_0_r.
Qed.

Lemma scan_inputs_zero apixels cols rows ignorebits imp i :
  8 <= ignorebits <= 31 ->
  i ∈ scan_inputs apixels cols rows ignorebits imp -> i.1 = 0.
Proof.
  intros Hge Hin. unfold scan_inputs in Hin.
  apply list_elem_of_fmap in Hin as (pb & -> & _). cbn.
  apply posterize_zero. exact Hge.
Qed.
(** ** Exact sums *)

Lemma qsum_plus {A} (f g : A -> Q) (xs : list A) :
  (fold_right Qplus 0 ((fun x => f x + g x) <$> xs) ==
   fold_right Qplus 0 (f <$> xs) + fold_right Qplus 0 (g <$> xs))%Q.
Proof.
  induction xs as [| x xs IH]; cbn; [ring |]. rewrite IH. ring.
Qed.

Lemma qsum_ext {A} (f g : A -> Q) (xs : list A) :
  (forall x, x ∈ xs -> (f x == g x)%Q) ->
  (fold_right Qplus 0 (f <$> xs) == fold_right Qplus 0 (g <$> xs))%Q.
Proof.
  induction xs as [| x xs IH]; intros Hfg; cbn; [reflexivity |].
  rewrite (Hfg x) by (apply elem_of_cons; auto).
  rewrite IH; [reflexivity |]. intros y Hy. apply Hfg, elem_of_cons. auto.
Qed.

(** A value counted for one colour of a list of distinct colours is counted
    once. *)
Lemma qsum_indicator (l : Z) (v : Q) (cs : list Z) :
  NoDup cs ->
  (fold_right Qplus 0 ((fun c => if decide (l = c) then v else 0) <$> cs) ==
   if decide (l ∈ cs) then v else 0)%Q.
Proof.
  induction cs as [| c cs IH]; intros Hnd; cbn; [reflexivity |].
  apply NoDup_cons in Hnd as [Hc Hnd]. rewrite (IH Hnd).
  repeat case_decide; subst; try ring; exfalso;
    rewrite ?elem_of_cons in *; tauto.
Qed.

(** The boosts of the pixels, sorted by colour, are the boosts of the
    pixels. *)
Lemma exact_sum_by_color (cs : list Z) (ins : list (Z * float)) :
  NoDup cs -> (forall i, i ∈ ins -> i.1 ∈ cs) ->
  (fold_right Qplus 0 ((fun c => exact_sum (boosts_of_color c ins)) <$> cs) ==
   exact_sum (snd <$> ins))%Q.
Proof.
  intros Hnd. induction ins as [| i ins IH]; intros Hall.
  - clear Hall Hnd. induction cs as [| c cs IHc]; [reflexivity |].
    cbn [fmap list_fmap fold_right]. rewrite IHc. reflexivity.
  - rewrite (qsum_ext _ (fun c => (if decide (i.1 = c) then value i.2 else 0)
                                  + exact_sum (boosts_of_color c ins))%Q).
    + rewrite qsum_plus, (qsum_indicator _ _ _ Hnd).
      rewrite decide_True by (apply Hall, elem_of_cons; auto).
      rewrite IH by (intros j Hj; apply Hall, elem_of_cons; auto).
      reflexivity.
    + intros c _. unfold boosts_of_color. rewrite filter_cons.
      destruct (decide (i.1 = c)); cbn; [reflexivity | unfold exact_sum; ring].
Qed.

Lemma value_one : (value Float32.one == 1)%Q.
Proof. reflexivity. Qed.

Lemma exact_sum_ones (xs : list float) :
  (forall x, x ∈ xs -> x = Float32.one) ->
  (exact_sum xs == inject_Z (Z.of_nat (length xs)))%Q.
Proof.
  induction xs as [| x xs IH]; intros Hall; [reflexivity |].
  unfold exact_sum in *. cbn [fmap list_fmap fold_right length].
  rewrite IH by (intros y Hy; apply Hall, elem_of_cons; auto).
  rewrite (Hall x) by (apply elem_of_cons; auto).
  rewrite value_one, Nat2Z.inj_succ, <- Z.add_1_l, inject_Z_plus. reflexivity.
Qed.
(** ** The boosts of the pixels *)

Lemma scan_boosts_none apixels cols rows ignorebits i :
  i ∈ scan_inputs apixels cols rows ignorebits None -> i.2 = Float32.one.
Proof.
  unfold scan_inputs, scan_pixels. intros Hin.
  apply list_elem_of_fmap in Hin as (pb & -> & Hpb). cbn.
  apply list_elem_of_omap in Hpb as (pos & _ & Hpos).
  unfold pixel_at in Hpos. cbn in Hpos.
  destruct (read apixels pos.1) as [line |]; cbn in Hpos; [| discriminate].
  destruct (read line pos.2) as [p |]; cbn in Hpos; [| discriminate].
  injection Hpos as <-. reflexivity.
Qed.

(** The importance of the pixels is read from the front of the map, one
    element per pixel. *)
Lemma scan_positions_index cols rows :
  0 <= cols -> 0 <= rows ->
  (fun pos : Z * Z => pos.1 * cols + pos.2) <$> scan_positions cols rows
    = seqZ 0 (rows * cols).
Proof.
  intros Hc Hr. unfold scan_positions.
  assert (Hgen : forall (k : nat) r0,
            (fun pos : Z * Z => pos.1 * cols + pos.2)
              <$> mjoin ((fun row => (fun col => (row, col)) <$> seqZ 0 cols)
                           <$> seqZ r0 (Z.of_nat k))
            = seqZ (r0 * cols) (Z.of_nat k * cols)).
  { induction k as [| k IH]; intros r0; [reflexivity |].
    rewrite seqZ_succ. cbn [fmap list_fmap mjoin list_join].
    rewrite fmap_app, IH, <- list_fmap_compose.
    replace (Z.of_nat (S k) * cols) with (cols + Z.of_nat k * cols) by lia.
    rewrite seqZ_app by lia. f_equal.
    - transitivity (Z.add (r0 * cols) <$> seqZ 0 cols).
      + apply list_fmap_ext. intros i c _. reflexivity.
      + rewrite fmap_add_seqZ, Z.add_0_r. reflexivity.
    - f_equal. lia. }
  rewrite (seqZ_to_nat 0 rows), Hgen, Z2Nat.id by lia. reflexivity.
Qed.

Lemma scan_pixels_boosts apixels cols (m : list float) (ps : list (Z * Z)) :
  forallb (fun pos => defined (pixel_at apixels (Some m) cols pos)) ps = true ->
  snd <$> omap (fun pos => outcome_to_option (pixel_at apixels (Some m) cols pos)) ps
    = omap (fun k => boost_of <$> m !! Z.to_nat k)
           ((fun pos : Z * Z => pos.1 * cols + pos.2) <$> ps) /\
  Forall (fun k => is_Some (m !! Z.to_nat k))
         ((fun pos : Z * Z => pos.1 * cols + pos.2) <$> ps).
Proof.
  induction ps as [| pos ps IH]; cbn; [auto |].
  intros Hall. apply andb_prop in Hall as [Hpos Hall].
  destruct (IH Hall) as [IHeq IHall]. unfold pixel_at in *. cbn in *.
  destruct (read m (pos.1 * cols + pos.2)) as [v |] eqn:Hv; cbn in *;
    [| discriminate].
  apply read_Defined in Hv as [_ Hv]. rewrite Hv. cbn.
  destruct (read apixels pos.1) as [line |]; cbn in *; [| discriminate].
  destruct (read line pos.2) as [p |]; cbn in *; [| discriminate].
  split; [f_equal; exact IHeq | constructor; eauto].
Qed.

Lemma omap_take_boosts (m : list float) : forall n : nat,
  Forall (fun k => is_Some (m !! Z.to_nat k)) (seqZ 0 (Z.of_nat n)) ->
  omap (fun k => boost_of <$> m !! Z.to_nat k) (seqZ 0 (Z.of_nat n))
    = boost_of <$> take n m.
Proof.
  induction n as [| n IH]; intros Hall; [reflexivity |].
  rewrite seqZ_S in Hall |- *. apply Forall_app in Hall as [Hall Hn].
  apply Forall_singleton in Hn as [v Hv].
  rewrite omap_app, (IH Hall). cbn. rewrite Z.add_0_l, Nat2Z.id in Hv |- *.
  rewrite Hv. cbn. rewrite (take_S_r _ _ _ Hv), fmap_app. reflexivity.
Qed.

Lemma scan_boosts_some apixels cols rows ignorebits (m : list float) :
  image_wf apixels cols rows (Some m) -> 0 <= cols -> 0 <= rows ->
  snd <$> scan_inputs apixels cols rows ignorebits (Some m)
    = boost_of <$> take (Z.to_nat (rows * cols)) m.
Proof.
  intros Hwf Hc Hr. unfold scan_inputs, scan_pixels.
  rewrite <- list_fmap_compose.
  destruct (scan_pixels_boosts apixels cols m (scan_positions cols rows) Hwf)
    as [Heq Hall].
  change (snd ∘ (fun pb : rgb_pixel * float => (posterize ignorebits pb.1, pb.2)))
    with (@snd rgb_pixel float).
  rewrite Heq. rewrite (scan_positions_index cols rows Hc Hr) in Hall |- *.
  rewrite <- (Z2Nat.id (rows * cols)) in Hall |- * by nia.
  rewrite Nat2Z.id. apply omap_take_boosts. exact Hall.
Qed.
(** ** Images *)

Lemma elem_of_scan_positions cols rows pos :
  pos ∈ scan_positions cols rows <->
  0 <= pos.1 < rows /\ 0 <= pos.2 < cols.
Proof.
  unfold scan_positions. rewrite list_elem_of_join. split.
  - intros (l & Hpos & Hl). apply list_elem_of_fmap in Hl as (row & -> & Hrow).
    apply list_elem_of_fmap in Hpos as (col & -> & Hcol).
    apply elem_of_seqZ in Hrow, Hcol. cbn. lia.
  - intros [Hrow Hcol]. exists ((fun col => (pos.1, col)) <$> seqZ 0 cols). split.
    + apply list_elem_of_fmap. exists pos.2. split; [destruct pos; reflexivity |].
      apply elem_of_seqZ. lia.
    + apply list_elem_of_fmap. exists pos.1. split; [reflexivity |].
      apply elem_of_seqZ. lia.
Qed.

(** An image is well formed when every pixel of the [rows] rows of [cols]
    pixels, and its importance, is in the arrays. *)
Lemma image_wf_intro apixels cols rows imp :
  (forall row col, 0 <= row < rows -> 0 <= col < cols ->
     (exists line p, apixels !! Z.to_nat row = Some line /\
                     line !! Z.to_nat col = Some p) /\
     (forall m, imp = Some m -> is_Some (m !! Z.to_nat (row * cols + col)))) ->
  image_wf apixels cols rows imp.
Proof.
  intros Hall. unfold image_wf. apply forallb_forall. intros pos Hpos.
  apply list_elem_of_In, elem_of_scan_positions in Hpos as [Hrow Hcol].
  destruct (Hall pos.1 pos.2 Hrow Hcol) as [(line & p & Hline & Hp) Himp].
  unfold pixel_at.
  assert (Hb : exists b, match imp with
                         | Some m => v ← read m (pos.1 * cols + pos.2); Defined (boost_of v)
                         | None => Defined Float32.one
                         end = Defined b).
  { destruct imp as [m |]; [| eauto].
    destruct (Himp m eq_refl) as [v Hv].
    rewrite (proj2 (read_Defined m _ v)) by (split; [nia | exact Hv]). cbn. eauto. }
  destruct Hb as [b ->]. cbn.
  rewrite (proj2 (read_Defined apixels _ line)) by (split; [lia | exact Hline]). cbn.
  rewrite (proj2 (read_Defined line _ p)) by (split; [lia | exact Hp]). reflexivity.
Qed.

(** A pixel of the scan is a pixel of the image. *)
Lemma scan_inputs_pixel apixels cols rows ignorebits imp i :
  i ∈ scan_inputs apixels cols rows ignorebits imp ->
  exists line p, line ∈ apixels /\ p ∈ line /\ i.1 = posterize ignorebits p.
Proof.
  unfold scan_inputs, scan_pixels. intros Hin.
  apply list_elem_of_fmap in Hin as (pb & -> & Hpb).
  apply list_elem_of_omap in Hpb as (pos & _ & Hpos).
  unfold pixel_at in Hpos.
  destruct (match imp with Some _ => _ | None => _ end) as [b |];
    cbn in Hpos; [| discriminate].
  destruct (read apixels pos.1) as [line |] eqn:Hline; cbn in Hpos; [| discriminate].
  destruct (read line pos.2) as [p |] eqn:Hp; cbn in Hpos; [| discriminate].
  injection Hpos as <-. exists line, p.
  apply read_Defined in Hline as [_ Hline], Hp as [_ Hp].
  repeat split; eapply list_elem_of_lookup_2; eassumption.
Qed.

Lemma scan_boosts_none_replicate apixels cols rows ignorebits :
  snd <$> scan_inputs apixels cols rows ignorebits None =
    replicate (length (scan_inputs apixels cols rows ignorebits None)) Float32.one.
Proof.
  pose proof (scan_boosts_none apixels cols rows ignorebits) as Hall.
  induction (scan_inputs apixels cols rows ignorebits None) as [| i ins IH];
    [reflexivity |].
  cbn. rewrite (Hall i) by (apply elem_of_cons; auto). f_equal.
  apply IH. intros j Hj. apply Hall, elem_of_cons. auto.
Qed.

(** With no importance map the boosts of a colour are as many [1.0] as it
    has pixels. *)
Lemma boosts_of_color_none apixels cols rows ignorebits c :
  let bs := boosts_of_color c (scan_inputs apixels cols rows ignorebits None) in
  bs = replicate (length bs) Float32.one /\
  (length bs <= length (scan_inputs apixels cols rows ignorebits None))%nat.
Proof.
  cbv zeta. unfold boosts_of_color.
  pose proof (scan_boosts_none apixels cols rows ignorebits) as Hall.
  induction (scan_inputs apixels cols rows ignorebits None) as [| i ins IH];
    [split; reflexivity |].
  destruct IH as [IHeq IHlen]; [intros j Hj; apply Hall, elem_of_cons; auto |].
  rewrite filter_cons. destruct (decide (i.1 = c)); cbn.
  - rewrite (Hall i) by (apply elem_of_cons; auto).
    split; [f_equal; exact IHeq | lia].
  - split; [exact IHeq | lia].
Qed.

Section HistogramOneColor.
Variable to_f : float -> rgb_pixel -> f_pixel.

(** An image of one colour has a histogram of one entry. *)
Lemma histogram_one_color apixels cols rows gamma maxacolors ignorebits imp h c :
image_wf apixels cols rows imp ->
let ins := scan_inputs apixels cols rows ignorebits imp in
ins <> [] -> (forall i, i ∈ ins -> i.1 = c) -> 1 <= maxacolors ->
pam_computeacolorhist to_f apixels cols rows gamma maxacolors ignorebits imp h =
  Defined (Some {| achv :=
                     [Some (hist_entry to_f (Float64.to_float gamma)
                              {| achl_color := c;
                                 achl_perceptual_weight :=
                                   accumulate (snd <$> ins) |})];
                   size := 1 |},
           malloc (malloc h)).
Proof.
intros Hwf ins Hne Hall Hmax.
assert (Hone : distinct_colors (fst <$> ins) = 1).
{ apply (distinct_colors_one c).
  - intros Hnil. apply fmap_nil_inv in Hnil. contradiction.
  - intros x Hx. apply list_elem_of_fmap in Hx as (i & -> & Hi).
    apply Hall. exact Hi. }
destruct (histogram_fits to_f apixels cols rows gamma maxacolors ignorebits
            imp h Hwf) as [hv Hhv]; [fold ins; lia |].
rewrite Hhv. do 3 f_equal.
destruct (histogram_success to_f _ _ _ _ _ _ _ _ _ _ Hhv)
  as (nodes & _ & -> & _ & _ & Hcols' & Hw & Hlen' & _).
fold ins in Hcols', Hw, Hlen'. rewrite Hone in Hlen'.
destruct nodes as [| achl [| achl' nodes]]; cbn in Hlen'; try lia.
cbn. do 4 f_equal.
assert (Hc : achl_color achl = c).
{ assert (Hin : achl_color achl ∈ fst <$> ins)
    by (apply Hcols'; cbn; apply elem_of_cons; auto).
  apply list_elem_of_fmap in Hin as (i & -> & Hi). apply Hall. exact Hi. }
specialize (Hw achl ltac:(apply elem_of_cons; auto)).
rewrite Hc, (boosts_of_color_all c ins Hall) in Hw.
destruct achl as [c' w]. cbn in *. congruence.
Qed.
End HistogramOneColor.

Lemma boosts_of_color_nonempty (c : Z) (ins : list (Z * float)) :
  c ∈ fst <$> ins -> (1 <= length (boosts_of_color c ins))%nat.
Proof.
  intros Hin. apply list_elem_of_fmap in Hin as (i & -> & Hi).
  unfold boosts_of_color. rewrite length_fmap.
  assert (Hf : i ∈ filter (fun j : Z * float => j.1 = i.1) ins)
    by (apply list_elem_of_filter; auto).
  destruct (filter _ ins); [apply elem_of_nil in Hf; contradiction | cbn; lia].
Qed.
(** ** The histogram and the table it is made from *)

Section HistogramTable.
Variable to_f : float -> rgb_pixel -> f_pixel.

(** A histogram that comes back is made from the table that
    [pam_computeacolorhash] returned: one entry per node, in the order of
    the nodes; the nodes are those of the distinct colours of the image,
    with the boosts of their pixels accumulated. *)
Lemma histogram_success_table apixels cols rows gamma maxacolors ignorebits imp
    h hv h' :
  pam_computeacolorhist to_f apixels cols rows gamma maxacolors ignorebits imp h
    = Defined (Some hv, h') ->
  let ins := scan_inputs apixels cols rows ignorebits imp in
  exists t,
    pam_computeacolorhash apixels cols rows gamma maxacolors ignorebits imp h
      = Defined (Some (t, Z.of_nat (length (table_nodes t))), arena_heap h) /\
    hv = {| achv := Some <$> (hist_entry to_f (Float64.to_float gamma)
                                <$> table_nodes t);
            size := Z.of_nat (length (table_nodes t)) |} /\
    NoDup (achl_color <$> table_nodes t) /\
    (forall c, c ∈ achl_color <$> table_nodes t <-> c ∈ fst <$> ins) /\
    (forall achl, achl ∈ table_nodes t ->
       achl_perceptual_weight achl =
         accumulate (boosts_of_color (achl_color achl) ins)).
Proof.
  intros Hcall ins.
  destruct (histogram_success to_f _ _ _ _ _ _ _ _ _ _ Hcall) as (_ & Hwf & _).
  apply (image_wf_reads _ _ _ ignorebits) in Hwf. fold ins in Hwf.
  pose proof (pam_computeacolorhash_sim apixels cols rows gamma maxacolors
                ignorebits imp h) as Hsim.
  rewrite pam_computeacolorhist_eval in Hcall.
  rewrite Hwf in Hsim.
  destruct (hist_scan maxacolors (Defined <$> ins) ∅) as [[m |] |] eqn:Hscan.
  2:{ rewrite Hsim in Hcall. discriminate. }
  2:{ rewrite Hsim in Hcall. discriminate. }
  destruct Hsim as (t & Hhash & Hinv & Hmap & _).
  rewrite Hhash in Hcall.
  assert (Hhv : hv = {| achv := Some <$> (hist_entry to_f (Float64.to_float gamma)
                                            <$> table_nodes t);
                        size := Z.of_nat (length (table_nodes t)) |})
    by congruence.
  exists t. split; [exact Hhash |]. split; [exact Hhv |].
  destruct Hinv as (_ & _ & Hnd).
  destruct (scan_nodes maxacolors ins m (table_nodes t) Hscan Hnd Hmap)
    as (Hcolors & Hweights & _).
  auto.
Qed.
End HistogramTable.
(** ** Integers in binary32 *)

Lemma digits2_pos_size (p : positive) : digits2_pos p = Pos.size p.
Proof. induction p as [p IH | p IH |]; cbn; congruence. Qed.

(** The number of digits of a positive number. *)
Lemma digits2_pos_bounds (p : positive) :
  2 ^ (Zpos (digits2_pos p) - 1) <= Zpos p < 2 ^ Zpos (digits2_pos p).
Proof.
  rewrite digits2_pos_size. split.
  - pose proof (Pos.size_le p) as Hle.
    apply Pos2Z.pos_le_pos in Hle. rewrite Pos2Z.inj_pow in Hle.
    replace (Zpos (Pos.size p)) with (Z.succ (Zpos (Pos.size p) - 1)) in Hle by lia.
    rewrite Z.pow_succ_r in Hle by lia. lia.
  - pose proof (Pos.size_gt p) as Hgt.
    apply Pos2Z.pos_lt_pos in Hgt. rewrite Pos2Z.inj_pow in Hgt. exact Hgt.
Qed.

Lemma digits2_pos_unique (p : positive) (d : Z) :
  2 ^ (d - 1) <= Zpos p < 2 ^ d -> Zpos (digits2_pos p) = d.
Proof.
  intros [Hlo Hhi]. pose proof (digits2_pos_bounds p) as [Hlo' Hhi'].
  assert (Hd : 0 < d).
  { destruct (Z_lt_le_dec 0 d) as [? | Hle]; [assumption |].
    rewrite (Z.pow_neg_r 2 (d - 1)) in Hlo by lia.
    assert (2 ^ d <= 1); [| lia].
    destruct (Z.eq_dec d 0) as [-> | ?]; [cbn; lia |].
    rewrite Z.pow_neg_r by lia. lia. }
  assert (H1 : d - 1 < Zpos (digits2_pos p)).
  { apply (Z.pow_lt_mono_r_iff 2); lia. }
  assert (H2 : Zpos (digits2_pos p) - 1 < d).
  { apply (Z.pow_lt_mono_r_iff 2); lia. }
  lia.
Qed.

Lemma iter_pos_nat {A} (f : A -> A) (p : positive) : forall x,
  SpecFloat.iter_pos f p x = Nat.iter (Pos.to_nat p) f x.
Proof.
  induction p as [p IH | p IH |]; intros x; cbn [SpecFloat.iter_pos].
  - rewrite !IH, Pos2Nat.inj_xI. cbn [Nat.iter].
    rewrite <- Nat.iter_add, Nat.iter_succ_r.
    f_equal. lia.
  - rewrite !IH, Pos2Nat.inj_xO. rewrite <- Nat.iter_add. f_equal. lia.
  - reflexivity.
Qed.

(** Shifting out zeros loses nothing. *)
Lemma shr_exact (k : nat) (q : positive) :
  Nat.iter k shr_1 {| shr_m := Zpos q * 2 ^ Z.of_nat k; shr_r := false; shr_s := false |}
    = {| shr_m := Zpos q; shr_r := false; shr_s := false |}.
Proof.
  induction k as [| k IH]; [cbn; f_equal; lia |].
  rewrite Nat.iter_succ_r, <- IH. f_equal.
  rewrite Nat2Z.inj_succ, Z.pow_succ_r by lia.
  replace (Zpos q * (2 * 2 ^ Z.of_nat k)) with (2 * (Zpos q * 2 ^ Z.of_nat k)) by ring.
  assert (Hpos : 0 < Zpos q * 2 ^ Z.of_nat k) by (apply Z.mul_pos_pos; lia).
  destruct (Zpos q * 2 ^ Z.of_nat k) as [| r | r]; try lia. reflexivity.
Qed.

Lemma shl_align_value (m : positive) (e e' : Z) :
  e' <= e ->
  Zpos (fst (shl_align m e e')) = Zpos m * 2 ^ (e - e').
Proof.
  intros Hle. unfold shl_align.
  destruct (Z.sub e' e) as [| d | d] eqn:Hd; cbn [fst].
  - replace (e - e') with 0 by lia. lia.
  - lia.
  - change (Pos.iter xO m d) with (shift_pos d m).
    rewrite shift_pos_correct, Z.pow_pos_fold.
    replace (e - e') with (Zpos d) by lia. ring.
Qed.

Lemma digits2_pos_quotient (s q : positive) (D : Z) :
  Zpos (digits2_pos s) = D -> 24 <= D ->
  Zpos s = Zpos q * 2 ^ (D - 24) ->
  Zpos (digits2_pos q) = 24.
Proof.
  intros Hd HD Hs.
  apply digits2_pos_unique. pose proof (digits2_pos_bounds s) as Hb.
  rewrite Hd, Hs in Hb.
  assert (H1 : 2 ^ (D - 1) = 2 ^ 23 * 2 ^ (D - 24))
    by (rewrite <- Z.pow_add_r by lia; f_equal; lia).
  assert (H2 : 2 ^ D = 2 ^ 24 * 2 ^ (D - 24))
    by (rewrite <- Z.pow_add_r by lia; f_equal; lia).
  assert (0 < 2 ^ (D - 24)) by (apply Z.pow_pos_nonneg; lia).
  rewrite H1, H2 in Hb. change (24 - 1) with 23. nia.
Qed.


(** Rounding a number that fits in 24 digits once its trailing zeros are
    shifted out gives that number. *)
Lemma normalize_exact (s q : positive) (D : Z) :
  Zpos (digits2_pos s) = D -> 24 <= D <= 48 ->
  Zpos s = Zpos q * 2 ^ (D - 24) ->
  binary_normalize Float32.prec Float32.emax (Zpos s) (-23) false
    = S754_finite false q (D - 47).
Proof.
  intros Hd HD Hs.
  assert (Hq : Zpos (digits2_pos q) = 24)
    by (apply (digits2_pos_quotient s q D); [exact Hd | lia | exact Hs]).
  assert (Hshr : shr_fexp Float32.prec Float32.emax (Zpos s) (-23) loc_Exact
                 = ({| shr_m := Zpos q; shr_r := false; shr_s := false |}, D - 47)).
  { unfold shr_fexp, fexp, emin, Float32.prec, Float32.emax. cbn [Zdigits2].
    rewrite Hd. cbn [shr_record_of_loc].
    replace (Z.max (D + -23 - 24) (3 - 128 - 24) - -23) with (D - 24) by lia.
    unfold shr. destruct (D - 24) as [| p | p] eqn:Hp; try lia.
    - f_equal; [| lia]. f_equal. rewrite Hs. cbn. lia.
    - rewrite iter_pos_nat. f_equal; [| lia].
      rewrite Hs, <- (positive_nat_Z p). apply shr_exact. }
  assert (Hshr2 : shr_fexp Float32.prec Float32.emax (Zpos q) (D - 47) loc_Exact
                  = ({| shr_m := Zpos q; shr_r := false; shr_s := false |}, D - 47)).
  { unfold shr_fexp, fexp, emin, Float32.prec, Float32.emax. cbn [Zdigits2].
    rewrite Hq. cbn [shr_record_of_loc].
    replace (Z.max (24 + (D - 47) - 24) (3 - 128 - 24) - (D - 47)) with 0 by lia.
    reflexivity. }
  unfold binary_normalize, binary_round.
  assert (Halign : shl_align s (-23)
                     (fexp Float32.prec Float32.emax (Zpos (digits2_pos s) + -23))
                   = (s, -23)).
  { unfold shl_align, fexp, emin, Float32.prec, Float32.emax. rewrite Hd.
    destruct (Z.max (D + -23 - 24) (3 - 128 - 24) - -23) eqn:Hx; try reflexivity.
    lia. }
  rewrite Halign. unfold binary_round_aux. rewrite Hshr.
  cbn [shr_m loc_of_shr_record round_nearest_even]. rewrite Hshr2.
  cbn [shr_m]. unfold Float32.prec, Float32.emax.
  destruct (Z.leb_spec (D - 47) (128 - 24)); [reflexivity | lia].
Qed.

Lemma int_float_one : int_float 1 Float32.one.
Proof. exists 8388608%positive, (-23). repeat split; lia. Qed.

(** Adding [1.0] to the float of an integer below [2^24] gives the float of
    the next integer. *)
Lemma int_float_add_one (n : Z) (x : float) :
  int_float n x -> 1 <= n < 2 ^ 24 ->
  int_float (n + 1) (Float32.add x Float32.one).
Proof.
  intros (m & e & -> & Hm & He & Hv) Hn.
  pose proof (digits2_pos_bounds m) as Hmb. rewrite Hm in Hmb.
  change (24 - 1) with 23 in Hmb.
  assert (He0 : e <= 0).
  { destruct (Z_le_gt_dec e 0) as [? | Hgt]; [assumption |].
    replace e with 1 in Hv by lia. change (2 ^ (1 + 23)) with (2 * 2 ^ 23) in Hv.
    lia. }
  unfold Float32.add, Float32.one, SFadd. rewrite Z.min_r by lia.
  cbn [cond_Zopp].
  rewrite (shl_align_value m e (-23)) by lia.
  replace (e - -23) with (e + 23) by lia. rewrite Hv.
  change (Zpos (fst (shl_align 8388608 (-23) (-23)))) with (2 ^ 23).
  destruct (n * 2 ^ 23 + 2 ^ 23) as [| s | s] eqn:Hs; try lia.
  assert (Hsv : Zpos s = (n + 1) * 2 ^ 23) by lia.
  pose proof (digits2_pos_bounds s) as Hsb.
  set (D := Zpos (digits2_pos s)) in *.
  assert (HD : 25 <= D <= 48).
  { split.
    - destruct (Z_lt_le_dec D 25) as [Hlt | ?]; [| assumption].
      assert (2 ^ D <= 2 ^ 24) by (apply Z.pow_le_mono_r; lia). lia.
    - destruct (Z_lt_le_dec 48 D) as [Hlt | ?]; [| assumption].
      assert (2 ^ 48 <= 2 ^ (D - 1)) by (apply Z.pow_le_mono_r; lia). lia. }
  assert (Hq : exists q : positive, Zpos s = Zpos q * 2 ^ (D - 24)).
  { destruct (Z.eq_dec D 48) as [HD48 | Hne].
    - exists 8388608%positive. rewrite HD48 in *. change (48 - 1) with 47 in Hsb.
      change (2 ^ (48 - 24)) with (2 ^ 24). lia.
    - assert (Hpos : 0 < (n + 1) * 2 ^ (47 - D))
        by (apply Z.mul_pos_pos; [lia | apply Z.pow_pos_nonneg; lia]).
      destruct ((n + 1) * 2 ^ (47 - D)) as [| q | q] eqn:Hq; try lia.
      exists q. rewrite <- Hq, Hsv, <- Z.mul_assoc, <- Z.pow_add_r by lia.
      do 2 f_equal. lia. }
  destruct Hq as [q Hq].
  rewrite (normalize_exact s q D eq_refl ltac:(lia) Hq).
  exists q, (D - 47). split; [reflexivity | split; [| split]].
  - apply (digits2_pos_quotient s q D); [reflexivity | lia | exact Hq].
  - lia.
  - replace (D - 47 + 23) with (D - 24) by lia. rewrite <- Hq. exact Hsv.
Qed.

Lemma int_float_value (n : Z) (x : float) :
  int_float n x -> finite x = true /\ (value x == inject_Z n)%Q.
Proof.
  intros (m & e & -> & _ & He & Hv). split; [reflexivity |].
  unfold value. cbn [cond_Zopp].
  assert (Hpow : (Qpower 2 e == inject_Z (2 ^ (e + 23)) / inject_Z (2 ^ 23))%Q).
  { rewrite (Zpower_Qpower 2 (e + 23)) by lia.
    replace e with ((e + 23) + (-23)) at 1 by lia.
    rewrite Qpower_plus by discriminate. reflexivity. }
  rewrite Hpow. unfold Qdiv. rewrite Qmult_assoc, <- inject_Z_mult, Hv.
  rewrite inject_Z_mult. field. discriminate.
Qed.

(** From [2^24] on, adding [1.0] changes nothing. *)
Lemma int_float_saturated (x : float) :
  int_float (2 ^ 24) x ->
  x = S754_finite false 8388608 1 /\ Float32.add x Float32.one = x.
Proof.
  intros (m & e & -> & Hm & He & Hv).
  pose proof (digits2_pos_bounds m) as Hmb. rewrite Hm in Hmb.
  change (24 - 1) with 23 in Hmb.
  assert (He1 : e = 1).
  { destruct (Z.eq_dec e 1) as [? | Hne]; [assumption | exfalso].
    assert (2 ^ (e + 23) <= 2 ^ 23) by (apply Z.pow_le_mono_r; lia).
    assert (0 < 2 ^ (e + 23)) by (apply Z.pow_pos_nonneg; lia).
    change (2 ^ 24 * 2 ^ 23) with (2 ^ 24 * 2 ^ 23) in Hv. nia. }
  subst e. change (2 ^ (1 + 23)) with (2 ^ 24) in Hv.
  assert (Hm23 : m = 8388608%positive) by lia. subst m.
  split; reflexivity.
Qed.

(** The weight of a colour of [n] pixels, with no importance map. *)
Lemma fold_add_ones (k : nat) : forall (a : Z) (x : float),
  int_float a x -> 1 <= a -> a + Z.of_nat k <= 2 ^ 24 ->
  int_float (a + Z.of_nat k) (fold_left Float32.add (replicate k Float32.one) x).
Proof.
  induction k as [| k IH]; intros a x Hx Ha Hk.
  - rewrite Z.add_0_r. exact Hx.
  - cbn [replicate fold_left].
    replace (a + Z.of_nat (S k)) with ((a + 1) + Z.of_nat k) by lia.
    apply IH; [apply int_float_add_one; [exact Hx | lia] | lia | lia].
Qed.

Lemma accumulate_ones (n : nat) :
  1 <= Z.of_nat n <= 2 ^ 24 ->
  int_float (Z.of_nat n) (accumulate (replicate n Float32.one)).
Proof.
  intros Hn. destruct n as [| k]; [lia |]. cbn [replicate accumulate].
  replace (Z.of_nat (S k)) with (1 + Z.of_nat k) by lia.
  apply fold_add_ones; [apply int_float_one | lia | lia].
Qed.

Lemma fold_add_ones_saturated (k : nat) (x : float) :
  Float32.add x Float32.one = x ->
  fold_left Float32.add (replicate k Float32.one) x = x.
Proof.
  intros Hx. induction k as [| k IH]; [reflexivity |].
  cbn [replicate fold_left]. rewrite Hx. exact IH.
Qed.

(** Up to [2^24] pixels the weight is their number; beyond, it stays at
    [2^24]. *)
Lemma accumulate_ones_exact (n : nat) :
  1 <= Z.of_nat n <= 2 ^ 24 -> exact_accumulation (replicate n Float32.one).
Proof.
  intros Hn. destruct (int_float_value _ _ (accumulate_ones n Hn)) as [Hfin Hval].
  split; [exact Hfin |]. rewrite Hval.
  rewrite (exact_sum_ones (replicate n Float32.one)), length_replicate;
    [reflexivity |].
  intros x Hx. apply elem_of_replicate in Hx as [-> _]. reflexivity.
Qed.

Lemma accumulate_ones_saturated (k : nat) :
  accumulate (replicate (Z.to_nat (2 ^ 24) + k) Float32.one)
    = S754_finite false 8388608 1.
Proof.
  pose proof (accumulate_ones (Z.to_nat (2 ^ 24))) as Hint.
  rewrite Z2Nat.id in Hint by lia. specialize (Hint ltac:(lia)).
  destruct (int_float_saturated _ Hint) as [Hx Hsat].
  assert (Hsplit : accumulate (replicate (Z.to_nat (2 ^ 24) + k) Float32.one) =
                   fold_left Float32.add (replicate k Float32.one)
                     (accumulate (replicate (Z.to_nat (2 ^ 24)) Float32.one))).
  { assert (Hpos : (Z.to_nat (2 ^ 24) = S (Nat.pred (Z.to_nat (2 ^ 24))))%nat) by lia.
    revert Hpos. generalize (Nat.pred (Z.to_nat (2 ^ 24))).
    generalize (Z.to_nat (2 ^ 24)). intros n n' ->.
    cbn [Nat.add replicate accumulate]. rewrite replicate_add, fold_left_app.
    reflexivity. }
  rewrite Hsplit, (fold_add_ones_saturated k _ Hsat). exact Hx.
Qed.
(** ** The sample values are binary32 numbers *)

(** Every constant of [Sample] that the examples below feed to the code is
    a valid binary32 value: its mantissa and exponent are in canonical
    form, so the operations of [Float32] round it as the hardware does. *)
Lemma sample_floats_valid :
  forallb Float32.valid
    ([Sample.zero; Sample.pow2 0; Sample.pow2 (-1); Sample.below_half;
      Sample.above_half (-8); Sample.above_half (-10); Sample.above_half (-12);
      Float32.one; Float32.f1024; Float32.div Float32.one Float32.f1024]
       ++ Sample.importance13) = true.
Proof. vm_compute. reflexivity. Qed.

(** * The claims about best_color_index *)

(** C1, as the code has it. A candidate at index [i] replaces the current
    best exactly when [replaces] holds: its distance is strictly smaller,
    and the query is not opaque-biased ([px.a > min_opaque_val] fails), or
    the candidate's alpha is not below 1, or [newdist + 1/1024 > dist]
    fails in binary32, which an improvement of exactly [1/1024] does. For a
    palette of two entries, the query opaque-biased and entry 1 of alpha
    below 1, the result is index 1 when entry 1 is strictly nearer and
    [d1 + 1/1024 > d0] fails, and index 0 otherwise. *)
Theorem replacement_test (colordifference : f_pixel -> f_pixel -> float)
    (px : f_pixel) (min_opaque_val : float) :
  (forall acolormap i st c,
     read acolormap i = Defined c ->
     scan_step colordifference px acolormap
       (Float32.gt (f_a px) min_opaque_val) i st =
       Defined (if replaces px min_opaque_val (acolor c) (dist st)
                     (colordifference px (acolor c))
                then {| ind := i; dist := colordifference px (acolor c) |}
                else st)) /\
  (forall e0 e1 dist_out (mem : gmap Z float),
     Float32.gt (f_a px) min_opaque_val = true ->
     Float32.lt (f_a (acolor e1)) Float32.one = true ->
     let d0 := colordifference px (acolor e0) in
     let d1 := colordifference px (acolor e1) in
     exists mem',
       best_color_index colordifference px {| palette := [e0; e1]; colors := 2 |}
         min_opaque_val dist_out mem =
         Defined (if Float32.lt d1 d0
                     && negb (Float32.gt
                                (Float32.add d1 (Float32.div Float32.one Float32.f1024))
                                d0)
                  then 1 else 0, mem')).
Proof.
  split.
  - intros acolormap i st c Hc.
    rewrite (scan_step_Defined _ _ _ _ _ _ _ Hc). f_equal. unfold replaces.
    destruct (Float32.lt (colordifference px (acolor c)) (dist st)); [| reflexivity].
    destruct (Float32.gt (f_a px) min_opaque_val); [| reflexivity].
    destruct (Float32.lt (f_a (acolor c)) Float32.one); [| reflexivity].
    destruct (Float32.gt _ (dist st)); reflexivity.
  - intros e0 e1 dist_out mem Hbias Halpha d0 d1.
    unfold best_color_index. cbn [palette colors].
    change (read [e0; e1] 0) with (Defined e0).
    change (seqZ 1 (2 - 1)) with [1]. cbn -[scan_step].
    rewrite (scan_step_Defined colordifference px [e0; e1] _ 1 _ e1 eq_refl).
    cbn. rewrite Hbias, Halpha. cbn. fold d0 d1.
    destruct (Float32.lt d1 d0); cbn; [| eauto].
    destruct (Float32.gt _ d0); cbn; eauto.
Qed.

Lemma replacement_test_witness :
  scan_step Sample.colordifference Sample.query
    (palette (Sample.palette2 (Sample.above_half (-10)) Sample.zero))
    (Float32.gt (f_a Sample.query) (Sample.pow2 (-1))) 1
    {| ind := 0;
       dist := Sample.colordifference Sample.query
                 (acolor (Sample.entry0 (Sample.above_half (-10)))) |} =
    Defined {| ind := 1;
               dist := Sample.colordifference Sample.query
                         (acolor (Sample.entry1 Sample.zero)) |} /\
  (exists mem',
     best_color_index Sample.colordifference Sample.query
       (Sample.palette2 (Sample.above_half (-12)) Sample.zero)
       (Sample.pow2 (-1)) None ∅ = Defined (0, mem')) /\
  (exists mem',
     best_color_index Sample.colordifference Sample.query
       (Sample.palette2 (Sample.above_half (-8)) Sample.zero)
       (Sample.pow2 (-1)) None ∅ = Defined (1, mem')).
Proof.
  destruct (replacement_test Sample.colordifference Sample.query (Sample.pow2 (-1)))
    as [Hstep Htwo].
  split; [| split].
  - rewrite (Hstep (palette (Sample.palette2 (Sample.above_half (-10)) Sample.zero))
               1 _ (Sample.entry1 Sample.zero) eq_refl).
    reflexivity.
  - exact (Htwo (Sample.entry0 (Sample.above_half (-12))) (Sample.entry1 Sample.zero)
             None ∅ eq_refl eq_refl).
  - exact (Htwo (Sample.entry0 (Sample.above_half (-8))) (Sample.entry1 Sample.zero)
             None ∅ eq_refl eq_refl).
Defined.

(** C1 as the specification states it fails at the boundary and to
    rounding. The query is opaque-biased, and entry 1 has alpha one half.

    Entry 1 nearer by exactly [1/1024] (distances [0.5 + 2^-10] and [0.5]):
    the improvement does not exceed [1/1024], and the code replaces entry 0
    and returns index 1.

    Entry 1 nearer by [2^-10 - 2^-24], less than [1/1024] (distances [1]
    and [1 - 2^-10 + 2^-24]): [newdist + 1/1024] is [1 + 2^-24], which
    binary32 rounds to [1], not greater than [dist]; the code returns
    index 1, not 0. *)
Lemma replacement_boundary_counterexample :
  (let d0 := Sample.colordifference Sample.query
               (acolor (Sample.entry0 (Sample.above_half (-10)))) in
   let d1 := Sample.colordifference Sample.query (acolor (Sample.entry1 Sample.zero)) in
   (value d0 - value d1 == 1 # 1024)%Q /\
   Float32.sub d0 d1 = Float32.div Float32.one Float32.f1024 /\
   spec_replaces Sample.query (Sample.pow2 (-1)) (acolor (Sample.entry1 Sample.zero))
     d0 d1 = false /\
   scan_step Sample.colordifference Sample.query
     (palette (Sample.palette2 (Sample.above_half (-10)) Sample.zero))
     (Float32.gt (f_a Sample.query) (Sample.pow2 (-1))) 1 {| ind := 0; dist := d0 |}
     = Defined {| ind := 1; dist := d1 |} /\
   best_color_index Sample.colordifference Sample.query
     (Sample.palette2 (Sample.above_half (-10)) Sample.zero)
     (Sample.pow2 (-1)) None ∅ = Defined (1, ∅)) /\
  (let d0 := Sample.colordifference Sample.query
               (acolor (Sample.entry0 (Sample.pow2 0))) in
   let d1 := Sample.colordifference Sample.query
               (acolor (Sample.entry1 Sample.below_half)) in
   (value d0 - value d1 == (1 # 1024) - (1 # 16777216))%Q /\
   spec_replaces Sample.query (Sample.pow2 (-1))
     (acolor (Sample.entry1 Sample.below_half)) d0 d1 = false /\
   best_color_index Sample.colordifference Sample.query
     (Sample.palette2 (Sample.pow2 0) Sample.below_half)
     (Sample.pow2 (-1)) None ∅ = Defined (1, ∅)).
Proof.
  cbv zeta. repeat split; vm_compute; reflexivity.
Qed.

(** C6. For a palette of at least one entry the index returned is in
    [0, colors); for a palette of one entry it is 0, whatever the query. *)
Theorem best_color_index_in_range (colordifference : f_pixel -> f_pixel -> float)
    (px : f_pixel) (map : colormap) (min_opaque_val : float)
    (dist_out : option Z) (mem : gmap Z float) :
  colormap_wf map -> 0 < colors map ->
  exists i mem',
    best_color_index colordifference px map min_opaque_val dist_out mem =
      Defined (i, mem') /\
    0 <= i < colors map /\
    (colors map = 1 -> i = 0).
Proof.
  intros Hwf Hpos.
  destruct (best_color_index_Defined colordifference px map min_opaque_val
              dist_out mem Hwf Hpos) as (st & c & Hc & _ & Heq).
  exists (ind st). eexists. split; [exact Heq |].
  apply read_Defined in Hc as [Hge Hlk]. apply lookup_lt_Some in Hlk.
  unfold colormap_wf in Hwf. split; [lia |].
  intros Hone. revert Heq. unfold best_color_index. rewrite Hone.
  change (seqZ 1 (1 - 1)) with (@nil Z).
  destruct (read (palette map) 0) as [c0 |]; cbn; [| discriminate].
  intros Heq. injection Heq as Hi _. symmetry. exact Hi.
Qed.

Lemma best_color_index_in_range_witness :
  exists i mem',
    best_color_index Sample.colordifference Sample.query (Sample.palette2 (Sample.above_half (-10)) Sample.zero)
      (Sample.pow2 (-1)) None ∅ = Defined (i, mem') /\
    0 <= i < 2 /\ (2 = 1 -> i = 0).
Proof.
  apply (best_color_index_in_range Sample.colordifference Sample.query
           (Sample.palette2 (Sample.above_half (-10)) Sample.zero) (Sample.pow2 (-1)) None ∅).
  - reflexivity.
  - reflexivity.
Defined.

(** C7 as the specification states it fails: a palette of no entries is not
    rejected; the call reads entry 0, outside the array. *)
Lemma empty_palette_counterexample :
  colormap_wf (pam_colormap 0) /\
  palette (pam_colormap 0) = [] /\
  best_color_index Sample.colordifference Sample.query (pam_colormap 0)
    (Sample.pow2 (-1)) None ∅ = OutOfBounds.
Proof. repeat split. Qed.

(** C7, as the code has it. On a palette of at least one entry the call
    returns. On an array of no entries it does not test anything before the
    scan: it reads entry 0, outside the array, whatever [colors] says. *)
Theorem best_color_index_total (colordifference : f_pixel -> f_pixel -> float)
    (px : f_pixel) (map : colormap) (min_opaque_val : float)
    (dist_out : option Z) (mem : gmap Z float) :
  (colormap_wf map -> 0 < colors map ->
   exists r, best_color_index colordifference px map min_opaque_val dist_out mem
             = Defined r) /\
  (palette map = [] ->
   best_color_index colordifference px map min_opaque_val dist_out mem
   = OutOfBounds).
Proof.
  split.
  - intros Hwf Hpos.
    destruct (best_color_index_Defined colordifference px map min_opaque_val
                dist_out mem Hwf Hpos) as (st & c & _ & _ & Heq).
    eexists. exact Heq.
  - intros Hnil. unfold best_color_index. rewrite Hnil, read_nil. reflexivity.
Qed.

Lemma best_color_index_total_witness :
  (exists r, best_color_index Sample.colordifference Sample.query
               (Sample.palette2 (Sample.above_half (-10)) Sample.zero) (Sample.pow2 (-1)) None ∅ = Defined r) /\
  best_color_index Sample.colordifference Sample.query (pam_colormap 0)
    (Sample.pow2 (-1)) None ∅ = OutOfBounds.
Proof.
  split.
  - apply (best_color_index_total Sample.colordifference Sample.query
             (Sample.palette2 (Sample.above_half (-10)) Sample.zero) (Sample.pow2 (-1)) None ∅); reflexivity.
  - apply (best_color_index_total Sample.colordifference Sample.query
             (pam_colormap 0) (Sample.pow2 (-1)) None ∅); reflexivity.
Defined.

(** C10. On a palette of at least one entry, a [dist_out] that is not null
    receives the distance between the query and the entry at the index
    returned, and nothing else is written; with a null [dist_out] the
    memory is as it was. *)
Theorem best_color_index_dist_out (colordifference : f_pixel -> f_pixel -> float)
    (px : f_pixel) (map : colormap) (min_opaque_val : float)
    (dist_out : option Z) (mem : gmap Z float) :
  colormap_wf map -> 0 < colors map ->
  exists i c,
    read (palette map) i = Defined c /\
    best_color_index colordifference px map min_opaque_val dist_out mem =
      Defined (i, match dist_out with
                  | Some p => <[p := colordifference px (acolor c)]> mem
                  | None => mem
                  end).
Proof.
  intros Hwf Hpos.
  destruct (best_color_index_Defined colordifference px map min_opaque_val
              dist_out mem Hwf Hpos) as (st & c & Hc & Hd & Heq).
  exists (ind st), c. split; [exact Hc |]. rewrite <- Hd. exact Heq.
Qed.

Lemma best_color_index_dist_out_witness :
  exists i c,
    read (palette (Sample.palette2 (Sample.above_half (-10)) Sample.zero)) i = Defined c /\
    best_color_index Sample.colordifference Sample.query (Sample.palette2 (Sample.above_half (-10)) Sample.zero)
      (Sample.pow2 (-1)) (Some 7) ∅ =
      Defined (i, <[7 := Sample.colordifference Sample.query (acolor c)]> ∅).
Proof.
  apply (best_color_index_dist_out Sample.colordifference Sample.query
           (Sample.palette2 (Sample.above_half (-10)) Sample.zero) (Sample.pow2 (-1)) (Some 7) ∅); reflexivity.
Defined.
(** * The claims about pam_computeacolorhist *)

(** C2. For a cap [maxacolors >= 0], on an image (every pixel of the [rows]
    rows of [cols] pixels readable): the call returns Overflow exactly when
    the image has more distinct posterized colours than [maxacolors]. On
    Overflow the heap is as at the call: the arena is released and no block
    allocated. Otherwise the histogram comes back whole: every cell
    written, [size] cells, one per distinct colour, the arena released and
    the two blocks of the histogram live. The scan stops at the first
    colour too many: when the reads up to a pixel succeed and show more
    than [maxacolors] colours, the call returns Overflow whatever comes
    after, a pixel outside the arrays included. *)
Theorem histogram_overflow (to_f : float -> rgb_pixel -> f_pixel)
    (apixels : list (list rgb_pixel)) (cols rows : Z) (gamma : float)
    (maxacolors ignorebits : Z) (importance_map : option (list float)) (h : heap) :
  0 <= maxacolors ->
  let ins := scan_inputs apixels cols rows ignorebits importance_map in
  let result := pam_computeacolorhist to_f apixels cols rows gamma maxacolors
                  ignorebits importance_map h in
  (image_wf apixels cols rows importance_map ->
     (result = Defined (None, h) <-> maxacolors < distinct_colors (fst <$> ins)) /\
     (result = Defined (None, h) \/
      exists hv,
        result = Defined (Some hv, malloc (malloc h)) /\
        Forall is_Some (achv hv) /\
        size hv = Z.of_nat (length (achv hv)) /\
        size hv = distinct_colors (fst <$> ins) /\
        size hv <= maxacolors)) /\
  (forall pre rest,
     scan_reads apixels cols rows ignorebits importance_map
       = (Defined <$> pre) ++ rest ->
     maxacolors < distinct_colors (fst <$> pre) ->
     result = Defined (None, h)) /\
  (forall h', result = Defined (None, h') -> h' = h).
Proof.
  intros Hmax ins result. split; [| split].
  - intros Hwf.
    pose proof (histogram_result to_f apixels cols rows gamma maxacolors ignorebits
                  importance_map h Hwf) as Hres.
    cbv zeta in Hres. fold ins result in Hres.
    assert (Hpos : maxacolors < distinct_colors (fst <$> ins) -> ins <> []).
    { intros Hgt Hnil. rewrite Hnil in Hgt. unfold distinct_colors in Hgt.
      cbn in Hgt. lia. }
    destruct (decide (ins <> [] /\ maxacolors < distinct_colors (fst <$> ins)))
      as [Hyes | Hno].
    + split; [tauto | left; exact Hres].
    + destruct Hres as [hv Hhv]. split.
      * rewrite Hhv. split; [discriminate |]. intros Hgt. exfalso. tauto.
      * right. exists hv. split; [exact Hhv |].
        destruct (histogram_success to_f _ _ _ _ _ _ _ _ _ _ Hhv)
          as (nodes & _ & -> & _ & _ & _ & _ & Hlen & _).
        cbn. fold ins in Hlen. rewrite !length_fmap.
        split; [| split; [reflexivity | split; [exact Hlen |]]].
        -- apply Forall_fmap, Forall_forall. intros x _. cbn. eauto.
        -- rewrite Hlen.
           destruct (Z.le_gt_cases (distinct_colors (fst <$> ins)) maxacolors)
             as [Hle | Hgt]; [exact Hle |].
           exfalso. apply Hno. split; [apply Hpos; lia | lia].
  - intros pre rest Hreads Hgt.
    assert (Hne : pre <> []).
    { intros Hnil. rewrite Hnil in Hgt. unfold distinct_colors in Hgt.
      cbn in Hgt. lia. }
    exact (histogram_abort to_f apixels cols rows gamma maxacolors ignorebits
             importance_map h pre rest Hreads Hne Hgt).
  - intros h' Hnone.
    pose proof (pam_computeacolorhist_sim to_f apixels cols rows gamma maxacolors
                  ignorebits importance_map h) as Hsim.
    fold result in Hsim.
    destruct (hist_scan maxacolors _ ∅) as [[m |] |].
    + destruct Hsim as (nodes & Hres & _). rewrite Hres in Hnone. discriminate.
    + rewrite Hsim in Hnone. congruence.
    + rewrite Hsim in Hnone. discriminate.
Qed.

Lemma histogram_overflow_witness :
  pam_computeacolorhist Sample.to_f Sample.image22 2 2 Sample.gamma 2 0 None
    Sample.heap0 = Defined (None, Sample.heap0) /\
  pam_computeacolorhist Sample.to_f
    [[Sample.rgba 1 2 3 255; Sample.rgba 4 5 6 255]; [Sample.rgba 9 9 9 9]]
    2 2 Sample.gamma 2 0 None Sample.heap0 = Defined (None, Sample.heap0).
Proof.
  split.
  - destruct (histogram_overflow Sample.to_f Sample.image22 2 2 Sample.gamma 2 0
                None Sample.heap0) as [Himage _]; [lia |].
    destruct (Himage eq_refl) as [Hiff _].
    apply Hiff. reflexivity.
  - destruct (histogram_overflow Sample.to_f
                [[Sample.rgba 1 2 3 255; Sample.rgba 4 5 6 255]; [Sample.rgba 9 9 9 9]]
                2 2 Sample.gamma 2 0 None Sample.heap0) as (_ & Habort & _); [lia |].
    apply (Habort [(4278387201, Float32.one); (4278584580, Float32.one);
                   (151587081, Float32.one)]
                  [OutOfBounds]).
    + reflexivity.
    + reflexivity.
Defined.

(** C4. The entries of a histogram that comes back are the nodes of the
    table, one entry per node, and no two nodes have one posterized colour:
    the colours of the nodes are the distinct posterized colours of the
    pixels. *)
Theorem histogram_distinct (to_f : float -> rgb_pixel -> f_pixel)
    (apixels : list (list rgb_pixel)) (cols rows : Z) (gamma : float)
    (maxacolors ignorebits : Z) (importance_map : option (list float))
    (h h' : heap) (hv : hist) :
  pam_computeacolorhist to_f apixels cols rows gamma maxacolors ignorebits
    importance_map h = Defined (Some hv, h') ->
  exists nodes,
    hist_entries hv = hist_entry to_f (Float64.to_float gamma) <$> nodes /\
    NoDup (achl_color <$> nodes) /\
    (forall c, c ∈ achl_color <$> nodes <->
               c ∈ fst <$> scan_inputs apixels cols rows ignorebits importance_map).
Proof.
  intros Hres.
  destruct (histogram_success to_f _ _ _ _ _ _ _ _ _ _ Hres)
    as (nodes & _ & -> & _ & Hnd & Hcols & _).
  exists nodes. rewrite hist_entries_fmap. auto.
Qed.

Lemma histogram_distinct_witness :
  exists hv nodes,
    pam_computeacolorhist Sample.to_f Sample.image22 2 2 Sample.gamma 10 0 None
      Sample.heap0 = Defined (Some hv, malloc (malloc Sample.heap0)) /\
    hist_entries hv = hist_entry Sample.to_f (Float64.to_float Sample.gamma) <$> nodes /\
    NoDup (achl_color <$> nodes).
Proof.
  destruct (histogram_fits Sample.to_f Sample.image22 2 2 Sample.gamma 10 0 None
              Sample.heap0 eq_refl) as [hv Hhv].
  { vm_compute. discriminate. }
  destruct (histogram_distinct _ _ _ _ _ _ _ _ _ _ _ Hhv) as (nodes & He & Hnd & _).
  exists hv, nodes. auto.
Defined.

(** C8. A histogram that comes back is written from the table that
    [pam_computeacolorhash] returned, one cell per node and in the order of
    the nodes. The nodes are those of the distinct posterized colours of
    the image, one node per colour, and the weight of a node is the boosts
    of the pixels of its colour, accumulated. The cell of a node holds the
    conversion of the colour of the node and, as [perceptual_weight] and as
    [adjusted_weight], the weight of the node: nothing wrote either again. *)
Theorem histogram_adjusted_weight (to_f : float -> rgb_pixel -> f_pixel)
    (apixels : list (list rgb_pixel)) (cols rows : Z) (gamma : float)
    (maxacolors ignorebits : Z) (importance_map : option (list float))
    (h h' : heap) (hv : hist) :
  pam_computeacolorhist to_f apixels cols rows gamma maxacolors ignorebits
    importance_map h = Defined (Some hv, h') ->
  let ins := scan_inputs apixels cols rows ignorebits importance_map in
  exists t n h1,
    pam_computeacolorhash apixels cols rows gamma maxacolors ignorebits
      importance_map h = Defined (Some (t, n), h1) /\
    NoDup (achl_color <$> table_nodes t) /\
    (forall c, c ∈ achl_color <$> table_nodes t <-> c ∈ fst <$> ins) /\
    (forall achl, achl ∈ table_nodes t ->
       achl_perceptual_weight achl =
         accumulate (boosts_of_color (achl_color achl) ins)) /\
    length (achv hv) = length (table_nodes t) /\
    (forall (j : nat) achl, table_nodes t !! j = Some achl ->
       exists e,
         achv hv !! j = Some (Some e) /\
         hist_acolor e =
           to_f (Float64.to_float gamma) (rgb_as_long_rgb (achl_color achl)) /\
         perceptual_weight e = achl_perceptual_weight achl /\
         adjusted_weight e = achl_perceptual_weight achl /\
         adjusted_weight e = perceptual_weight e /\
         perceptual_weight e =
           accumulate (boosts_of_color (achl_color achl) ins)) /\
    (forall e, e ∈ hist_entries hv -> adjusted_weight e = perceptual_weight e).
Proof.
  intros Hres ins.
  destruct (histogram_success_table to_f _ _ _ _ _ _ _ _ _ _ Hres)
    as (t & Hhash & -> & Hnd & Hcolors & Hw).
  fold ins in Hcolors, Hw.
  exists t, (Z.of_nat (length (table_nodes t))), (arena_heap h).
  split; [exact Hhash |]. split; [exact Hnd |]. split; [exact Hcolors |].
  split; [exact Hw |]. cbn [achv].
  split; [rewrite !length_fmap; reflexivity | split].
  - intros j achl Hj. exists (hist_entry to_f (Float64.to_float gamma) achl).
    rewrite !list_lookup_fmap, Hj.
    cbn [fmap option_fmap option_map hist_entry hist_acolor perceptual_weight
         adjusted_weight].
    repeat split.
    apply Hw. eapply list_elem_of_lookup_2. exact Hj.
  - rewrite hist_entries_fmap. intros e He.
    apply list_elem_of_fmap in He as (achl & -> & _). reflexivity.
Qed.

Lemma histogram_adjusted_weight_witness :
  exists hv t n h1,
    pam_computeacolorhist Sample.to_f Sample.image22 2 2 Sample.gamma 10 0 None
      Sample.heap0 = Defined (Some hv, malloc (malloc Sample.heap0)) /\
    pam_computeacolorhash Sample.image22 2 2 Sample.gamma 10 0 None Sample.heap0
      = Defined (Some (t, n), h1) /\
    length (achv hv) = length (table_nodes t) /\
    (forall e, e ∈ hist_entries hv -> adjusted_weight e = perceptual_weight e).
Proof.
  destruct (histogram_fits Sample.to_f Sample.image22 2 2 Sample.gamma 10 0 None
              Sample.heap0 eq_refl) as [hv Hhv].
  { vm_compute. discriminate. }
  destruct (histogram_adjusted_weight _ _ _ _ _ _ _ _ _ _ _ Hhv)
    as (t & n & h1 & Hhash & _ & _ & _ & Hlen & _ & He).
  exists hv, t, n, h1. auto.
Defined.

(** C5. With more bits ignored an image has no more distinct posterized
    colours: for [0 <= ignorebits1 <= ignorebits2 <= 31], the counts for
    which C defines the shifts of the mask, the count of colours for
    [ignorebits2] is at most the count for [ignorebits1]. So the histogram
    for [ignorebits2] has no more entries than the one for [ignorebits1],
    and where the call succeeds for [ignorebits1] it succeeds for
    [ignorebits2]. *)
Theorem posterization_monotone (to_f : float -> rgb_pixel -> f_pixel)
    (apixels : list (list rgb_pixel)) (cols rows : Z) (gamma : float)
    (importance_map : option (list float)) (h : heap)
    (ignorebits1 ignorebits2 : Z) :
  0 <= ignorebits1 -> ignorebits1 <= ignorebits2 -> ignorebits2 <= 31 ->
  distinct_colors (fst <$> scan_inputs apixels cols rows ignorebits2 importance_map)
    <= distinct_colors (fst <$> scan_inputs apixels cols rows ignorebits1 importance_map) /\
  (forall maxacolors1 maxacolors2 hv1 hv2 h1 h2,
     pam_computeacolorhist to_f apixels cols rows gamma maxacolors1 ignorebits1
       importance_map h = Defined (Some hv1, h1) ->
     pam_computeacolorhist to_f apixels cols rows gamma maxacolors2 ignorebits2
       importance_map h = Defined (Some hv2, h2) ->
     size hv2 <= size hv1 /\
     (length (hist_entries hv2) <= length (hist_entries hv1))%nat) /\
  (forall maxacolors hv1 h1,
     pam_computeacolorhist to_f apixels cols rows gamma maxacolors ignorebits1
       importance_map h = Defined (Some hv1, h1) ->
     exists hv2,
       pam_computeacolorhist to_f apixels cols rows gamma maxacolors ignorebits2
         importance_map h = Defined (Some hv2, h1)).
Proof.
  intros Hlow Hle Hhigh.
  assert (Hmono :
    distinct_colors (fst <$> scan_inputs apixels cols rows ignorebits2 importance_map)
    <= distinct_colors (fst <$> scan_inputs apixels cols rows ignorebits1 importance_map)).
  { rewrite (scan_inputs_coarser _ _ _ _ _ _ Hlow Hle Hhigh).
    apply distinct_colors_fmap_le. }
  split; [exact Hmono | split].
  - intros maxacolors1 maxacolors2 hv1 hv2 h1 h2 Hres1 Hres2.
    destruct (histogram_success to_f _ _ _ _ _ _ _ _ _ _ Hres1)
      as (nodes1 & _ & -> & _ & _ & _ & _ & Hlen1 & _).
    destruct (histogram_success to_f _ _ _ _ _ _ _ _ _ _ Hres2)
      as (nodes2 & _ & -> & _ & _ & _ & _ & Hlen2 & _).
    rewrite !hist_entries_fmap, !length_fmap. cbn. lia.
  - intros maxacolors hv1 h1 Hres1.
    destruct (histogram_success to_f _ _ _ _ _ _ _ _ _ _ Hres1)
      as (nodes1 & Hwf & _ & -> & _ & _ & _ & _ & Hfit).
    pose proof (histogram_result to_f apixels cols rows gamma maxacolors ignorebits2
                  importance_map h Hwf) as Hres2.
    cbv zeta in Hres2. rewrite decide_False in Hres2; [exact Hres2 |].
    intros [Hne Hgt]. destruct Hfit as [Hnil | Hfit]; [| lia].
    apply Hne. eapply scan_inputs_nil. exact Hnil.
Qed.

Lemma posterization_monotone_witness :
  distinct_colors (fst <$> scan_inputs Sample.image22 2 2 3 None)
    <= distinct_colors (fst <$> scan_inputs Sample.image22 2 2 0 None) /\
  distinct_colors (fst <$> scan_inputs Sample.image22 2 2 0 None) = 3 /\
  distinct_colors (fst <$> scan_inputs Sample.image22 2 2 3 None) = 2.
Proof.
  split; [| split; reflexivity].
  apply (posterization_monotone Sample.to_f Sample.image22 2 2 Sample.gamma None
           Sample.heap0 0 3); lia.
Defined.

(** C9 as the specification states it fails from [ignorebits = 32] on: C
    defines the shifts of the mask for the counts 0..31 only, and a count
    of 32 shifts by 0. The mask of a channel is then 255, not zero, no bit
    is ignored, and the image of three colours overflows a cap of 1. *)
Lemma posterize_shift_count_counterexample :
  8 <= 32 /\
  channel_mask 32 = 255 /\
  posterize_mask 32 = 4294967295 /\
  posterize 32 (Sample.rgba 1 2 3 255) = 4278387201 /\
  image_wf Sample.image22 2 2 None /\
  distinct_colors (fst <$> scan_inputs Sample.image22 2 2 32 None) = 3 /\
  pam_computeacolorhist Sample.to_f Sample.image22 2 2 Sample.gamma 1 32 None
    Sample.heap0 = Defined (None, Sample.heap0).
Proof.
  split; [lia |]. split; [reflexivity |]. split; [reflexivity |].
  split; [reflexivity |]. split; [reflexivity |]. split; [reflexivity |].
  rewrite pam_computeacolorhist_eval. vm_compute. reflexivity.
Qed.

(** C9, as the code has it. For [8 <= ignorebits <= 31] the mask of every
    channel is zero and every pixel posterizes to the packed colour 0. So
    on an image of at least one pixel, with [maxacolors >= 1], the call
    returns a histogram of one entry, for the colour 0, whose weight is the
    boosts of all the pixels, added in scan order. *)
Theorem posterize_to_one_color (to_f : float -> rgb_pixel -> f_pixel)
    (apixels : list (list rgb_pixel)) (cols rows : Z) (gamma : float)
    (maxacolors ignorebits : Z) (importance_map : option (list float)) (h : heap) :
  8 <= ignorebits <= 31 ->
  channel_mask ignorebits = 0 /\
  posterize_mask ignorebits = 0 /\
  (forall p, posterize ignorebits p = 0) /\
  (image_wf apixels cols rows importance_map ->
   0 < cols -> 0 < rows -> 1 <= maxacolors ->
   let ins := scan_inputs apixels cols rows ignorebits importance_map in
   pam_computeacolorhist to_f apixels cols rows gamma maxacolors ignorebits
     importance_map h =
     Defined (Some {| achv :=
                        [Some (hist_entry to_f (Float64.to_float gamma)
                                 {| achl_color := 0;
                                    achl_perceptual_weight :=
                                      accumulate (snd <$> ins) |})];
                      size := 1 |},
              malloc (malloc h))).
Proof.
  intros Hge. split; [| split; [| split]].
  - rewrite channel_mask_clamp, shift_count_small, Z.min_l by lia. reflexivity.
  - apply posterize_mask_zero. exact Hge.
  - intros p. apply posterize_zero. exact Hge.
  - intros Hwf Hcols Hrows Hmax ins.
    assert (Hlen : Z.of_nat (length ins) = rows * cols)
      by (apply length_scan_inputs; [exact Hwf | lia | lia]).
    apply histogram_one_color; [exact Hwf | | | exact Hmax].
    + fold ins. intros Hnil. rewrite Hnil in Hlen. cbn in Hlen. nia.
    + intros i. apply scan_inputs_zero. exact Hge.
Qed.

Lemma posterize_to_one_color_witness :
  pam_computeacolorhist Sample.to_f Sample.image22 2 2 Sample.gamma 1 8 None
    Sample.heap0 =
    Defined (Some {| achv :=
                       [Some (hist_entry Sample.to_f (Float64.to_float Sample.gamma)
                                {| achl_color := 0;
                                   achl_perceptual_weight := Sample.pow2 2 |})];
                     size := 1 |},
             malloc (malloc Sample.heap0)).
Proof.
  apply (posterize_to_one_color Sample.to_f Sample.image22 2 2 Sample.gamma 1 8 None
           Sample.heap0); first [reflexivity | lia].
Defined.

(** C3 as the specification states it fails to rounding, with an
    importance map and without.

    One row of three pixels, the first and the last of one colour,
    importances [0], [2^-23] and [2^-24], so boosts [0.5], [0.5 + 2^-23] and
    [0.5 + 2^-24]: the entry of the two pixels gets [1], not [1 + 2^-24].
    The weights of the histogram sum to [1.5 + 2^-23], the boosts
    [0.5 + importance] of the pixels to [1.5 + 2^-23 + 2^-24]; added in
    binary32 the weights give [1.5 + 2^-23] in either order and the boosts in
    scan order [1.5 + 2^-22].

    One row of [2^24 + 1] pixels of one colour, no importance map: the
    weight of the one entry is [2^24], not [cols * rows = 2^24 + 1]. *)
Lemma weight_conservation_counterexample :
  (let ins := scan_inputs Sample.image13 3 1 0 (Some Sample.importance13) in
   let weights := perceptual_weight <$> hist_entries Sample.hist13 in
   pam_computeacolorhist Sample.to_f Sample.image13 3 1 Sample.gamma 10 0
     (Some Sample.importance13) Sample.heap0
     = Defined (Some Sample.hist13, malloc (malloc Sample.heap0)) /\
   snd <$> ins = boost_of <$> Sample.importance13 /\
   ~ (exact_sum weights == exact_sum (snd <$> ins))%Q /\
   ~ (exact_sum weights ==
      ((1 # 2) + value Sample.zero) + ((1 # 2) + value (Sample.pow2 (-23)))
      + ((1 # 2) + value (Sample.pow2 (-24))))%Q /\
   accumulate weights <> accumulate (snd <$> ins) /\
   accumulate (rev weights) <> accumulate (snd <$> ins)) /\
  (let cols := 16777217 in
   let hv := {| achv := [Some (hist_entry Sample.to_f (Float64.to_float Sample.gamma)
                                 {| achl_color := 4278190080;
                                    achl_perceptual_weight := Sample.pow2 24 |})];
                size := 1 |} in
   pam_computeacolorhist Sample.to_f
     [replicate (Z.to_nat cols) (Sample.rgba 0 0 0 255)] cols 1 Sample.gamma 1 0
     None Sample.heap0 = Defined (Some hv, malloc (malloc Sample.heap0)) /\
   (exact_sum (perceptual_weight <$> hist_entries hv) == inject_Z 16777216)%Q /\
   ~ (exact_sum (perceptual_weight <$> hist_entries hv) == inject_Z (cols * 1))%Q).
Proof.
  split.
  - cbv zeta. split; [| split; [reflexivity |]].
    + rewrite pam_computeacolorhist_eval. vm_compute. reflexivity.
    + repeat split; intros Heq; vm_compute in Heq; discriminate.
  - intros cols hv. split; [| split; [reflexivity |]].
    + set (p := Sample.rgba 0 0 0 255).
      set (image := [replicate (Z.to_nat cols) p]).
      assert (Hwf : image_wf image cols 1 None).
      { apply image_wf_intro. intros row col Hrow Hcol. split; [| discriminate].
        exists (replicate (Z.to_nat cols) p), p.
        replace row with 0 by lia. split; [reflexivity |].
        apply lookup_replicate_2. lia. }
      pose proof (length_scan_inputs image cols 1 0 None Hwf ltac:(lia) ltac:(lia))
        as Hlen.
      rewrite (histogram_one_color Sample.to_f image cols 1 Sample.gamma 1 0 None
                 Sample.heap0 4278190080 Hwf).
      * rewrite scan_boosts_none_replicate.
        replace (length (scan_inputs image cols 1 0 None))
          with (Z.to_nat (2 ^ 24) + 1)%nat by lia.
        rewrite accumulate_ones_saturated. reflexivity.
      * intros Hnil. rewrite Hnil in Hlen. cbn in Hlen. lia.
      * intros i Hi.
        apply scan_inputs_pixel in Hi as (line & q & Hline & Hq & ->).
        apply list_elem_of_singleton in Hline. subst line.
        apply elem_of_replicate in Hq as [-> _]. reflexivity.
      * lia.
    + intros Heq. vm_compute in Heq. discriminate.
Qed.

(** C3, as the code has it. In a histogram that comes back, the weight of
    every entry is the boosts of the pixels of its posterized colour, added
    one by one in binary32 in scan order; the boost of a pixel is [1] with
    no importance map and [0.5 + importance_map[pixel]] rounded to a [float]
    with one. Where no colour's accumulation has lost anything to
    rounding, the weights of the histogram sum to the sum of the boosts of
    all the pixels, which with no importance map is [cols * rows]; and with
    no importance map nothing is lost on an image of at most [2^24]
    pixels. *)
Theorem weight_conservation (to_f : float -> rgb_pixel -> f_pixel)
    (apixels : list (list rgb_pixel)) (cols rows : Z) (gamma : float)
    (maxacolors ignorebits : Z) (importance_map : option (list float))
    (h h' : heap) (hv : hist) :
  pam_computeacolorhist to_f apixels cols rows gamma maxacolors ignorebits
    importance_map h = Defined (Some hv, h') ->
  let ins := scan_inputs apixels cols rows ignorebits importance_map in
  (exists nodes,
     hist_entries hv = hist_entry to_f (Float64.to_float gamma) <$> nodes /\
     NoDup (achl_color <$> nodes) /\
     (forall c, c ∈ achl_color <$> nodes <-> c ∈ fst <$> ins) /\
     (forall achl, achl ∈ nodes ->
        perceptual_weight (hist_entry to_f (Float64.to_float gamma) achl) =
          accumulate (boosts_of_color (achl_color achl) ins))) /\
  (0 <= cols -> 0 <= rows ->
   snd <$> ins =
     match importance_map with
     | Some m => boost_of <$> take (Z.to_nat (rows * cols)) m
     | None => replicate (Z.to_nat (rows * cols)) Float32.one
     end) /\
  ((forall c, c ∈ fst <$> ins -> exact_accumulation (boosts_of_color c ins)) ->
   (exact_sum (perceptual_weight <$> hist_entries hv) == exact_sum (snd <$> ins))%Q /\
   (importance_map = None -> 0 <= cols -> 0 <= rows ->
    (exact_sum (perceptual_weight <$> hist_entries hv) == inject_Z (cols * rows))%Q)) /\
  (importance_map = None -> 0 <= cols -> 0 <= rows -> cols * rows <= 2 ^ 24 ->
   (exact_sum (perceptual_weight <$> hist_entries hv) == inject_Z (cols * rows))%Q).
Proof.
  intros Hres ins.
  destruct (histogram_success to_f _ _ _ _ _ _ _ _ _ _ Hres)
    as (nodes & Hwf & -> & _ & Hnd & Hcols & Hw & _).
  fold ins in Hcols, Hw. rewrite hist_entries_fmap.
  assert (Hlen : 0 <= cols -> 0 <= rows -> length ins = Z.to_nat (rows * cols)).
  { intros Hc Hr.
    pose proof (length_scan_inputs apixels cols rows ignorebits importance_map
                  Hwf Hc Hr) as Hl. fold ins in Hl. lia. }
  assert (Hones : importance_map = None -> forall x, x ∈ snd <$> ins -> x = Float32.one).
  { intros -> x Hx. apply list_elem_of_fmap in Hx as (i & -> & Hi).
    eapply scan_boosts_none. exact Hi. }
  assert (Hexact :
    (forall c, c ∈ fst <$> ins -> exact_accumulation (boosts_of_color c ins)) ->
    (exact_sum (perceptual_weight <$> (hist_entry to_f (Float64.to_float gamma) <$> nodes))
     == exact_sum (snd <$> ins))%Q /\
    (importance_map = None -> 0 <= cols -> 0 <= rows ->
     (exact_sum (perceptual_weight <$> (hist_entry to_f (Float64.to_float gamma) <$> nodes))
      == inject_Z (cols * rows))%Q)).
  { intros Hexact.
    assert (Htotal : (exact_sum (perceptual_weight
                        <$> (hist_entry to_f (Float64.to_float gamma) <$> nodes))
                      == exact_sum (snd <$> ins))%Q).
    { rewrite <- (exact_sum_by_color (achl_color <$> nodes) ins Hnd)
        by (intros i Hi; apply Hcols, list_elem_of_fmap; eauto).
      unfold exact_sum at 1. rewrite <- !list_fmap_compose.
      apply qsum_ext. intros achl Hin. cbn.
      rewrite (Hw achl Hin).
      apply Hexact, Hcols, list_elem_of_fmap. eauto. }
    split; [exact Htotal |].
    intros Hnone Hc Hr. rewrite Htotal.
    rewrite (exact_sum_ones _ (Hones Hnone)), length_fmap, (Hlen Hc Hr).
    rewrite Z2Nat.id by nia. rewrite Z.mul_comm. reflexivity. }
  split; [| split; [| split; [exact Hexact |]]].
  - exists nodes. auto.
  - intros Hc Hr. destruct importance_map as [m |].
    + apply scan_boosts_some; assumption.
    + rewrite <- (Hlen Hc Hr). apply scan_boosts_none_replicate.
  - intros Hnone Hc Hr Hsmall. apply Hexact; [| assumption ..].
    intros c Hc'. subst importance_map.
    destruct (boosts_of_color_none apixels cols rows ignorebits c) as [Heq Hle].
    fold ins in Heq, Hle. rewrite Heq. apply accumulate_ones_exact.
    pose proof (boosts_of_color_nonempty c ins Hc') as Hpos.
    specialize (Hlen Hc Hr). lia.
Qed.

Lemma weight_conservation_witness :
  exists hv,
    pam_computeacolorhist Sample.to_f Sample.image22 2 2 Sample.gamma 10 0 None
      Sample.heap0 = Defined (Some hv, malloc (malloc Sample.heap0)) /\
    (exact_sum (perceptual_weight <$> hist_entries hv) == inject_Z (2 * 2))%Q.
Proof.
  destruct (histogram_fits Sample.to_f Sample.image22 2 2 Sample.gamma 10 0 None
              Sample.heap0 eq_refl) as [hv Hhv].
  { vm_compute. discriminate. }
  exists hv. split; [exact Hhv |].
  destruct (weight_conservation _ _ _ _ _ _ _ _ _ _ _ Hhv) as (_ & _ & _ & Hsum).
  apply Hsum; [reflexivity | lia | lia | vm_compute; discriminate].
Defined.

(** * Further properties of the code *)

(** ** The order of the comparisons *)

(** C's [<] on floats is irreflexive and transitive, and [<=] composes with
    it, also when a NaN or an infinity is among the operands. *)
Lemma float_lt_irrefl (x : float) : Float32.lt x x = false.
Proof.
  unfold Float32.lt, SFltb.
  destruct x as [s | s | | s m e]; cbn; try reflexivity.
  - destruct s; reflexivity.
  - destruct s; rewrite Z.compare_refl;
      change (Pos.compare_cont Eq m m) with (Pos.compare m m);
      rewrite Pos.compare_refl; reflexivity.
Qed.

Lemma SFcompare_finite (s1 s2 : bool) (m1 m2 : positive) (e1 e2 : Z) :
  SFcompare (S754_finite s1 m1 e1) (S754_finite s2 m2 e2) =
  Some (match s1, s2 with
        | true, false => Lt
        | false, true => Gt
        | false, false =>
            if decide (e1 < e2 \/ (e1 = e2 /\ (m1 < m2)%positive)) then Lt
            else if decide (e1 = e2 /\ m1 = m2) then Eq else Gt
        | true, true =>
            if decide (e2 < e1 \/ (e1 = e2 /\ (m2 < m1)%positive)) then Lt
            else if decide (e1 = e2 /\ m1 = m2) then Eq else Gt
        end).
Proof.
  cbn. change (Pos.compare_cont Eq m1 m2) with (Pos.compare m1 m2).
  destruct s1, s2; try reflexivity;
    destruct (Z.compare_spec e1 e2); destruct (Pos.compare_spec m1 m2);
    repeat case_decide; try reflexivity; exfalso; lia.
Qed.

Lemma float_lt_trans (x y z : float) :
  Float32.lt x y = true -> Float32.lt y z = true -> Float32.lt x z = true.
Proof.
  unfold Float32.lt, SFltb.
  destruct x as [sx | sx | | sx mx ex], y as [sy | sy | | sy my ey],
    z as [sz | sz | | sz mz ez];
    rewrite ?SFcompare_finite; cbn;
    try destruct sx; try destruct sy; try destruct sz;
    try discriminate; try reflexivity;
    repeat case_decide; try discriminate; try reflexivity;
    intros _ _; exfalso; lia.
Qed.

Lemma float_le_lt_trans (x y z : float) :
  Float32.le x y = true -> Float32.lt y z = true -> Float32.lt x z = true.
Proof.
  unfold Float32.le, Float32.lt, SFleb, SFltb.
  destruct x as [sx | sx | | sx mx ex], y as [sy | sy | | sy my ey],
    z as [sz | sz | | sz mz ez];
    rewrite ?SFcompare_finite; cbn;
    try destruct sx; try destruct sy; try destruct sz;
    try discriminate; try reflexivity;
    repeat case_decide; try discriminate; try reflexivity;
    intros _ _; exfalso; lia.
Qed.

(** ** The entry that the scan of the palette returns *)

Lemma Defined_inj {A} (a b : A) : Defined a = Defined b -> a = b.
Proof. intros H. injection H as ->. reflexivity. Qed.

Section MatcherOrder.
Variable colordifference : f_pixel -> f_pixel -> float.

Lemma nearest_inv_start px acolormap iebug c0 :
  read acolormap 0 = Defined c0 ->
  nearest_inv colordifference px acolormap iebug 1
    {| ind := 0; dist := colordifference px (acolor c0) |}.
Proof.
  intros H0. unfold nearest_inv. cbn [ind dist].
  split; [lia |]. split; [exists c0; auto |]. split; [| split].
  - intros j cj Hj Hread. assert (j = 0) as -> by lia.
    rewrite H0 in Hread. injection Hread as <-. cbn zeta.
    rewrite float_lt_irrefl. split; [discriminate | lia].
  - intros c1 _ Hne. congruence.
  - intros j cj c Hj. lia.
Qed.

Lemma nearest_inv_step px acolormap iebug i st :
  1 <= i ->
  nearest_inv colordifference px acolormap iebug i st ->
  forall st', scan_step colordifference px acolormap iebug i st = Defined st' ->
  nearest_inv colordifference px acolormap iebug (i + 1) st'.
Proof.
  intros Hi (Hind & Hscan & Hseen & Hzero & Hfirst) st' Hstep.
  destruct (read acolormap i) as [c |] eqn:Hc;
    [| unfold scan_step in Hstep; rewrite Hc in Hstep; discriminate].
  rewrite (scan_step_Defined _ _ _ _ _ _ _ Hc) in Hstep.
  apply Defined_inj in Hstep. subst st'.
  change (Float32.div Float32.one Float32.f1024) with penalty.
  set (d := colordifference px (acolor c)) in *.
  destruct (Float32.lt d (dist st)) eqn:Hlt;
    [rewrite andb_true_l | rewrite andb_false_l].
  2:{ (* not nearer: the state is kept *)
    split; [lia |]. split; [exact Hscan |].
    split; [| split; [exact Hzero | exact Hfirst]].
    intros j cj Hj Hread.
    destruct (decide (j = i)) as [-> | Hne].
    - rewrite Hc in Hread. injection Hread as <-. cbn zeta. fold d.
      rewrite Hlt. split; [discriminate | lia].
    - apply Hseen; [lia | exact Hread]. }
  destruct (iebug && Float32.lt (f_a (acolor c)) Float32.one
            && Float32.gt (Float32.add d penalty) (dist st)) eqn:Hpen;
    [change (negb true) with false | change (negb false) with true]; cbv iota.
  - (* skipped for the penalty *)
    apply andb_true_iff in Hpen as [Hpen Hgt].
    apply andb_true_iff in Hpen as [Hie Htr].
    split; [lia |]. split; [exact Hscan |].
    split; [| split; [exact Hzero | exact Hfirst]].
    intros j cj Hj Hread.
    destruct (decide (j = i)) as [-> | Hne].
    + rewrite Hc in Hread. injection Hread as <-. cbn zeta. fold d.
      split; [intros _; repeat split; auto; lia | lia].
    + apply Hseen; [lia | exact Hread].
  - (* the entry replaces the best *)
    unfold nearest_inv. cbn [ind dist].
    split; [lia |]. split; [exists c; auto |]. split; [| split].
    + intros j cj Hj Hread. cbn zeta.
      destruct (decide (j = i)) as [-> | Hne].
      * rewrite Hc in Hread. injection Hread as <-. fold d.
        rewrite float_lt_irrefl. split; [discriminate | lia].
      * destruct (Hseen j cj ltac:(lia) Hread) as [Ha _]. cbn zeta in Ha.
        assert (Hold : Float32.lt (colordifference px (acolor cj)) d = true ->
                  0 < j /\ iebug = true /\
                  Float32.lt (f_a (acolor cj)) Float32.one = true /\
                  Float32.gt (Float32.add (colordifference px (acolor cj)) penalty) d
                    = true).
        { intros Hjd.
          destruct (Ha (float_lt_trans _ _ _ Hjd Hlt)) as (H0 & Hie & Htr & Hgt).
          repeat split; auto. unfold Float32.gt in *.
          exact (float_lt_trans _ _ _ Hlt Hgt). }
        split; [exact Hold |]. intros _ Hle.
        destruct (Ha (float_le_lt_trans _ _ _ Hle Hlt)) as (H0 & Hie & Htr & _).
        auto.
    + intros c0 H0 _.
      destruct (decide (ind st = 0)) as [Hz | Hnz].
      * destruct Hscan as (c' & Hread & Hd). rewrite Hz, H0 in Hread.
        injection Hread as <-. rewrite <- Hd. exact Hlt.
      * exact (float_lt_trans _ _ _ Hlt (Hzero c0 H0 Hnz)).
    + intros j cj c' Hj Hread Hc' Hsame. rewrite Hc in Hc'. injection Hc' as <-.
      destruct (Hseen j cj ltac:(lia) Hread) as [Ha _]. cbn zeta in Ha.
      rewrite Hsame in Ha. fold d in Ha.
      destruct (Ha Hlt) as (_ & Hie & Htr & Hgt).
      rewrite Hie, Htr, Hgt in Hpen. discriminate.
Qed.

Lemma nearest_inv_loop px acolormap iebug :
  forall (k : nat) i st st',
    1 <= i ->
    nearest_inv colordifference px acolormap iebug i st ->
    scan_loop colordifference px acolormap iebug (seqZ i (Z.of_nat k)) st
      = Defined st' ->
    nearest_inv colordifference px acolormap iebug (i + Z.of_nat k) st'.
Proof.
  induction k as [| k IH]; intros i st st' Hi Hinv Hloop.
  - cbn in Hloop. injection Hloop as <-. rewrite Z.add_0_r. exact Hinv.
  - rewrite seqZ_succ in Hloop. cbn [scan_loop] in Hloop.
    destruct (scan_step colordifference px acolormap iebug i st) as [st1 |] eqn:Hstep;
      [| discriminate].
    cbn in Hloop.
    replace (i + Z.of_nat (S k)) with (Z.succ i + Z.of_nat k) by lia.
    apply (IH (Z.succ i) st1 st'); [lia | | exact Hloop].
    apply (nearest_inv_step px acolormap iebug i st Hi Hinv st1 Hstep).
Qed.

(** The state that a call leaves, for a call that returns. *)
Lemma best_color_index_nearest_inv px map min_opaque_val dist_out
    (mem : gmap Z float) i mem' :
  best_color_index colordifference px map min_opaque_val dist_out mem
    = Defined (i, mem') ->
  exists st,
    ind st = i /\
    mem' = match dist_out with Some p => <[p := dist st]> mem | None => mem end /\
    nearest_inv colordifference px (palette map)
      (Float32.gt (f_a px) min_opaque_val) (Z.max 1 (colors map)) st.
Proof.
  unfold best_color_index. intros Hcall.
  destruct (read (palette map) 0) as [c0 |] eqn:H0; [| discriminate].
  cbn in Hcall.
  destruct (scan_loop colordifference px (palette map)
              (Float32.gt (f_a px) min_opaque_val) (seqZ 1 (colors map - 1))
              {| ind := 0; dist := colordifference px (acolor c0) |})
    as [st |] eqn:Hloop; [| discriminate].
  cbn in Hcall. injection Hcall as <- <-.
  exists st. split; [reflexivity |]. split; [reflexivity |].
  rewrite (seqZ_to_nat 1 (colors map - 1)) in Hloop.
  replace (Z.max 1 (colors map)) with (1 + Z.of_nat (Z.to_nat (colors map - 1)))
    by lia.
  apply (nearest_inv_loop px (palette map) _ _ 1 _ st ltac:(lia)
           (nearest_inv_start px (palette map) _ c0 H0) Hloop).
Qed.
End MatcherOrder.

(** ** Which entries the scan of the palette reads *)

Section MatcherReads.
Variable colordifference : f_pixel -> f_pixel -> float.

Lemma scan_step_OutOfBounds px acolormap iebug i st :
  read acolormap i = OutOfBounds ->
  scan_step colordifference px acolormap iebug i st = OutOfBounds.
Proof. intros H. unfold scan_step. rewrite H. reflexivity. Qed.

Lemma read_OutOfBounds {A} (arr : list A) (i : Z) :
  read arr i = OutOfBounds <-> i < 0 \/ Z.of_nat (length arr) <= i.
Proof.
  unfold read. destruct (Z.ltb_spec i 0) as [Hneg | Hpos].
  - split; auto.
  - destruct (arr !! Z.to_nat i) as [x |] eqn:Hx.
    + apply lookup_lt_Some in Hx. split; [discriminate | intros; exfalso; lia].
    + apply lookup_ge_None in Hx. split; [intros _; lia | reflexivity].
Qed.

(** The loop stops at the first index outside the palette. *)
Lemma scan_loop_OutOfBounds px acolormap iebug :
  forall (k : nat) i st,
    0 <= i <= Z.of_nat (length acolormap) ->
    Z.of_nat (length acolormap) < i + Z.of_nat k ->
    scan_loop colordifference px acolormap iebug (seqZ i (Z.of_nat k)) st
      = OutOfBounds.
Proof.
  induction k as [| k IH]; intros i st Hi Hlen; [lia |].
  rewrite seqZ_succ. cbn [scan_loop].
  destruct (read acolormap i) as [c |] eqn:Hc.
  - rewrite (scan_step_Defined _ _ _ _ _ _ _ Hc).
    match goal with |- context [Defined ?s ≫= _] => generalize s end.
    intros st1. cbn.
    assert (Hne : read acolormap i <> OutOfBounds) by congruence.
    rewrite read_OutOfBounds in Hne. apply IH; lia.
  - rewrite (scan_step_OutOfBounds _ _ _ _ _ Hc). reflexivity.
Qed.

(** The iterations of the loop depend on the entries that they read. *)
Lemma scan_loop_ext px acolormap1 acolormap2 iebug1 iebug2 idx :
  (forall i, i ∈ idx ->
     read acolormap1 i = read acolormap2 i /\
     (forall c, read acolormap1 i = Defined c ->
        iebug1 && Float32.lt (f_a (acolor c)) Float32.one =
        iebug2 && Float32.lt (f_a (acolor c)) Float32.one)) ->
  forall st,
    scan_loop colordifference px acolormap1 iebug1 idx st =
    scan_loop colordifference px acolormap2 iebug2 idx st.
Proof.
  induction idx as [| i idx IH]; intros Hidx st; [reflexivity |].
  cbn [scan_loop].
  destruct (Hidx i ltac:(apply elem_of_cons; auto)) as [Hread Hie].
  assert (Hstep : scan_step colordifference px acolormap1 iebug1 i st =
                  scan_step colordifference px acolormap2 iebug2 i st).
  { unfold scan_step. rewrite <- Hread.
    destruct (read acolormap1 i) as [c |]; [| reflexivity].
    cbn. rewrite (Hie c eq_refl). reflexivity. }
  rewrite Hstep.
  destruct (scan_step colordifference px acolormap2 iebug2 i st); [| reflexivity].
  cbn. apply IH. intros j Hj. apply Hidx, elem_of_cons. auto.
Qed.

Lemma elem_of_seqZ_1 (n i : Z) : i ∈ seqZ 1 (n - 1) <-> 1 <= i < n.
Proof. rewrite elem_of_seqZ. lia. Qed.
End MatcherReads.

(** ** best_color_index: the entry returned *)

(** X1. The entry that [best_color_index] returns is the nearest one, up to
    the penalty: an entry [j] of the palette strictly nearer to the query
    than the returned entry is not entry 0, has [alpha < 1], the query is
    opaque-biased ([px.a > min_opaque_val]), and [j]'s distance plus
    [1/1024] is above the returned distance. So for a query that is not
    opaque-biased no entry is strictly nearer than the returned one. *)
Theorem best_color_index_nearest (colordifference : f_pixel -> f_pixel -> float)
    (px : f_pixel) (map : colormap) (min_opaque_val : float)
    (dist_out : option Z) (mem : gmap Z float) (i : Z) (mem' : gmap Z float) :
  best_color_index colordifference px map min_opaque_val dist_out mem
    = Defined (i, mem') ->
  exists c,
    read (palette map) i = Defined c /\
    (forall j cj, 0 <= j < colors map -> read (palette map) j = Defined cj ->
       Float32.lt (colordifference px (acolor cj))
                  (colordifference px (acolor c)) = true ->
       0 < j /\
       Float32.gt (f_a px) min_opaque_val = true /\
       Float32.lt (f_a (acolor cj)) Float32.one = true /\
       Float32.gt (Float32.add (colordifference px (acolor cj))
                               (Float32.div Float32.one Float32.f1024))
                  (colordifference px (acolor c)) = true) /\
    (Float32.gt (f_a px) min_opaque_val = false ->
     forall j cj, 0 <= j < colors map -> read (palette map) j = Defined cj ->
       Float32.lt (colordifference px (acolor cj))
                  (colordifference px (acolor c)) = false).
Proof.
  intros Hcall.
  destruct (best_color_index_nearest_inv _ _ _ _ _ _ _ _ Hcall)
    as (st & <- & _ & Hind & (c & Hc & Hd) & Hseen & _ & _).
  exists c. split; [exact Hc |].
  assert (Hall : forall j cj, 0 <= j < colors map ->
            read (palette map) j = Defined cj ->
            Float32.lt (colordifference px (acolor cj))
                       (colordifference px (acolor c)) = true ->
            0 < j /\
            Float32.gt (f_a px) min_opaque_val = true /\
            Float32.lt (f_a (acolor cj)) Float32.one = true /\
            Float32.gt (Float32.add (colordifference px (acolor cj)) penalty)
                       (colordifference px (acolor c)) = true).
  { intros j cj Hj Hread Hlt. rewrite <- Hd in *.
    destruct (Hseen j cj ltac:(lia) Hread) as [Ha _]. exact (Ha Hlt). }
  split; [exact Hall |].
  intros Hie j cj Hj Hread.
  destruct (Float32.lt (colordifference px (acolor cj))
                       (colordifference px (acolor c))) eqn:Hlt; [| reflexivity].
  destruct (Hall j cj Hj Hread Hlt) as (_ & Hie' & _). congruence.
Qed.

Lemma best_color_index_nearest_witness :
  exists c,
    read (palette (Sample.palette2 (Sample.above_half (-10)) Sample.zero)) 1
      = Defined c /\
    Float32.lt
      (Sample.colordifference Sample.query
         (acolor (Sample.entry0 (Sample.above_half (-10)))))
      (Sample.colordifference Sample.query (acolor c)) = false.
Proof.
  destruct (best_color_index_nearest Sample.colordifference Sample.query
              (Sample.palette2 (Sample.above_half (-10)) Sample.zero)
              (Sample.pow2 0) None ∅ 1 ∅ eq_refl) as (c & Hc & _ & Hnear).
  exists c. split; [exact Hc |].
  apply (Hnear eq_refl 0 (Sample.entry0 (Sample.above_half (-10)))); [| reflexivity].
  cbn. lia.
Defined.

(** X2. Ties and entry 0. An entry before the returned one that is at most
    as far from the query was skipped for the penalty: it is not entry 0,
    it has [alpha < 1] and the query is opaque-biased; so for a query that
    is not opaque-biased the returned index is the first of the nearest
    entries. When the returned index is not 0, the returned entry is
    strictly nearer than entry 0. *)
Theorem best_color_index_first (colordifference : f_pixel -> f_pixel -> float)
    (px : f_pixel) (map : colormap) (min_opaque_val : float)
    (dist_out : option Z) (mem : gmap Z float) (i : Z) (mem' : gmap Z float) :
  best_color_index colordifference px map min_opaque_val dist_out mem
    = Defined (i, mem') ->
  exists c c0,
    read (palette map) i = Defined c /\
    read (palette map) 0 = Defined c0 /\
    (forall j cj, 0 <= j < i -> read (palette map) j = Defined cj ->
       Float32.le (colordifference px (acolor cj))
                  (colordifference px (acolor c)) = true ->
       0 < j /\
       Float32.gt (f_a px) min_opaque_val = true /\
       Float32.lt (f_a (acolor cj)) Float32.one = true) /\
    (i <> 0 ->
     Float32.lt (colordifference px (acolor c))
                (colordifference px (acolor c0)) = true).
Proof.
  intros Hcall.
  assert (H0 : exists c0, read (palette map) 0 = Defined c0).
  { unfold best_color_index in Hcall.
    destruct (read (palette map) 0) as [c0 |]; [eauto | discriminate]. }
  destruct H0 as [c0 H0].
  destruct (best_color_index_nearest_inv _ _ _ _ _ _ _ _ Hcall)
    as (st & <- & _ & Hind & (c & Hc & Hd) & Hseen & Hzero & _).
  exists c, c0. split; [exact Hc |]. split; [exact H0 |]. split.
  - intros j cj Hj Hread Hle. rewrite <- Hd in Hle.
    destruct (Hseen j cj ltac:(lia) Hread) as [_ Hb].
    apply Hb; [lia | exact Hle].
  - intros Hne. rewrite <- Hd. exact (Hzero c0 H0 Hne).
Qed.

Lemma best_color_index_first_witness :
  exists c c0,
    read (palette (Sample.palette2 (Sample.above_half (-10)) Sample.zero)) 1
      = Defined c /\
    read (palette (Sample.palette2 (Sample.above_half (-10)) Sample.zero)) 0
      = Defined c0 /\
    Float32.lt (Sample.colordifference Sample.query (acolor c))
               (Sample.colordifference Sample.query (acolor c0)) = true.
Proof.
  destruct (best_color_index_first Sample.colordifference Sample.query
              (Sample.palette2 (Sample.above_half (-10)) Sample.zero)
              (Sample.pow2 0) None ∅ 1 ∅ eq_refl) as (c & c0 & Hc & H0 & _ & Hlt).
  exists c, c0. split; [exact Hc |]. split; [exact H0 |].
  apply Hlt. discriminate.
Defined.

(** X22. A colour that is in the palette more than once is found at its
    first entry: no entry before the returned one has the colour of the
    returned one. *)
Theorem best_color_index_first_of_color
    (colordifference : f_pixel -> f_pixel -> float)
    (px : f_pixel) (map : colormap) (min_opaque_val : float)
    (dist_out : option Z) (mem : gmap Z float) (i : Z) (mem' : gmap Z float) :
  best_color_index colordifference px map min_opaque_val dist_out mem
    = Defined (i, mem') ->
  exists c,
    read (palette map) i = Defined c /\
    forall j cj, 0 <= j < i -> read (palette map) j = Defined cj ->
      acolor cj <> acolor c.
Proof.
  intros Hcall.
  destruct (best_color_index_nearest_inv _ _ _ _ _ _ _ _ Hcall)
    as (st & <- & _ & Hind & (c & Hc & Hd) & _ & _ & Hfirst).
  exists c. split; [exact Hc |].
  intros j cj Hj Hread. exact (Hfirst j cj c Hj Hread Hc).
Qed.

Lemma best_color_index_first_of_color_witness :
  exists c,
    read [Sample.entry0 (Sample.above_half (-10));
          Sample.entry1 Sample.zero; Sample.entry1 Sample.zero] 1 = Defined c /\
    acolor (Sample.entry0 (Sample.above_half (-10))) <> acolor c.
Proof.
  destruct (best_color_index_first_of_color Sample.colordifference Sample.query
              {| palette := [Sample.entry0 (Sample.above_half (-10));
                             Sample.entry1 Sample.zero; Sample.entry1 Sample.zero];
                 colors := 3 |}
              (Sample.pow2 (-1)) None ∅ 1 ∅ eq_refl) as (c & Hc & Hfirst).
  exists c. split; [exact Hc |].
  apply (Hfirst 0 (Sample.entry0 (Sample.above_half (-10)))); [lia | reflexivity].
Defined.

(** ** best_color_index: the part of the palette that is read *)

(** X3. [best_color_index] reads entry 0 and the entries [1 .. colors-1]:
    the call reads outside the palette array exactly when the palette is
    empty or [colors] is above the number of its entries. *)
Theorem best_color_index_out_of_bounds
    (colordifference : f_pixel -> f_pixel -> float)
    (px : f_pixel) (map : colormap) (min_opaque_val : float)
    (dist_out : option Z) (mem : gmap Z float) :
  best_color_index colordifference px map min_opaque_val dist_out mem
    = OutOfBounds <->
  palette map = [] \/ Z.of_nat (length (palette map)) < colors map.
Proof.
  unfold best_color_index.
  destruct (palette map) as [| c0 acolormap] eqn:Hpal.
  { rewrite read_nil. split; auto. }
  change (read (c0 :: acolormap) 0) with (Defined c0). cbn [mbind outcome_bind].
  set (st0 := {| ind := 0; dist := colordifference px (acolor c0) |}).
  destruct (Z.lt_ge_cases (Z.of_nat (length (c0 :: acolormap))) (colors map))
    as [Hbig | Hfit].
  - rewrite (seqZ_to_nat 1 (colors map - 1)).
    rewrite scan_loop_OutOfBounds by (cbn [length] in *; lia).
    split; auto.
  - destruct (scan_loop_inv colordifference px (c0 :: acolormap)
                (Float32.gt (f_a px) min_opaque_val) (seqZ 1 (colors map - 1)) st0)
      as (st & -> & _).
    + eapply Forall_impl; [apply seqZ_in_range |]. cbn beta. intros. lia.
    + exists c0. split; reflexivity.
    + cbn [mbind outcome_bind].
      split; [discriminate |]. intros [Hnil | Hlt]; [discriminate | lia].
Qed.

(** X4. The entries of the array at [colors] and after are not read: a
    call on a non-empty palette with [colors] within the array returns the
    same with any entries appended to the array. *)
Theorem best_color_index_ignores_tail
    (colordifference : f_pixel -> f_pixel -> float)
    (px : f_pixel) (map : colormap) (min_opaque_val : float)
    (dist_out : option Z) (mem : gmap Z float) (more : list colormap_item) :
  palette map <> [] ->
  colors map <= Z.of_nat (length (palette map)) ->
  best_color_index colordifference px
    {| palette := palette map ++ more; colors := colors map |}
    min_opaque_val dist_out mem =
  best_color_index colordifference px map min_opaque_val dist_out mem.
Proof.
  intros Hne Hfit.
  assert (Hread : forall i, 0 <= i < Z.of_nat (length (palette map)) ->
            read (palette map ++ more) i = read (palette map) i).
  { intros i Hi. unfold read. destruct (i <? 0); [reflexivity |].
    rewrite lookup_app_l by lia. reflexivity. }
  unfold best_color_index. cbn [palette colors].
  rewrite Hread by (destruct (palette map); [congruence | cbn [length]; lia]).
  destruct (read (palette map) 0) as [c0 |]; [| reflexivity].
  cbn [mbind outcome_bind].
  rewrite (scan_loop_ext colordifference px (palette map ++ more) (palette map)
             (Float32.gt (f_a px) min_opaque_val) (Float32.gt (f_a px) min_opaque_val)).
  - reflexivity.
  - intros i Hi. apply elem_of_seqZ_1 in Hi. split; [apply Hread; lia | reflexivity].
Qed.

Lemma best_color_index_ignores_tail_witness :
  best_color_index Sample.colordifference Sample.query
    {| palette := [Sample.entry0 (Sample.above_half (-10));
                   Sample.entry1 Sample.zero];
       colors := 1 |}
    (Sample.pow2 (-1)) None ∅ = Defined (0, ∅).
Proof.
  rewrite (best_color_index_ignores_tail Sample.colordifference Sample.query
             {| palette := [Sample.entry0 (Sample.above_half (-10))]; colors := 1 |}
             (Sample.pow2 (-1)) None ∅ [Sample.entry1 Sample.zero]).
  - reflexivity.
  - discriminate.
  - cbn. lia.
Defined.

(** X5. The penalty concerns entries with [alpha < 1] only: on a palette
    whose entries all have [alpha < 1] false, the result does not depend on
    [min_opaque_val]. *)
Theorem best_color_index_opaque_palette
    (colordifference : f_pixel -> f_pixel -> float)
    (px : f_pixel) (map : colormap) (min_opaque_val1 min_opaque_val2 : float)
    (dist_out : option Z) (mem : gmap Z float) :
  (forall c, c ∈ palette map -> Float32.lt (f_a (acolor c)) Float32.one = false) ->
  best_color_index colordifference px map min_opaque_val1 dist_out mem =
  best_color_index colordifference px map min_opaque_val2 dist_out mem.
Proof.
  intros Hopaque. unfold best_color_index.
  destruct (read (palette map) 0) as [c0 |]; [| reflexivity].
  cbn [mbind outcome_bind].
  rewrite (scan_loop_ext colordifference px (palette map) (palette map)
             (Float32.gt (f_a px) min_opaque_val1)
             (Float32.gt (f_a px) min_opaque_val2)); [reflexivity |].
  intros i _. split; [reflexivity |]. intros c Hc.
  apply read_Defined in Hc as [_ Hc]. apply list_elem_of_lookup_2 in Hc.
  rewrite (Hopaque c Hc), !andb_false_r. reflexivity.
Qed.

Lemma best_color_index_opaque_palette_witness :
  best_color_index Sample.colordifference Sample.query
    {| palette := [Sample.entry0 (Sample.above_half (-10));
                   Sample.entry0 (Sample.pow2 (-1))];
       colors := 2 |}
    (Sample.pow2 (-1)) None ∅ =
  best_color_index Sample.colordifference Sample.query
    {| palette := [Sample.entry0 (Sample.above_half (-10));
                   Sample.entry0 (Sample.pow2 (-1))];
       colors := 2 |}
    (Sample.pow2 1) None ∅.
Proof.
  apply (best_color_index_opaque_palette Sample.colordifference Sample.query
           {| palette := [Sample.entry0 (Sample.above_half (-10));
                          Sample.entry0 (Sample.pow2 (-1))];
              colors := 2 |}).
  intros c Hc. cbn [palette] in Hc.
  apply elem_of_cons in Hc as [-> | Hc]; [reflexivity |].
  apply elem_of_cons in Hc as [-> | Hc]; [reflexivity |].
  apply elem_of_nil in Hc. destruct Hc.
Defined.

(** ** pam_colormap *)

Section FreshColormap.
Variable colordifference : f_pixel -> f_pixel -> float.

(** The loop keeps its state over entries that are as far as the best. *)
Lemma scan_loop_same_distance px acolormap iebug idx st :
  (forall i, i ∈ idx ->
     exists c, read acolormap i = Defined c /\
               colordifference px (acolor c) = dist st) ->
  scan_loop colordifference px acolormap iebug idx st = Defined st.
Proof.
  induction idx as [| i idx IH]; intros Hidx; [reflexivity |].
  cbn [scan_loop].
  destruct (Hidx i ltac:(apply elem_of_cons; auto)) as (c & Hc & Hd).
  rewrite (scan_step_Defined _ _ _ _ _ _ _ Hc), Hd, float_lt_irrefl.
  cbn [andb mbind outcome_bind]. apply IH.
  intros j Hj. apply Hidx, elem_of_cons. auto.
Qed.
End FreshColormap.

(** X6. The colormap that [pam_colormap] returns for [colors >= 1] has
    [colors] entries, all of them the zero colour, and [best_color_index]
    on it returns index 0 for every query, with the distance of the query
    to the zero colour. *)
Theorem best_color_index_fresh_colormap
    (colordifference : f_pixel -> f_pixel -> float)
    (px : f_pixel) (n : Z) (min_opaque_val : float)
    (dist_out : option Z) (mem : gmap Z float) :
  1 <= n ->
  colormap_wf (pam_colormap n) /\
  (forall i, 0 <= i < n ->
     read (palette (pam_colormap n)) i = Defined {| acolor := zero_pixel |}) /\
  best_color_index colordifference px (pam_colormap n) min_opaque_val dist_out mem =
  Defined (0, match dist_out with
              | Some p => <[p := colordifference px zero_pixel]> mem
              | None => mem
              end).
Proof.
  intros Hn.
  assert (Hread : forall i, 0 <= i < n ->
            read (palette (pam_colormap n)) i = Defined {| acolor := zero_pixel |}).
  { intros i Hi. apply read_Defined. split; [lia |].
    cbn [pam_colormap palette]. apply lookup_replicate. split; [reflexivity | lia]. }
  split; [| split; [exact Hread |]].
  - unfold colormap_wf. cbn [pam_colormap palette colors].
    rewrite length_replicate. lia.
  - unfold best_color_index. rewrite (Hread 0) by lia.
    cbn [mbind outcome_bind acolor].
    rewrite scan_loop_same_distance; [reflexivity |].
    intros i Hi. apply elem_of_seqZ_1 in Hi.
    exists {| acolor := zero_pixel |}. split; [| reflexivity].
    apply Hread. cbn [pam_colormap colors] in Hi. lia.
Qed.

Lemma best_color_index_fresh_colormap_witness :
  best_color_index Sample.colordifference Sample.query (pam_colormap 3)
    (Sample.pow2 (-1)) (Some 7) ∅ =
  Defined (0, <[7 := Sample.colordifference Sample.query zero_pixel]> ∅).
Proof.
  apply (best_color_index_fresh_colormap Sample.colordifference Sample.query 3
           (Sample.pow2 (-1)) (Some 7) ∅).
  lia.
Defined.

(** ** best_color_index: a palette with one more entry *)

Section MatcherAppend.
Variable colordifference : f_pixel -> f_pixel -> float.

Lemma scan_loop_app px acolormap iebug idx1 idx2 : forall st,
  scan_loop colordifference px acolormap iebug (idx1 ++ idx2) st =
    st' ← scan_loop colordifference px acolormap iebug idx1 st;
    scan_loop colordifference px acolormap iebug idx2 st'.
Proof.
  induction idx1 as [| i idx1 IH]; intros st; [reflexivity |].
  cbn [app scan_loop].
  destruct (scan_step colordifference px acolormap iebug i st) as [st1 |];
    cbn [mbind outcome_bind]; [apply IH | reflexivity].
Qed.

(** The test of an iteration is the test [replaces]. *)
Lemma scan_step_replaces px min_opaque_val acolormap i st c :
  read acolormap i = Defined c ->
  scan_step colordifference px acolormap (Float32.gt (f_a px) min_opaque_val) i st =
  Defined (if replaces px min_opaque_val (acolor c) (dist st)
                (colordifference px (acolor c))
           then {| ind := i; dist := colordifference px (acolor c) |}
           else st).
Proof.
  intros Hc. rewrite (scan_step_Defined _ _ _ _ _ _ _ Hc). unfold replaces.
  destruct (Float32.lt (colordifference px (acolor c)) (dist st));
    [| reflexivity].
  destruct (Float32.gt (f_a px) min_opaque_val);
    destruct (Float32.lt (f_a (acolor c)) Float32.one);
    destruct (Float32.gt _ (dist st)); reflexivity.
Qed.
End MatcherAppend.

(** X20. One more entry at the end of the palette changes the result to
    that entry or not at all: after the call on a palette of [colors]
    entries has returned the index [i], the call on the palette with the
    entry [e] appended returns the new index [colors] when [e] passes the
    test of the loop against the entry [i], and [i] as before when it does
    not. *)
Theorem best_color_index_append (colordifference : f_pixel -> f_pixel -> float)
    (px : f_pixel) (map : colormap) (min_opaque_val : float)
    (dist_out : option Z) (mem : gmap Z float) (e : colormap_item)
    (i : Z) (mem' : gmap Z float) :
  colormap_wf map -> 0 < colors map ->
  best_color_index colordifference px map min_opaque_val dist_out mem
    = Defined (i, mem') ->
  exists c,
    read (palette map) i = Defined c /\
    best_color_index colordifference px
      {| palette := palette map ++ [e]; colors := colors map + 1 |}
      min_opaque_val dist_out mem =
    Defined (if replaces px min_opaque_val (acolor e)
                  (colordifference px (acolor c)) (colordifference px (acolor e))
             then (colors map,
                   match dist_out with
                   | Some p => <[p := colordifference px (acolor e)]> mem
                   | None => mem
                   end)
             else (i, mem')).
Proof.
  intros Hwf Hpos Hcall. unfold colormap_wf in Hwf.
  unfold best_color_index in *. cbn [palette colors].
  assert (Hread : forall j, 0 <= j < colors map ->
            read (palette map ++ [e]) j = read (palette map) j).
  { intros j Hj. unfold read. destruct (j <? 0); [reflexivity |].
    rewrite lookup_app_l by lia. reflexivity. }
  rewrite Hread by lia.
  destruct (read (palette map) 0) as [c0 |] eqn:H0; [| discriminate].
  cbn [mbind outcome_bind] in *.
  replace (colors map + 1 - 1) with ((colors map - 1) + 1) by lia.
  rewrite seqZ_app by lia. rewrite scan_loop_app.
  rewrite (scan_loop_ext colordifference px (palette map ++ [e]) (palette map)
             (Float32.gt (f_a px) min_opaque_val) (Float32.gt (f_a px) min_opaque_val));
    [| intros j Hj; apply elem_of_seqZ_1 in Hj; split; [apply Hread; lia | reflexivity]].
  set (st0 := {| ind := 0; dist := colordifference px (acolor c0) |}) in *.
  destruct (scan_loop_inv colordifference px (palette map)
              (Float32.gt (f_a px) min_opaque_val) (seqZ 1 (colors map - 1)) st0)
    as (st & Hloop & (c & Hc & Hd)).
  { eapply Forall_impl; [apply seqZ_in_range |]. cbn beta. intros. lia. }
  { exists c0. split; [exact H0 | reflexivity]. }
  rewrite Hloop in *. cbn [mbind outcome_bind] in *.
  apply Defined_inj in Hcall. injection Hcall as <- <-.
  exists c. split; [exact Hc |].
  replace (1 + (colors map - 1)) with (colors map) by lia.
  change (seqZ (colors map) 1) with [colors map]. cbn [scan_loop].
  assert (He : read (palette map ++ [e]) (colors map) = Defined e).
  { apply read_Defined. split; [lia |].
    rewrite lookup_app_r by lia.
    replace (Z.to_nat (colors map) - length (palette map))%nat with 0%nat by lia.
    reflexivity. }
  rewrite (scan_step_replaces _ _ _ _ _ _ _ He). cbn [mbind outcome_bind].
  rewrite <- Hd.
  destruct (replaces px min_opaque_val (acolor e) (dist st)
              (colordifference px (acolor e))); reflexivity.
Qed.

Lemma best_color_index_append_witness :
  exists c,
    read [Sample.entry0 (Sample.above_half (-10))] 0 = Defined c /\
    best_color_index Sample.colordifference Sample.query
      (Sample.palette2 (Sample.above_half (-10)) Sample.zero)
      (Sample.pow2 (-1)) None ∅ =
    Defined (if replaces Sample.query (Sample.pow2 (-1))
                  (acolor (Sample.entry1 Sample.zero))
                  (Sample.colordifference Sample.query (acolor c))
                  (Sample.colordifference Sample.query
                     (acolor (Sample.entry1 Sample.zero)))
             then (1, ∅) else (0, ∅)).
Proof.
  apply (best_color_index_append Sample.colordifference Sample.query
           {| palette := [Sample.entry0 (Sample.above_half (-10))]; colors := 1 |}
           (Sample.pow2 (-1)) None ∅ (Sample.entry1 Sample.zero) 0 ∅).
  - reflexivity.
  - reflexivity.
  - reflexivity.
Defined.

(** ** The scan of the image is a scan of what it reads *)

Lemma scan_core_eq st st' :
  scan_core st = scan_core st' ->
  acht st = acht st' /\ hs_colors st = hs_colors st' /\ hs_heap st = hs_heap st'.
Proof. unfold scan_core. intros [= -> -> ->]. auto. Qed.

(** [table_step] uses the table, the counter and the heap of the state. *)
Lemma table_step_core maxacolors l boost cur cur' st st' :
  scan_core st = scan_core st' ->
  same_core (table_step maxacolors l boost cur st)
            (table_step maxacolors l boost cur' st').
Proof.
  intros Hcore. apply scan_core_eq in Hcore as (Ht & Hc & Hh).
  unfold table_step. rewrite Ht, Hc, Hh.
  destruct (read (buckets (acht st')) (l mod HASH_SIZE)) as [chain |];
    cbn [mbind outcome_bind]; [| exact I].
  destruct (chain_search chain l) as [k |]; [reflexivity |].
  destruct (hs_colors st' + 1 >? maxacolors); [reflexivity |].
  destruct (mempool_new (mempool (acht st')) (hs_heap st')) as [m h1].
  reflexivity.
Qed.

Lemma table_step_fields maxacolors l boost cur st s :
  table_step maxacolors l boost cur st = Defined (Next s) ->
  hs_importance s = cur /\ hs_boost s = boost.
Proof.
  unfold table_step.
  destruct (read (buckets (acht st)) (l mod HASH_SIZE)) as [chain |];
    cbn [mbind outcome_bind]; [| discriminate].
  destruct (chain_search chain l) as [k |].
  - intros H. apply Defined_inj in H. injection H as <-. auto.
  - destruct (hs_colors st + 1 >? maxacolors); [discriminate |].
    destruct (mempool_new (mempool (acht st)) (hs_heap st)) as [m h1].
    intros H. apply Defined_inj in H. injection H as <-. auto.
Qed.

Lemma table_scan_app maxacolors reads1 reads2 : forall st,
  table_scan maxacolors (reads1 ++ reads2) st =
    match table_scan maxacolors reads1 st with
    | Defined (Next st') => table_scan maxacolors reads2 st'
    | r => r
    end.
Proof.
  induction reads1 as [| r reads1 IH]; intros st; cbn; [reflexivity |].
  destruct r as [x |]; cbn; [| reflexivity].
  destruct (table_step maxacolors x.1 x.2 (hs_importance st) st) as [[st' | h] |];
    cbn; [apply IH | reflexivity | reflexivity].
Qed.

(** [table_scan] uses the table, the counter and the heap of the state. *)
Lemma table_scan_core maxacolors reads : forall st st',
  scan_core st = scan_core st' ->
  same_core (table_scan maxacolors reads st) (table_scan maxacolors reads st').
Proof.
  induction reads as [| r reads IH]; intros st st' Hcore; cbn; [exact Hcore |].
  destruct r as [x |]; cbn; [| exact I].
  pose proof (table_step_core maxacolors x.1 x.2
                (hs_importance st) (hs_importance st') st st' Hcore) as Hstep.
  destruct (table_step maxacolors x.1 x.2 (hs_importance st) st) as [[s | h] |];
    destruct (table_step maxacolors x.1 x.2 (hs_importance st') st') as [[s' | h'] |];
    cbn in *; try contradiction; try exact Hstep; try exact I.
  apply IH. exact Hstep.
Qed.

Lemma pixel_step_core apixels imp maxacolors ignorebits cols row col st st' :
  scan_core st = scan_core st' ->
  (is_Some imp -> hs_importance st = row * cols + col) ->
  (imp = None -> hs_boost st = Float32.one) ->
  core_sim imp (row * cols + col + 1)
    (pixel_step apixels imp maxacolors (posterize_mask ignorebits) row col st)
    (x ← input_at apixels imp cols ignorebits (row, col);
     table_step maxacolors x.1 x.2 (hs_importance st') st').
Proof.
  intros Hcore Hcur Hboost. unfold pixel_step, input_at, pixel_at, core_sim.
  cbn [fst snd].
  destruct imp as [mp |].
  - rewrite Hcur by eauto.
    destruct (read mp (row * cols + col)) as [v |]; cbn; [| split; [exact I | discriminate]].
    destruct (read apixels row) as [line |]; cbn; [| split; [exact I | discriminate]].
    destruct (read line col) as [p |]; cbn; [| split; [exact I | discriminate]].
    split; [apply table_step_core; exact Hcore |].
    intros s Hs. apply table_step_fields in Hs as [Hi _].
    split; [intros _; exact Hi | discriminate].
  - cbn. destruct (read apixels row) as [line |]; cbn; [| split; [exact I | discriminate]].
    destruct (read line col) as [p |]; cbn; [| split; [exact I | discriminate]].
    rewrite Hboost by reflexivity.
    split; [apply table_step_core; exact Hcore |].
    intros s Hs. apply table_step_fields in Hs as [_ Hb].
    split; [intros [? [=]] | intros _; exact Hb].
Qed.

Lemma cols_loop_core apixels imp maxacolors ignorebits cols row :
  forall (n : nat) c0 st st',
    0 <= c0 -> c0 + Z.of_nat n <= Z.max 0 cols ->
    scan_core st = scan_core st' ->
    (is_Some imp -> hs_importance st = row * Z.max 0 cols + c0) ->
    (imp = None -> hs_boost st = Float32.one) ->
    core_sim imp (row * Z.max 0 cols + c0 + Z.of_nat n)
      (cols_loop apixels imp maxacolors (posterize_mask ignorebits) row
         (seqZ c0 (Z.of_nat n)) st)
      (table_scan maxacolors
         (input_at apixels imp cols ignorebits
            <$> ((fun col => (row, col)) <$> seqZ c0 (Z.of_nat n))) st').
Proof.
  induction n as [| n IH]; intros c0 st st' Hc0 Hn Hcore Hcur Hboost.
  - cbn. split; [exact Hcore |]. intros s Hs. apply Defined_inj in Hs.
    injection Hs as <-. split; [| exact Hboost].
    intros Hsome. rewrite Hcur by exact Hsome. lia.
  - rewrite seqZ_succ. cbn [fmap list_fmap cols_loop table_scan].
    assert (Hcols : Z.max 0 cols = cols) by lia.
    pose proof (pixel_step_core apixels imp maxacolors ignorebits cols row c0 st st'
                  Hcore) as Hstep.
    rewrite Hcols in Hcur. specialize (Hstep Hcur Hboost).
    destruct Hstep as [Hsame Hfields].
    destruct (input_at apixels imp cols ignorebits (row, c0)) as [x |];
      cbn [mbind outcome_bind] in *.
    + destruct (pixel_step _ _ _ _ _ _ _) as [[s | h] |];
        destruct (table_step maxacolors x.1 x.2 (hs_importance st') st')
          as [[s' | h'] |];
        cbn [mbind outcome_bind same_core] in *; try contradiction.
      * destruct (Hfields s eq_refl) as [Hcur' Hboost'].
        replace (row * Z.max 0 cols + c0 + Z.of_nat (S n))
          with (row * Z.max 0 cols + Z.succ c0 + Z.of_nat n) by lia.
        apply IH; try assumption; try lia.
        intros Hsome. rewrite Hcur' by exact Hsome. lia.
      * split; [exact Hsame | discriminate].
      * split; [exact I | discriminate].
    + destruct (pixel_step _ _ _ _ _ _ _) as [[s | h] |];
        cbn [same_core] in *; try contradiction.
      split; [exact I | discriminate].
Qed.

Lemma rows_loop_core apixels imp maxacolors ignorebits cols :
  forall (k : nat) r0 st st',
    scan_core st = scan_core st' ->
    (is_Some imp -> hs_importance st = r0 * Z.max 0 cols) ->
    (imp = None -> hs_boost st = Float32.one) ->
    core_sim imp ((r0 + Z.of_nat k) * Z.max 0 cols)
      (rows_loop apixels imp maxacolors (posterize_mask ignorebits) cols
         (seqZ r0 (Z.of_nat k)) st)
      (table_scan maxacolors
         (input_at apixels imp cols ignorebits
            <$> mjoin ((fun row => (fun col => (row, col)) <$> seqZ 0 cols)
                         <$> seqZ r0 (Z.of_nat k))) st').
Proof.
  induction k as [| k IH]; intros r0 st st' Hcore Hcur Hboost.
  - cbn. split; [exact Hcore |]. intros s Hs. apply Defined_inj in Hs.
    injection Hs as <-. split; [| exact Hboost].
    intros Hsome. rewrite Hcur by exact Hsome. lia.
  - rewrite seqZ_succ. cbn [fmap list_fmap rows_loop mjoin list_join].
    rewrite fmap_app, table_scan_app.
    pose proof (cols_loop_core apixels imp maxacolors ignorebits cols r0
                  (Z.to_nat cols) 0 (set_boost Float32.one st) st') as Hrow.
    rewrite <- seqZ_to_nat in Hrow.
    specialize (Hrow ltac:(lia) ltac:(lia) Hcore).
    cbn [set_boost hs_importance hs_boost] in Hrow. rewrite Z.add_0_r in Hrow.
    specialize (Hrow Hcur (fun _ => eq_refl)).
    destruct Hrow as [Hsame Hfields].
    destruct (cols_loop _ _ _ _ _ _ _) as [[s | h] |];
      destruct (table_scan maxacolors _ st') as [[s' | h'] |];
      cbn [mbind outcome_bind same_core] in *; try contradiction.
    + destruct (Hfields s eq_refl) as [Hcur' Hboost'].
      replace ((r0 + Z.of_nat (S k)) * Z.max 0 cols)
        with ((Z.succ r0 + Z.of_nat k) * Z.max 0 cols) by lia.
      apply IH; [exact Hsame | | exact Hboost'].
      intros Hsome. rewrite Hcur' by exact Hsome. lia.
    + split; [exact Hsame | discriminate].
    + split; [exact I | discriminate].
Qed.

(** [pam_computeacolorhash] returns what the scan of its reads returns. *)
Lemma pam_computeacolorhash_scan apixels cols rows gamma maxacolors ignorebits imp h :
  pam_computeacolorhash apixels cols rows gamma maxacolors ignorebits imp h =
  scan_result (table_scan maxacolors
                 (scan_reads apixels cols rows ignorebits imp) (scan_start h)).
Proof.
  unfold pam_computeacolorhash, scan_reads, scan_positions, scan_result.
  pose proof (rows_loop_core apixels imp maxacolors ignorebits cols
                (Z.to_nat rows) 0 (scan_start h) (scan_start h) eq_refl
                (fun _ => eq_refl) (fun _ => eq_refl)) as [Hsame _].
  rewrite <- seqZ_to_nat in Hsame.
  change (pam_allocacolorhash h) with
    ((pam_allocacolorhash h).1, (pam_allocacolorhash h).2).
  cbv beta iota. fold (scan_start h).
  destruct (rows_loop _ _ _ _ _ _ _) as [[s | h1] |];
    destruct (table_scan maxacolors _ (scan_start h)) as [[s' | h1'] |];
    cbn [mbind outcome_bind same_core] in *; try contradiction.
  - apply scan_core_eq in Hsame as (-> & -> & ->). reflexivity.
  - rewrite Hsame. reflexivity.
  - reflexivity.
Qed.

(** ** The histogram as a function of the reads of the scan *)

Section HistogramReads.
Variable to_f : float -> rgb_pixel -> f_pixel.

(** Two calls whose scans read the same colours and boosts in the same
    order return the same. *)
Lemma histogram_same_reads apixels1 cols1 rows1 ignorebits1 imp1
    apixels2 cols2 rows2 ignorebits2 imp2 gamma maxacolors h :
  scan_reads apixels1 cols1 rows1 ignorebits1 imp1 =
  scan_reads apixels2 cols2 rows2 ignorebits2 imp2 ->
  pam_computeacolorhist to_f apixels1 cols1 rows1 gamma maxacolors ignorebits1 imp1 h =
  pam_computeacolorhist to_f apixels2 cols2 rows2 gamma maxacolors ignorebits2 imp2 h.
Proof.
  intros Hreads.
  rewrite !pam_computeacolorhist_eval, !pam_computeacolorhash_scan, Hreads.
  reflexivity.
Qed.

Lemma scan_reads_ext apixels1 imp1 apixels2 imp2 cols rows ignorebits :
  (forall row col, 0 <= row < rows -> 0 <= col < cols ->
     pixel_at apixels1 imp1 cols (row, col) = pixel_at apixels2 imp2 cols (row, col)) ->
  scan_reads apixels1 cols rows ignorebits imp1 =
  scan_reads apixels2 cols rows ignorebits imp2.
Proof.
  intros Hsame. unfold scan_reads. apply list_fmap_ext.
  intros k [row col] Hpos. apply list_elem_of_lookup_2 in Hpos.
  apply elem_of_scan_positions in Hpos as [Hrow Hcol]. cbn [fst snd] in *.
  unfold input_at. rewrite (Hsame row col Hrow Hcol). reflexivity.
Qed.

(** With a larger cap the steps that went on go on, to the same state. *)
Lemma table_step_cap maxacolors1 maxacolors2 l boost cur st s :
  maxacolors1 <= maxacolors2 ->
  table_step maxacolors1 l boost cur st = Defined (Next s) ->
  table_step maxacolors2 l boost cur st = Defined (Next s).
Proof.
  intros Hle. unfold table_step.
  destruct (read (buckets (acht st)) (l mod HASH_SIZE)) as [chain |];
    cbn [mbind outcome_bind]; [| discriminate].
  destruct (chain_search chain l) as [k |]; [auto |].
  destruct (Z.gtb_spec (hs_colors st + 1) maxacolors1); [discriminate |].
  destruct (Z.gtb_spec (hs_colors st + 1) maxacolors2); [lia | auto].
Qed.

Lemma table_scan_cap maxacolors1 maxacolors2 reads : forall st s,
  maxacolors1 <= maxacolors2 ->
  table_scan maxacolors1 reads st = Defined (Next s) ->
  table_scan maxacolors2 reads st = Defined (Next s).
Proof.
  induction reads as [| r reads IH]; intros st s Hle; cbn; [auto |].
  destruct r as [x |]; cbn; [| discriminate].
  destruct (table_step maxacolors1 x.1 x.2 (hs_importance st) st)
    as [[s1 | h1] |] eqn:Hstep; cbn; try discriminate.
  rewrite (table_step_cap _ _ _ _ _ _ _ Hle Hstep). cbn. apply IH. exact Hle.
Qed.
End HistogramReads.

(** ** pam_computeacolorhist: what the call reads and what it depends on *)

(** X7. [pam_computeacolorhist] reads the pixels of the [rows] first rows
    and [cols] first columns, and the importances of these pixels, and
    nothing else: two images, with their importance maps, that agree at
    these positions give the same result. *)
Theorem histogram_window (to_f : float -> rgb_pixel -> f_pixel)
    (apixels1 apixels2 : list (list rgb_pixel))
    (importance_map1 importance_map2 : option (list float))
    (cols rows : Z) (gamma : float) (maxacolors ignorebits : Z) (h : heap) :
  (forall row col, 0 <= row < rows -> 0 <= col < cols ->
     pixel_at apixels1 importance_map1 cols (row, col) =
     pixel_at apixels2 importance_map2 cols (row, col)) ->
  pam_computeacolorhist to_f apixels1 cols rows gamma maxacolors ignorebits
    importance_map1 h =
  pam_computeacolorhist to_f apixels2 cols rows gamma maxacolors ignorebits
    importance_map2 h.
Proof.
  intros Hsame. apply histogram_same_reads, scan_reads_ext. exact Hsame.
Qed.

Lemma histogram_window_witness :
  pam_computeacolorhist Sample.to_f Sample.image22 2 2 Sample.gamma 10 0 None
    Sample.heap0 =
  pam_computeacolorhist Sample.to_f
    [[Sample.rgba 1 2 3 255; Sample.rgba 4 5 6 255; Sample.rgba 7 7 7 7];
     [Sample.rgba 1 2 3 255; Sample.rgba 9 9 9 9];
     [Sample.rgba 8 8 8 8]]
    2 2 Sample.gamma 10 0 None Sample.heap0.
Proof.
  apply (histogram_window Sample.to_f).
  intros row col Hrow Hcol.
  assert (Hr : row = 0 \/ row = 1) by lia.
  assert (Hc : col = 0 \/ col = 1) by lia.
  destruct Hr as [-> | ->], Hc as [-> | ->]; reflexivity.
Defined.

Lemma boost_of_half : boost_of f_half = Float32.one.
Proof. vm_compute. reflexivity. Qed.

(** X8. The boost of an importance of 0.5 is 1.0, the boost of a pixel when
    there is no importance map: with a map that holds 0.5 for each of the
    [rows*cols] pixels the result is the one without a map. *)
Theorem histogram_uniform_importance (to_f : float -> rgb_pixel -> f_pixel)
    (apixels : list (list rgb_pixel)) (m : list float)
    (cols rows : Z) (gamma : float) (maxacolors ignorebits : Z) (h : heap) :
  (forall k, 0 <= k < rows * cols -> read m k = Defined f_half) ->
  pam_computeacolorhist to_f apixels cols rows gamma maxacolors ignorebits
    (Some m) h =
  pam_computeacolorhist to_f apixels cols rows gamma maxacolors ignorebits
    None h.
Proof.
  intros Hhalf. apply histogram_same_reads, scan_reads_ext.
  intros row col Hrow Hcol.
  unfold pixel_at. cbn [fst snd].
  rewrite Hhalf by nia. cbn [mbind outcome_bind].
  rewrite boost_of_half. reflexivity.
Qed.

Lemma histogram_uniform_importance_witness :
  pam_computeacolorhist Sample.to_f Sample.image22 2 2 Sample.gamma 10 0
    (Some [f_half; f_half; f_half; f_half]) Sample.heap0 =
  pam_computeacolorhist Sample.to_f Sample.image22 2 2 Sample.gamma 10 0
    None Sample.heap0.
Proof.
  apply (histogram_uniform_importance Sample.to_f).
  intros k Hk.
  assert (Hcases : k = 0 \/ k = 1 \/ k = 2 \/ k = 3) by lia.
  destruct Hcases as [-> | [-> | [-> | ->]]]; reflexivity.
Defined.

(** X9. A histogram that is returned for a cap [maxacolors] is returned,
    the same, for every larger cap. *)
Theorem histogram_cap_monotone (to_f : float -> rgb_pixel -> f_pixel)
    (apixels : list (list rgb_pixel)) (cols rows : Z) (gamma : float)
    (maxacolors1 maxacolors2 ignorebits : Z)
    (importance_map : option (list float)) (h h' : heap) (hv : hist) :
  pam_computeacolorhist to_f apixels cols rows gamma maxacolors1 ignorebits
    importance_map h = Defined (Some hv, h') ->
  maxacolors1 <= maxacolors2 ->
  pam_computeacolorhist to_f apixels cols rows gamma maxacolors2 ignorebits
    importance_map h = Defined (Some hv, h').
Proof.
  intros Hcall Hle.
  rewrite pam_computeacolorhist_eval, pam_computeacolorhash_scan in *.
  unfold scan_result in *.
  destruct (table_scan maxacolors1 _ (scan_start h)) as [[s | h1] |] eqn:Hscan;
    cbn [mbind outcome_bind] in Hcall; try discriminate.
  rewrite (table_scan_cap _ _ _ _ _ Hle Hscan). exact Hcall.
Qed.

Lemma histogram_cap_monotone_witness :
  exists hv,
    pam_computeacolorhist Sample.to_f Sample.image22 2 2 Sample.gamma 3 0 None
      Sample.heap0 = Defined (Some hv, malloc (malloc Sample.heap0)) /\
    pam_computeacolorhist Sample.to_f Sample.image22 2 2 Sample.gamma 10 0 None
      Sample.heap0 = Defined (Some hv, malloc (malloc Sample.heap0)).
Proof.
  destruct (histogram_fits Sample.to_f Sample.image22 2 2 Sample.gamma 3 0 None
              Sample.heap0 eq_refl) as [hv Hhv].
  { vm_compute. discriminate. }
  exists hv. split; [exact Hhv |].
  apply (histogram_cap_monotone _ _ _ _ _ 3 10 _ _ _ _ _ Hhv). lia.
Defined.

(** ** pam_computeacolorhist: the empty image, the bounds, the heap *)

Lemma scan_positions_empty cols rows :
  rows <= 0 \/ cols <= 0 -> scan_positions cols rows = [].
Proof.
  intros Hempty.
  destruct (scan_positions cols rows) as [| pos ps] eqn:Hps; [reflexivity |].
  assert (Hin : pos ∈ scan_positions cols rows)
    by (rewrite Hps; apply elem_of_cons; auto).
  apply elem_of_scan_positions in Hin. lia.
Qed.

Lemma table_nodes_alloc h : table_nodes (pam_allocacolorhash h).1 = [].
Proof.
  unfold table_nodes. cbn. apply join_nil_2, Forall_replicate. reflexivity.
Qed.

(** X10. With [rows <= 0] or [cols <= 0] no pixel is read and no colour
    counted: whatever the pixel array, the importance map and the cap, a
    negative cap too, the call returns a histogram of size 0, and its two
    blocks are the only memory it leaves allocated. *)
Theorem histogram_empty_image (to_f : float -> rgb_pixel -> f_pixel)
    (apixels : list (list rgb_pixel)) (cols rows : Z) (gamma : float)
    (maxacolors ignorebits : Z) (importance_map : option (list float))
    (h : heap) :
  rows <= 0 \/ cols <= 0 ->
  pam_computeacolorhist to_f apixels cols rows gamma maxacolors ignorebits
    importance_map h =
  Defined (Some {| achv := []; size := 0 |}, malloc (malloc h)).
Proof.
  intros Hempty.
  rewrite pam_computeacolorhist_eval, pam_computeacolorhash_scan.
  unfold scan_reads. rewrite (scan_positions_empty _ _ Hempty).
  cbn [fmap list_fmap table_scan scan_result mbind outcome_bind scan_start
       acht hs_colors hs_heap].
  rewrite table_nodes_alloc. destruct h as [arenas blocks]. reflexivity.
Qed.

Lemma histogram_empty_image_witness :
  pam_computeacolorhist Sample.to_f Sample.image22 2 0 Sample.gamma (-1) 0
    (Some []) Sample.heap0 =
  Defined (Some {| achv := []; size := 0 |}, malloc (malloc Sample.heap0)).
Proof.
  apply (histogram_empty_image Sample.to_f). left. lia.
Defined.

Section HistogramHeap.
Variable to_f : float -> rgb_pixel -> f_pixel.

(** The heap that a call leaves. *)
Lemma histogram_heap apixels cols rows gamma maxacolors ignorebits imp h r h' :
  pam_computeacolorhist to_f apixels cols rows gamma maxacolors ignorebits imp h
    = Defined (r, h') ->
  h' = match r with Some _ => malloc (malloc h) | None => h end.
Proof.
  intros Hcall.
  pose proof (pam_computeacolorhist_sim to_f apixels cols rows gamma maxacolors
                ignorebits imp h) as Hsim.
  destruct (hist_scan maxacolors _ ∅) as [[m |] |].
  - destruct Hsim as (nodes & Hres & _). rewrite Hres in Hcall.
    apply Defined_inj in Hcall. injection Hcall as <- <-. reflexivity.
  - rewrite Hsim in Hcall. apply Defined_inj in Hcall.
    injection Hcall as <- <-. reflexivity.
  - rewrite Hsim in Hcall. discriminate.
Qed.
End HistogramHeap.

(** X11. No leak: after a call that returns a histogram and
    [pam_freeacolorhist] on it, the heap has the arenas and the blocks that
    it had before the call; after a call that returns the null pointer it
    has them at once. *)
Theorem histogram_no_leak (to_f : float -> rgb_pixel -> f_pixel)
    (apixels : list (list rgb_pixel)) (cols rows : Z) (gamma : float)
    (maxacolors ignorebits : Z) (importance_map : option (list float))
    (h h' : heap) (r : option hist) :
  pam_computeacolorhist to_f apixels cols rows gamma maxacolors ignorebits
    importance_map h = Defined (r, h') ->
  match r with
  | Some hv => live_arenas h' = live_arenas h /\ pam_freeacolorhist hv h' = h
  | None => h' = h
  end.
Proof.
  intros Hcall. rewrite (histogram_heap _ _ _ _ _ _ _ _ _ _ _ Hcall).
  destruct r as [hv |]; [| reflexivity].
  split; [reflexivity |]. destruct h as [arenas blocks]. reflexivity.
Qed.

Lemma histogram_no_leak_witness :
  exists hv h',
    pam_computeacolorhist Sample.to_f Sample.image22 2 2 Sample.gamma 10 0 None
      Sample.heap0 = Defined (Some hv, h') /\
    pam_freeacolorhist hv h' = Sample.heap0.
Proof.
  destruct (histogram_fits Sample.to_f Sample.image22 2 2 Sample.gamma 10 0 None
              Sample.heap0 eq_refl) as [hv Hhv].
  { vm_compute. discriminate. }
  exists hv, (malloc (malloc Sample.heap0)). split; [exact Hhv |].
  apply (histogram_no_leak _ _ _ _ _ _ _ _ _ _ _ Hhv).
Defined.

(** ** pam_computeacolorhist: the size of the histogram *)

Lemma distinct_colors_le_length (cs : list Z) :
  distinct_colors cs <= Z.of_nat (length cs).
Proof.
  unfold distinct_colors. apply inj_le.
  induction cs as [| c cs IH]; cbn; [lia |].
  destruct (decide_rel elem_of c cs); cbn; lia.
Qed.

(** X12. "Builds color histogram no larger than maxacolors": a histogram
    that is returned has at most [rows*cols] entries, at most [maxacolors]
    entries when [maxacolors] is not negative, and at least one entry when
    the image has a pixel. *)
Theorem histogram_size_bounds (to_f : float -> rgb_pixel -> f_pixel)
    (apixels : list (list rgb_pixel)) (cols rows : Z) (gamma : float)
    (maxacolors ignorebits : Z) (importance_map : option (list float))
    (h h' : heap) (hv : hist) :
  pam_computeacolorhist to_f apixels cols rows gamma maxacolors ignorebits
    importance_map h = Defined (Some hv, h') ->
  0 <= cols -> 0 <= rows ->
  Z.of_nat (length (hist_entries hv)) = size hv /\
  size hv <= rows * cols /\
  (0 <= maxacolors -> size hv <= maxacolors) /\
  (0 < rows * cols -> 1 <= size hv).
Proof.
  intros Hcall Hcols Hrows.
  destruct (histogram_success _ _ _ _ _ _ _ _ _ _ _ Hcall)
    as (nodes & Hwf & -> & _ & _ & _ & _ & Hsize & Hcap).
  pose proof (length_scan_inputs apixels cols rows ignorebits importance_map
                Hwf Hcols Hrows) as Hlen.
  set (ins := scan_inputs apixels cols rows ignorebits importance_map) in *.
  pose proof (distinct_colors_le_length (fst <$> ins)) as Hle.
  rewrite length_fmap in Hle.
  rewrite hist_entries_fmap, length_fmap. cbn [size]. rewrite Hsize.
  split; [reflexivity |]. split; [lia |]. split.
  - intros Hmax. destruct Hcap as [Hnil | Hcap]; [| exact Hcap].
    rewrite Hnil. unfold distinct_colors. cbn. lia.
  - intros Hpos. destruct ins as [| i ins']; [cbn in Hlen; lia |].
    pose proof (distinct_colors_cons_pos i.1 (fst <$> ins')). rewrite fmap_cons. lia.
Qed.

Lemma histogram_size_bounds_witness :
  exists hv,
    pam_computeacolorhist Sample.to_f Sample.image22 2 2 Sample.gamma 3 0 None
      Sample.heap0 = Defined (Some hv, malloc (malloc Sample.heap0)) /\
    1 <= size hv <= 3.
Proof.
  destruct (histogram_fits Sample.to_f Sample.image22 2 2 Sample.gamma 3 0 None
              Sample.heap0 eq_refl) as [hv Hhv].
  { vm_compute. discriminate. }
  exists hv. split; [exact Hhv |].
  destruct (histogram_size_bounds _ _ _ _ _ _ _ _ _ _ _ Hhv) as (_ & _ & Hcap & Hone);
    lia.
Defined.

(** X13. A histogram is returned only after reads that were all inside
    their arrays: for an image with a pixel, the pixel array has at least
    [rows] rows, each of the [rows] first rows has at least [cols] pixels,
    and an importance map has at least [rows*cols] elements. *)
Theorem histogram_reads_in_bounds (to_f : float -> rgb_pixel -> f_pixel)
    (apixels : list (list rgb_pixel)) (cols rows : Z) (gamma : float)
    (maxacolors ignorebits : Z) (importance_map : option (list float))
    (h h' : heap) (hv : hist) :
  pam_computeacolorhist to_f apixels cols rows gamma maxacolors ignorebits
    importance_map h = Defined (Some hv, h') ->
  0 < cols -> 0 < rows ->
  rows <= Z.of_nat (length apixels) /\
  (forall row line, 0 <= row < rows -> read apixels row = Defined line ->
     cols <= Z.of_nat (length line)) /\
  (forall m, importance_map = Some m -> rows * cols <= Z.of_nat (length m)).
Proof.
  intros Hcall Hcols Hrows.
  destruct (histogram_success _ _ _ _ _ _ _ _ _ _ _ Hcall) as (_ & Hwf & _).
  unfold image_wf in Hwf. rewrite forallb_forall in Hwf.
  assert (Hat : forall row col, 0 <= row < rows -> 0 <= col < cols ->
            exists pb, pixel_at apixels importance_map cols (row, col) = Defined pb).
  { intros row col Hrow Hcol.
    specialize (Hwf (row, col)).
    destruct (pixel_at apixels importance_map cols (row, col)) as [pb |];
      [eauto |].
    exfalso. enough (false = true) by discriminate. apply Hwf.
    apply list_elem_of_In, elem_of_scan_positions. cbn. lia. }
  split; [| split].
  - destruct (Hat (rows - 1) 0 ltac:(lia) ltac:(lia)) as [pb Hpb].
    unfold pixel_at in Hpb. cbn [fst snd] in Hpb.
    destruct (match importance_map with Some _ => _ | None => _ end);
      cbn [mbind outcome_bind] in Hpb; [| discriminate].
    destruct (read apixels (rows - 1)) as [line |] eqn:Hline; [| discriminate].
    apply read_Defined in Hline as [_ Hline]. apply lookup_lt_Some in Hline. lia.
  - intros row line Hrow Hline.
    destruct (Hat row (cols - 1) Hrow ltac:(lia)) as [pb Hpb].
    unfold pixel_at in Hpb. cbn [fst snd] in Hpb.
    destruct (match importance_map with Some _ => _ | None => _ end);
      cbn [mbind outcome_bind] in Hpb; [| discriminate].
    rewrite Hline in Hpb. cbn [mbind outcome_bind] in Hpb.
    destruct (read line (cols - 1)) as [p |] eqn:Hp; [| discriminate].
    apply read_Defined in Hp as [_ Hp]. apply lookup_lt_Some in Hp. lia.
  - intros m ->.
    destruct (Hat (rows - 1) (cols - 1) ltac:(lia) ltac:(lia)) as [pb Hpb].
    unfold pixel_at in Hpb. cbn [fst snd] in Hpb.
    destruct (read m ((rows - 1) * cols + (cols - 1))) as [v |] eqn:Hv;
      [| discriminate].
    apply read_Defined in Hv as [_ Hv]. apply lookup_lt_Some in Hv. nia.
Qed.

Lemma histogram_reads_in_bounds_witness :
  exists hv,
    pam_computeacolorhist Sample.to_f Sample.image13 3 1 Sample.gamma 10 0
      (Some Sample.importance13) Sample.heap0
      = Defined (Some hv, malloc (malloc Sample.heap0)) /\
    1 * 3 <= Z.of_nat (length Sample.importance13).
Proof.
  destruct (histogram_fits Sample.to_f Sample.image13 3 1 Sample.gamma 10 0
              (Some Sample.importance13) Sample.heap0 eq_refl) as [hv Hhv].
  { vm_compute. discriminate. }
  exists hv. split; [exact Hhv |].
  destruct (histogram_reads_in_bounds _ _ _ _ _ _ _ _ _ _ _ Hhv) as (_ & _ & Himp);
    [lia | lia |].
  apply (Himp Sample.importance13 eq_refl).
Defined.

(** ** The order of the chains *)

Lemma colors_seen_snoc (cs : list Z) (l : Z) :
  colors_seen (cs ++ [l]) =
  if decide (l ∈ colors_seen cs) then colors_seen cs else l :: colors_seen cs.
Proof.
  unfold colors_seen. rewrite reverse_snoc. cbn [remove_dups].
  destruct (decide_rel elem_of l (reverse cs)) as [Hin | Hnin].
  - rewrite decide_True by (apply elem_of_remove_dups; exact Hin). reflexivity.
  - rewrite decide_False by (rewrite elem_of_remove_dups; exact Hnin). reflexivity.
Qed.

Lemma alter_add_weight_color boost (k : nat) (chain : list acolorhist_list_item) :
  achl_color <$> alter (add_weight boost) k chain = achl_color <$> chain.
Proof.
  rewrite (list_fmap_alter achl_color (add_weight boost) id).
  - apply list_alter_id. reflexivity.
  - apply Forall_forall. intros it _. reflexivity.
Qed.

Lemma bucket_order_empty : bucket_order (replicate (Z.to_nat HASH_SIZE) []) [].
Proof.
  split; [apply length_replicate |].
  intros i chain Hi. apply lookup_replicate in Hi as [-> _]. reflexivity.
Qed.

(** A step of the scan keeps the order of the chains. *)
Lemma table_step_order maxacolors l boost cur st s cs :
  bucket_order (buckets (acht st)) cs ->
  table_step maxacolors l boost cur st = Defined (Next s) ->
  bucket_order (buckets (acht s)) (cs ++ [l]).
Proof.
  intros [Hlen Hord]. unfold table_step.
  pose proof (hash_in_range l) as Hh.
  destruct (read (buckets (acht st)) (l mod HASH_SIZE)) as [chain |] eqn:Hchain;
    cbn [mbind outcome_bind]; [| discriminate].
  apply read_Defined in Hchain as [_ Hchain].
  pose proof (Hord _ _ Hchain) as Hcolors.
  rewrite Z2Nat.id in Hcolors by lia.
  assert (Hseen : l ∈ achl_color <$> chain <-> l ∈ colors_seen cs).
  { rewrite Hcolors, list_elem_of_filter. tauto. }
  unfold bucket_order. rewrite colors_seen_snoc.
  destruct (chain_search chain l) as [k |] eqn:Hsearch.
  - intros Hs. apply Defined_inj in Hs. injection Hs as <-. cbn [acht buckets].
    destruct (chain_search_Some _ _ _ Hsearch) as (it & Hit & Hcol).
    rewrite decide_True
      by (apply Hseen; rewrite <- Hcol;
          apply list_elem_of_fmap_2, (list_elem_of_lookup_2 _ k); exact Hit).
    split; [rewrite length_insert; exact Hlen |].
    intros i chain' Hi.
    destruct (decide (i = Z.to_nat (l mod HASH_SIZE))) as [-> | Hne].
    + rewrite list_lookup_insert_eq in Hi by (apply lookup_lt_Some in Hchain; lia).
      injection Hi as <-. rewrite alter_add_weight_color.
      apply Hord. exact Hchain.
    + rewrite list_lookup_insert_ne in Hi by congruence. apply Hord. exact Hi.
  - destruct (hs_colors st + 1 >? maxacolors); [discriminate |].
    destruct (mempool_new (mempool (acht st)) (hs_heap st)) as [m h1].
    intros Hs. apply Defined_inj in Hs. injection Hs as <-. cbn [acht buckets].
    apply chain_search_None in Hsearch.
    rewrite decide_False by (rewrite <- Hseen; exact Hsearch).
    split; [rewrite length_insert; exact Hlen |].
    intros i chain' Hi.
    destruct (decide (i = Z.to_nat (l mod HASH_SIZE))) as [-> | Hne].
    + rewrite list_lookup_insert_eq in Hi by (apply lookup_lt_Some in Hchain; lia).
      injection Hi as <-. rewrite filter_cons_True by lia.
      cbn [fmap list_fmap achl_color]. f_equal. apply Hord. exact Hchain.
    + rewrite list_lookup_insert_ne in Hi by congruence.
      rewrite filter_cons_False by lia. apply Hord. exact Hi.
Qed.

Lemma table_scan_order maxacolors ins : forall st s cs,
  bucket_order (buckets (acht st)) cs ->
  table_scan maxacolors (Defined <$> ins) st = Defined (Next s) ->
  bucket_order (buckets (acht s)) (cs ++ (fst <$> ins)).
Proof.
  induction ins as [| x ins IH]; intros st s cs Hord; cbn.
  - intros Hs. apply Defined_inj in Hs. injection Hs as <-.
    rewrite app_nil_r. exact Hord.
  - destruct (table_step maxacolors x.1 x.2 (hs_importance st) st)
      as [[s1 | h1] |] eqn:Hstep; cbn; try discriminate.
    intros Hscan. rewrite cons_middle, app_assoc.
    apply (IH s1 s _ (table_step_order _ _ _ _ _ _ _ Hord Hstep) Hscan).
Qed.

Lemma fmap_join {A B} (f : A -> B) (ls : list (list A)) :
  f <$> mjoin ls = mjoin (fmap f <$> ls).
Proof.
  induction ls as [| l ls IH]; [reflexivity |].
  change (mjoin (l :: ls)) with (l ++ mjoin ls).
  rewrite fmap_app, IH. reflexivity.
Qed.

(** The nodes of a table with ordered chains are in the order of the
    histogram. *)
Lemma bucket_order_nodes t cs :
  bucket_order (buckets t) cs -> achl_color <$> table_nodes t = hist_order cs.
Proof.
  intros [Hlen Hord]. unfold table_nodes, hist_order.
  rewrite fmap_join. f_equal. apply list_eq. intros i.
  rewrite !list_lookup_fmap.
  destruct (decide (i < Z.to_nat HASH_SIZE)%nat) as [Hi | Hi].
  - rewrite lookup_seqZ_lt by lia.
    destruct (lookup_lt_is_Some_2 (buckets t) i ltac:(lia)) as [chain Hchain].
    rewrite Hchain. cbn. f_equal. rewrite Z.add_0_l. apply Hord. exact Hchain.
  - rewrite lookup_seqZ_ge by lia.
    rewrite (lookup_ge_None_2 (buckets t) i) by lia. reflexivity.
Qed.

(** ** The order of the histogram, read as a list *)

Lemma hist_order_elem (cs : list Z) (c : Z) : c ∈ hist_order cs <-> c ∈ cs.
Proof.
  unfold hist_order, colors_seen. rewrite list_elem_of_join. split.
  - intros (l & Hc & Hl). apply list_elem_of_fmap in Hl as (i & -> & _).
    apply list_elem_of_filter in Hc as [_ Hc].
    rewrite elem_of_remove_dups, elem_of_reverse in Hc. exact Hc.
  - intros Hc. exists (filter (fun c' => c' mod HASH_SIZE = c mod HASH_SIZE)
                         (remove_dups (reverse cs))).
    split.
    + apply list_elem_of_filter. split; [reflexivity |].
      rewrite elem_of_remove_dups, elem_of_reverse. exact Hc.
    + apply list_elem_of_fmap. exists (c mod HASH_SIZE). split; [reflexivity |].
      apply elem_of_seqZ. pose proof (hash_in_range c). lia.
Qed.

(** The lists of the buckets [i0], [i0 + 1], ... one after the other: no
    colour twice, buckets in increasing order. *)
Lemma bucket_join_ordered (l : list Z) : NoDup l -> forall (n : nat) (i0 : Z),
  let js := mjoin ((fun i => filter (fun c => c mod HASH_SIZE = i) l)
                     <$> seqZ i0 (Z.of_nat n)) in
  NoDup js /\
  (forall c, c ∈ js -> i0 <= c mod HASH_SIZE) /\
  (forall (j1 j2 : nat) c1 c2, (j1 < j2)%nat ->
     js !! j1 = Some c1 -> js !! j2 = Some c2 ->
     c1 mod HASH_SIZE <= c2 mod HASH_SIZE).
Proof.
  intros Hnd. induction n as [| n IH]; intros i0.
  - cbn. split; [constructor |]. split.
    + intros c Hc. apply elem_of_nil in Hc. destruct Hc.
    + intros j1 j2 c1 c2 _ H1. discriminate.
  - cbv zeta. rewrite seqZ_succ.
    cbn [fmap list_fmap mjoin list_join].
    destruct (IH (Z.succ i0)) as (IHnd & IHlow & IHord).
    set (first := filter (fun c => c mod HASH_SIZE = i0) l) in *.
    set (rest := mjoin ((fun i => filter (fun c => c mod HASH_SIZE = i) l)
                          <$> seqZ (Z.succ i0) (Z.of_nat n))) in *.
    assert (Hfirst : forall c, c ∈ first -> c mod HASH_SIZE = i0).
    { intros c Hc. apply list_elem_of_filter in Hc as [Hc _]. exact Hc. }
    split; [| split].
    + apply NoDup_app. split; [apply NoDup_filter; exact Hnd |].
      split; [| exact IHnd].
      intros c Hc Hc'. apply Hfirst in Hc. apply IHlow in Hc'. lia.
    + intros c Hc. apply elem_of_app in Hc as [Hc | Hc].
      * apply Hfirst in Hc. lia.
      * apply IHlow in Hc. lia.
    + intros j1 j2 c1 c2 Hlt H1 H2.
      destruct (decide (j2 < length first)%nat) as [Hin2 | Hout2].
      * rewrite lookup_app_l in H1, H2 by lia.
        apply list_elem_of_lookup_2, Hfirst in H1.
        apply list_elem_of_lookup_2, Hfirst in H2. lia.
      * rewrite (lookup_app_r first rest j2) in H2 by lia.
        destruct (decide (j1 < length first)%nat) as [Hin1 | Hout1].
        -- rewrite lookup_app_l in H1 by lia.
           apply list_elem_of_lookup_2, Hfirst in H1.
           apply list_elem_of_lookup_2, IHlow in H2. lia.
        -- rewrite (lookup_app_r first rest j1) in H1 by lia.
           apply (IHord (j1 - length first)%nat (j2 - length first)%nat);
             [lia | exact H1 | exact H2].
Qed.

Lemma hist_order_ordered (cs : list Z) :
  NoDup (hist_order cs) /\
  forall (j1 j2 : nat) c1 c2, (j1 < j2)%nat ->
    hist_order cs !! j1 = Some c1 -> hist_order cs !! j2 = Some c2 ->
    c1 <> c2 /\ c1 mod HASH_SIZE <= c2 mod HASH_SIZE.
Proof.
  destruct (bucket_join_ordered (colors_seen cs) (NoDup_remove_dups _)
              (Z.to_nat HASH_SIZE) 0) as (Hnd & _ & Hord).
  rewrite <- seqZ_to_nat in Hnd, Hord. fold (hist_order cs) in Hnd, Hord.
  split; [exact Hnd |]. intros j1 j2 c1 c2 Hlt H1 H2.
  split; [| apply (Hord j1 j2 c1 c2 Hlt H1 H2)].
  intros <-. pose proof (NoDup_lookup _ _ _ _ Hnd H1 H2). lia.
Qed.

(** ** pam_computeacolorhist: the histogram that is returned *)

Section HistogramReference.
Variable to_f : float -> rgb_pixel -> f_pixel.

(** The table at the end of a scan that went through, node by node. *)
Lemma histogram_table apixels cols rows gamma maxacolors ignorebits imp h hv h' :
  pam_computeacolorhist to_f apixels cols rows gamma maxacolors ignorebits imp h
    = Defined (Some hv, h') ->
  let ins := scan_inputs apixels cols rows ignorebits imp in
  exists t,
    hv = {| achv := Some <$> (hist_entry to_f (Float64.to_float gamma)
                                <$> table_nodes t);
            size := Z.of_nat (length (table_nodes t)) |} /\
    table_inv (buckets t) /\
    table_nodes t = node_of ins <$> hist_order (fst <$> ins).
Proof.
  intros Hcall ins.
  destruct (histogram_success _ _ _ _ _ _ _ _ _ _ _ Hcall) as (_ & Hwf & _).
  apply (image_wf_reads _ _ _ ignorebits) in Hwf. fold ins in Hwf.
  pose proof (pam_computeacolorhash_sim apixels cols rows gamma maxacolors
                ignorebits imp h) as Hsim.
  rewrite pam_computeacolorhist_eval in Hcall.
  rewrite Hwf in Hsim.
  destruct (hist_scan maxacolors (Defined <$> ins) ∅) as [[m |] |] eqn:Hscan.
  2:{ rewrite Hsim in Hcall. discriminate. }
  2:{ rewrite Hsim in Hcall. discriminate. }
  destruct Hsim as (t & Hhash & Hinv & Hmap & _).
  rewrite Hhash in Hcall. apply Defined_inj in Hcall. injection Hcall as <- _.
  exists t. split; [reflexivity |]. split; [exact Hinv |].
  (* the order of the nodes *)
  assert (Horder : achl_color <$> table_nodes t = hist_order (fst <$> ins)).
  { rewrite pam_computeacolorhash_scan, Hwf in Hhash. unfold scan_result in Hhash.
    destruct (table_scan maxacolors (Defined <$> ins) (scan_start h))
      as [[s | h1] |] eqn:Hts; cbn [mbind outcome_bind] in Hhash;
      try discriminate.
    apply Defined_inj in Hhash. injection Hhash as <- _ _.
    apply bucket_order_nodes.
    apply (table_scan_order maxacolors ins (scan_start h) s [] bucket_order_empty Hts). }
  (* the weights of the nodes *)
  destruct Hinv as (_ & _ & Hnd).
  destruct (scan_nodes maxacolors ins m (table_nodes t) Hscan Hnd Hmap)
    as (_ & Hweights & _).
  rewrite <- Horder, <- list_fmap_compose.
  rewrite <- (list_fmap_id (table_nodes t)) at 1.
  apply list_fmap_ext. intros k achl Hk. apply list_elem_of_lookup_2 in Hk.
  specialize (Hweights achl Hk). unfold node_of. cbn [compose].
  destruct achl as [c w]. cbn in *. rewrite Hweights. reflexivity.
Qed.
End HistogramReference.

(** X14. The histogram that is returned, in full: its entries are those of
    the distinct posterized colours of the image, in the order of the
    buckets, that is of [color % HASH_SIZE], and in a bucket the colour that
    the scan met last first; the entry of a colour holds the conversion of
    the colour by [to_f] and, as both weights, the boosts of the pixels of
    the colour added in scan order; [size] is the number of entries. The
    order lists every colour of the image once, and a colour that comes
    before another is not in a later bucket. *)
Theorem histogram_reference (to_f : float -> rgb_pixel -> f_pixel)
    (apixels : list (list rgb_pixel)) (cols rows : Z) (gamma : float)
    (maxacolors ignorebits : Z) (importance_map : option (list float))
    (h h' : heap) (hv : hist) :
  pam_computeacolorhist to_f apixels cols rows gamma maxacolors ignorebits
    importance_map h = Defined (Some hv, h') ->
  let ins := scan_inputs apixels cols rows ignorebits importance_map in
  achv hv = Some <$> (hist_entry to_f (Float64.to_float gamma)
                        <$> (node_of ins <$> hist_order (fst <$> ins))) /\
  size hv = Z.of_nat (length (hist_order (fst <$> ins))) /\
  (forall c, c ∈ hist_order (fst <$> ins) <-> c ∈ fst <$> ins) /\
  (forall (j1 j2 : nat) c1 c2, (j1 < j2)%nat ->
     hist_order (fst <$> ins) !! j1 = Some c1 ->
     hist_order (fst <$> ins) !! j2 = Some c2 ->
     c1 <> c2 /\ c1 mod HASH_SIZE <= c2 mod HASH_SIZE).
Proof.
  intros Hcall ins.
  destruct (histogram_table to_f _ _ _ _ _ _ _ _ _ _ Hcall) as (t & -> & _ & Hnodes).
  fold ins in Hnodes. cbn [achv size]. rewrite Hnodes, length_fmap.
  split; [reflexivity |]. split; [reflexivity |].
  split; [apply hist_order_elem | apply hist_order_ordered].
Qed.

Lemma histogram_reference_witness :
  let image := [[Sample.rgba 1 0 0 0; Sample.rgba 78 117 0 0; Sample.rgba 1 0 0 0]] in
  let hv :=
    {| achv := Some <$> (hist_entry Sample.to_f (Float64.to_float Sample.gamma) <$>
                 [{| achl_color := 30030; achl_perceptual_weight := Sample.pow2 0 |};
                  {| achl_color := 1; achl_perceptual_weight := Sample.pow2 1 |}]);
       size := 2 |} in
  pam_computeacolorhist Sample.to_f image 3 1 Sample.gamma 10 0 None Sample.heap0
    = Defined (Some hv, malloc (malloc Sample.heap0)) /\
  achv hv =
    Some <$> (hist_entry Sample.to_f (Float64.to_float Sample.gamma)
                <$> (node_of (scan_inputs image 3 1 0 None)
                       <$> hist_order (fst <$> scan_inputs image 3 1 0 None))).
Proof.
  intros image hv.
  assert (Hcall : pam_computeacolorhist Sample.to_f image 3 1 Sample.gamma
                    10 0 None Sample.heap0
                  = Defined (Some hv, malloc (malloc Sample.heap0))).
  { rewrite pam_computeacolorhist_eval. vm_compute. reflexivity. }
  split; [exact Hcall |].
  destruct (histogram_reference _ _ _ _ _ _ _ _ _ _ _ Hcall) as (Hachv & _).
  exact Hachv.
Defined.

(** ** pam_computeacolorhist: weights without an importance map *)

(** X15. Without an importance map the histogram counts the pixels, up to
    [2^24]: the entries are those of the colours in the order of the
    histogram, and both weights of the entry of a colour are, exactly, the
    number of pixels of that colour when it is at most [2^24 = 16777216],
    and [2^24] when it is more. *)
Theorem histogram_counts_pixels (to_f : float -> rgb_pixel -> f_pixel)
    (apixels : list (list rgb_pixel)) (cols rows : Z) (gamma : float)
    (maxacolors ignorebits : Z) (h h' : heap) (hv : hist) :
  pam_computeacolorhist to_f apixels cols rows gamma maxacolors ignorebits
    None h = Defined (Some hv, h') ->
  let ins := scan_inputs apixels cols rows ignorebits None in
  length (hist_entries hv) = length (hist_order (fst <$> ins)) /\
  forall (j : nat) (c : Z), hist_order (fst <$> ins) !! j = Some c ->
    exists e,
      hist_entries hv !! j = Some e /\
      hist_acolor e = to_f (Float64.to_float gamma) (rgb_as_long_rgb c) /\
      1 <= pixel_count c ins /\
      finite (perceptual_weight e) = true /\
      (value (perceptual_weight e) ==
       inject_Z (Z.min (pixel_count c ins) (2 ^ 24)))%Q /\
      adjusted_weight e = perceptual_weight e.
Proof.
  intros Hcall ins.
  destruct (histogram_table to_f _ _ _ _ _ _ _ _ _ _ Hcall)
    as (t & -> & _ & Hnodes).
  fold ins in Hnodes.
  rewrite hist_entries_fmap, Hnodes, !length_fmap. split; [reflexivity |].
  intros j c Hj.
  exists (hist_entry to_f (Float64.to_float gamma) (node_of ins c)).
  split; [rewrite !list_lookup_fmap, Hj; reflexivity |].
  split; [reflexivity |].
  (* the colour is one of the image *)
  assert (Hin : c ∈ fst <$> ins).
  { apply list_elem_of_lookup_2 in Hj. unfold hist_order in Hj.
    apply list_elem_of_join in Hj as (l & Hc & Hl).
    apply list_elem_of_fmap in Hl as (i & -> & _).
    apply list_elem_of_filter in Hc as [_ Hc].
    unfold colors_seen in Hc.
    rewrite elem_of_remove_dups, elem_of_reverse in Hc. exact Hc. }
  destruct (boosts_of_color_none apixels cols rows ignorebits c) as [Hones _].
  fold ins in Hones.
  pose proof (boosts_of_color_nonempty c ins Hin) as Hpos.
  assert (Hcount : pixel_count c ins = Z.of_nat (length (boosts_of_color c ins))).
  { unfold pixel_count, boosts_of_color. rewrite length_fmap. reflexivity. }
  cbn [hist_entry node_of perceptual_weight adjusted_weight achl_perceptual_weight].
  split; [lia |]. rewrite Hcount, Hones, length_replicate.
  set (n := length (boosts_of_color c ins)) in *.
  destruct (Z.le_gt_cases (Z.of_nat n) (2 ^ 24)) as [Hsmall | Hbig].
  - rewrite Z.min_l by exact Hsmall.
    destruct (int_float_value _ _ (accumulate_ones n ltac:(lia))) as [Hfin Hval].
    auto.
  - rewrite Z.min_r by lia.
    replace n with (Z.to_nat (2 ^ 24) + (n - Z.to_nat (2 ^ 24)))%nat by lia.
    rewrite accumulate_ones_saturated. repeat split.
Qed.

Lemma histogram_counts_pixels_witness :
  exists hv,
    pam_computeacolorhist Sample.to_f Sample.image22 2 2 Sample.gamma 10 0 None
      Sample.heap0 = Defined (Some hv, malloc (malloc Sample.heap0)) /\
    length (hist_entries hv) =
    length (hist_order (fst <$> scan_inputs Sample.image22 2 2 0 None)).
Proof.
  destruct (histogram_fits Sample.to_f Sample.image22 2 2 Sample.gamma 10 0 None
              Sample.heap0 eq_refl) as [hv Hhv].
  { vm_compute. discriminate. }
  exists hv. split; [exact Hhv |].
  apply (histogram_counts_pixels _ _ _ _ _ _ _ _ _ _ Hhv).
Defined.

(** ** Posterization, channel by channel *)

Lemma byte_testbit_off (y k : Z) :
  0 <= y < 256 -> k < 0 \/ 8 <= k -> Z.testbit y k = false.
Proof.
  intros Hy [Hk | Hk]; [apply Z.testbit_neg_r; exact Hk |].
  destruct (Z.eq_dec y 0) as [-> | Hne]; [apply Z.bits_0 |].
  apply Z.bits_above_log2; [lia |].
  assert (Z.log2 y < 8); [| lia].
  apply Z.log2_lt_pow2; [lia |]. change (2 ^ 8) with 256. lia.
Qed.

Lemma testbit_255 (n : Z) : 0 <= n -> Z.testbit 255 n = (n <? 8).
Proof.
  intros Hn. change 255 with (Z.ones 8).
  destruct (Z.ltb_spec n 8).
  - apply Z.ones_spec_low. lia.
  - apply Z.ones_spec_high. lia.
Qed.

Lemma uint_testbit (x n : Z) :
  0 <= n < 32 -> Z.testbit (uint x) n = Z.testbit x n.
Proof. intros Hn. unfold uint. apply Z.mod_pow2_bits_low. lia. Qed.

Lemma channel_mask_byte ignorebits : 0 <= channel_mask ignorebits < 256.
Proof.
  rewrite channel_mask_clamp.
  assert (H : 0 <= Z.min 8 (shift_count ignorebits) <= 8)
    by (pose proof (shift_count_range ignorebits); lia).
  generalize dependent (Z.min 8 (shift_count ignorebits)). intros k Hk.
  assert (Hc : k = 0 \/ k = 1 \/ k = 2 \/ k = 3 \/ k = 4 \/ k = 5 \/
               k = 6 \/ k = 7 \/ k = 8) by lia.
  repeat (destruct Hc as [-> | Hc]); try subst k; vm_compute; split; congruence.
Qed.

Ltac byte_bits :=
  repeat match goal with
         | |- context [Z.testbit ?y ?k] => rewrite (byte_testbit_off y k) by lia
         end.

(** A channel of the posterized colour is the channel of the pixel under
    [channel_mask]. *)
Lemma posterize_channel ignorebits p (s x : Z) :
  rgb_pixel_wf p ->
  (s = 0 /\ x = rgb_r p) \/ (s = 8 /\ x = rgb_g p) \/
  (s = 16 /\ x = rgb_b p) \/ (s = 24 /\ x = rgb_a p) ->
  Z.land (Z.shiftr (posterize ignorebits p) s) 255 =
  Z.land x (channel_mask ignorebits).
Proof.
  intros (Hr & Hg & Hb & Ha) Hs.
  pose proof (channel_mask_byte ignorebits) as Hcm.
  unfold posterize, posterize_mask, rgb_as_long_l.
  set (cm := channel_mask ignorebits) in *.
  apply Z.bits_inj'. intros n Hn.
  rewrite !Z.land_spec, testbit_255 by exact Hn.
  destruct (Z.ltb_spec n 8) as [Hlow | Hhigh].
  2:{ rewrite andb_false_r. rewrite (byte_testbit_off cm n) by lia.
      rewrite andb_false_r. reflexivity. }
  rewrite andb_true_r, Z.shiftr_spec, Z.land_spec by exact Hn.
  rewrite !Z.lor_spec, !uint_testbit by lia.
  rewrite !Z.shiftl_spec by lia.
  destruct Hs as [[-> ->] | [[-> ->] | [[-> ->] | [-> ->]]]];
    byte_bits; rewrite ?orb_false_r, ?orb_false_l;
    repeat match goal with
           | |- context [Z.testbit ?y (n + ?a - ?a)] =>
               replace (n + a - a) with n by lia
           | |- context [Z.testbit ?y (n + 0)] =>
               replace (n + 0) with n by lia
           end;
    reflexivity.
Qed.

Lemma rgb_as_long_rgb_posterize ignorebits p :
  rgb_pixel_wf p ->
  rgb_as_long_rgb (posterize ignorebits p) = posterize_pixel ignorebits p.
Proof.
  intros Hwf. unfold rgb_as_long_rgb, posterize_pixel.
  rewrite <- (Z.shiftr_0_r (posterize ignorebits p)) at 1.
  rewrite (posterize_channel ignorebits p 0 (rgb_r p) Hwf) by tauto.
  rewrite (posterize_channel ignorebits p 8 (rgb_g p) Hwf) by tauto.
  rewrite (posterize_channel ignorebits p 16 (rgb_b p) Hwf) by tauto.
  rewrite (posterize_channel ignorebits p 24 (rgb_a p) Hwf) by tauto.
  reflexivity.
Qed.

Lemma land_255_byte (x : Z) : 0 <= x < 256 -> Z.land x 255 = x.
Proof.
  intros Hx. change 255 with (Z.ones 8). rewrite Z.land_ones by lia.
  apply Z.mod_small. change (2 ^ 8) with 256. exact Hx.
Qed.

Lemma land_byte (x m : Z) : 0 <= x < 256 -> 0 <= Z.land x m < 256.
Proof.
  intros Hx.
  assert (H : Z.land x m = Z.land x m mod 2 ^ 8).
  { rewrite <- Z.land_ones by lia. change (Z.ones 8) with 255.
    rewrite <- Z.land_assoc, (Z.land_comm m 255), Z.land_assoc.
    rewrite land_255_byte by exact Hx. reflexivity. }
  rewrite H. change (2 ^ 8) with 256. apply Z.mod_pos_bound. lia.
Qed.

Lemma posterize_pixel_0 p : rgb_pixel_wf p -> posterize_pixel 0 p = p.
Proof.
  intros (Hr & Hg & Hb & Ha). unfold posterize_pixel.
  change (channel_mask 0) with 255.
  rewrite !land_255_byte by assumption. destruct p. reflexivity.
Qed.

(** X16. Posterization acts on each channel: for a pixel of four 8-bit
    channels, the pixel read back from the posterized colour, the one that
    [to_f] converts, is the pixel with [255>>ignorebits<<ignorebits]
    applied to each channel. With [ignorebits = 0] it is the pixel itself,
    so that different pixels have different colours. *)
Theorem posterize_per_channel (ignorebits : Z) (p : rgb_pixel) :
  rgb_pixel_wf p ->
  rgb_as_long_rgb (posterize ignorebits p) = posterize_pixel ignorebits p /\
  rgb_pixel_wf (posterize_pixel ignorebits p) /\
  rgb_as_long_rgb (posterize 0 p) = p /\
  (forall q, rgb_pixel_wf q -> posterize 0 p = posterize 0 q -> p = q).
Proof.
  intros Hwf. split; [apply rgb_as_long_rgb_posterize; exact Hwf |].
  assert (H0 : forall q, rgb_pixel_wf q -> rgb_as_long_rgb (posterize 0 q) = q).
  { intros q Hq. rewrite rgb_as_long_rgb_posterize by exact Hq.
    apply posterize_pixel_0. exact Hq. }
  split; [| split; [apply H0; exact Hwf |]].
  - destruct Hwf as (Hr & Hg & Hb & Ha).
    unfold rgb_pixel_wf, posterize_pixel. cbn [rgb_r rgb_g rgb_b rgb_a].
    auto using land_byte.
  - intros q Hq Heq. rewrite <- (H0 p Hwf), <- (H0 q Hq), Heq. reflexivity.
Qed.

Lemma posterize_per_channel_witness :
  rgb_as_long_rgb (posterize 3 (Sample.rgba 1 2 3 255)) = Sample.rgba 0 0 0 248 /\
  rgb_as_long_rgb (posterize 0 (Sample.rgba 1 2 3 255)) = Sample.rgba 1 2 3 255.
Proof.
  destruct (posterize_per_channel 3 (Sample.rgba 1 2 3 255)) as (H3 & _ & H0 & _).
  { unfold rgb_pixel_wf. cbn. lia. }
  split; [rewrite H3; reflexivity | exact H0].
Defined.

(** X17. The colour of every entry of a histogram that is returned is the
    conversion by [to_f], with [gamma] as a [float], of a pixel of the
    image posterized channel by channel; all pixels of the image being of
    four 8-bit channels. *)
Theorem histogram_entry_colors (to_f : float -> rgb_pixel -> f_pixel)
    (apixels : list (list rgb_pixel)) (cols rows : Z) (gamma : float)
    (maxacolors ignorebits : Z) (importance_map : option (list float))
    (h h' : heap) (hv : hist) :
  pam_computeacolorhist to_f apixels cols rows gamma maxacolors ignorebits
    importance_map h = Defined (Some hv, h') ->
  (forall line p, line ∈ apixels -> p ∈ line -> rgb_pixel_wf p) ->
  forall e, e ∈ hist_entries hv ->
    exists line p,
      line ∈ apixels /\ p ∈ line /\
      hist_acolor e =
        to_f (Float64.to_float gamma) (posterize_pixel ignorebits p).
Proof.
  intros Hcall Hwf e He.
  destruct (histogram_success _ _ _ _ _ _ _ _ _ _ _ Hcall)
    as (nodes & _ & -> & _ & _ & Hcolors & _).
  rewrite hist_entries_fmap in He.
  apply list_elem_of_fmap in He as (achl & -> & Hachl).
  assert (Hc : achl_color achl ∈ achl_color <$> nodes)
    by (apply list_elem_of_fmap_2; exact Hachl).
  apply Hcolors in Hc. apply list_elem_of_fmap in Hc as (i & Hi & Hin).
  destruct (scan_inputs_pixel _ _ _ _ _ _ Hin) as (line & p & Hline & Hp & Hpost).
  exists line, p. split; [exact Hline |]. split; [exact Hp |].
  cbn [hist_entry hist_acolor]. rewrite Hi, Hpost.
  rewrite rgb_as_long_rgb_posterize by (apply (Hwf line p Hline Hp)).
  reflexivity.
Qed.

Lemma histogram_entry_colors_witness :
  exists hv,
    pam_computeacolorhist Sample.to_f [[Sample.rgba 1 2 3 255]] 1 1 Sample.gamma
      10 3 None Sample.heap0 = Defined (Some hv, malloc (malloc Sample.heap0)) /\
    forall e, e ∈ hist_entries hv ->
      hist_acolor e =
        Sample.to_f (Float64.to_float Sample.gamma)
          (posterize_pixel 3 (Sample.rgba 1 2 3 255)).
Proof.
  destruct (histogram_fits Sample.to_f [[Sample.rgba 1 2 3 255]] 1 1 Sample.gamma
              10 3 None Sample.heap0 eq_refl) as [hv Hhv].
  { vm_compute. discriminate. }
  exists hv. split; [exact Hhv |]. intros e He.
  destruct (histogram_entry_colors _ _ _ _ _ _ _ _ _ _ _ Hhv) with (e := e)
    as (line & p & Hline & Hp & Hcol); [| exact He |].
  - intros line p Hline Hp.
    apply list_elem_of_singleton in Hline as ->.
    apply list_elem_of_singleton in Hp as ->.
    unfold rgb_pixel_wf. cbn. lia.
  - apply list_elem_of_singleton in Hline as ->.
    apply list_elem_of_singleton in Hp as ->. exact Hcol.
Defined.

(** ** pam_acolorhashtoacolorhist: the size of the array *)

Section HistogramArray.
Variable to_f : float -> rgb_pixel -> f_pixel.



End HistogramArray.



(** ** pam_computeacolorhash: the table that is returned *)

(** The table at the end of a scan that went through. *)
Lemma computeacolorhash_table apixels cols rows gamma maxacolors ignorebits imp
    h t n h' :
  pam_computeacolorhash apixels cols rows gamma maxacolors ignorebits imp h
    = Defined (Some (t, n), h') ->
  let ins := scan_inputs apixels cols rows ignorebits imp in
  h' = arena_heap h /\
  n = Z.of_nat (length (table_nodes t)) /\
  n = distinct_colors (fst <$> ins) /\
  table_inv (buckets t) /\
  bucket_order (buckets t) (fst <$> ins) /\
  table_nodes t = node_of ins <$> hist_order (fst <$> ins).
Proof.
  intros Hcall ins.
  pose proof (pam_computeacolorhash_sim apixels cols rows gamma maxacolors
                ignorebits imp h) as Hsim.
  destruct (hist_scan maxacolors (scan_reads apixels cols rows ignorebits imp) ∅)
    as [[m |] |] eqn:Hscan.
  2:{ rewrite Hsim in Hcall. discriminate. }
  2:{ rewrite Hsim in Hcall. discriminate. }
  pose proof (hist_scan_Some_reads _ _ _ _ Hscan) as Hreads.
  rewrite <- scan_inputs_reads in Hreads. fold ins in Hreads.
  rewrite Hreads in Hscan.
  destruct Hsim as (t' & Hhash & Hinv & Hmap & _).
  assert (Hsame : (t, n, h') = (t', Z.of_nat (length (table_nodes t')), arena_heap h))
    by congruence.
  injection Hsame as -> -> ->.
  assert (Hord : bucket_order (buckets t') (fst <$> ins)).
  { rewrite pam_computeacolorhash_scan, Hreads in Hhash. unfold scan_result in Hhash.
    destruct (table_scan maxacolors (Defined <$> ins) (scan_start h))
      as [[s | h1] |] eqn:Hts; cbn [mbind outcome_bind] in Hhash;
      try discriminate.
    apply Defined_inj in Hhash. injection Hhash as <- _ _.
    apply (table_scan_order maxacolors ins (scan_start h) s [] bucket_order_empty Hts). }
  pose proof Hinv as (_ & _ & Hnd).
  destruct (scan_nodes maxacolors ins m (table_nodes t') Hscan Hnd Hmap)
    as (_ & Hweights & Hcount & _).
  split; [reflexivity |]. split; [reflexivity |]. split; [exact Hcount |].
  split; [exact Hinv |]. split; [exact Hord |].
  rewrite <- (bucket_order_nodes _ _ Hord), <- list_fmap_compose.
  rewrite <- (list_fmap_id (table_nodes t')) at 1.
  apply list_fmap_ext. intros k achl Hk. apply list_elem_of_lookup_2 in Hk.
  specialize (Hweights achl Hk). unfold node_of. cbn [compose].
  destruct achl as [c w]. cbn in *. rewrite Hweights. reflexivity.
Qed.

(** A scan of an image whose colours fit the cap returns a table. *)
Lemma computeacolorhash_fits apixels cols rows gamma maxacolors ignorebits imp h :
  image_wf apixels cols rows imp ->
  distinct_colors (fst <$> scan_inputs apixels cols rows ignorebits imp)
    <= maxacolors ->
  exists t n,
    pam_computeacolorhash apixels cols rows gamma maxacolors ignorebits imp h
      = Defined (Some (t, n), arena_heap h).
Proof.
  intros Hwf Hfit.
  destruct (histogram_fits (fun _ _ => zero_pixel) apixels cols rows gamma
              maxacolors ignorebits imp h Hwf Hfit) as [hv Hhv].
  rewrite pam_computeacolorhist_eval in Hhv.
  destruct (pam_computeacolorhash apixels cols rows gamma maxacolors ignorebits
              imp h) as [[[[t n] |] h1] |] eqn:Hcall; try discriminate.
  destruct (computeacolorhash_table _ _ _ _ _ _ _ _ _ _ _ Hcall) as (-> & _).
  eauto.
Qed.

Lemma chain_search_elem chain c :
  c ∈ achl_color <$> chain -> is_Some (chain_search chain c).
Proof.
  intros Hin. destruct (chain_search chain c) as [k |] eqn:Hs; [eauto |].
  apply chain_search_None in Hs. contradiction.
Qed.

(** X19. The table that [pam_computeacolorhash] returns: one arena is live
    for it, [*acolorsP] is the number of its nodes and of the distinct
    posterized colours of the image, a node sits in the bucket
    [color % HASH_SIZE], and the search of the chain of a colour, as the
    scan does it, finds the one node of the colour, with the boosts of its
    pixels added in scan order as its weight, or nothing when the colour is
    not in the image. *)
Theorem computeacolorhash_lookup (apixels : list (list rgb_pixel))
    (cols rows : Z) (gamma : float) (maxacolors ignorebits : Z)
    (importance_map : option (list float)) (h h' : heap)
    (t : acolorhash_table) (n : Z) :
  pam_computeacolorhash apixels cols rows gamma maxacolors ignorebits
    importance_map h = Defined (Some (t, n), h') ->
  let ins := scan_inputs apixels cols rows ignorebits importance_map in
  h' = arena_heap h /\
  n = Z.of_nat (length (table_nodes t)) /\
  n = distinct_colors (fst <$> ins) /\
  (forall i chain achl, buckets t !! i = Some chain -> achl ∈ chain ->
     Z.to_nat (achl_color achl mod HASH_SIZE) = i) /\
  (forall c, exists chain,
     read (buckets t) (c mod HASH_SIZE) = Defined chain /\
     match chain_search chain c with
     | Some k => c ∈ fst <$> ins /\ chain !! k = Some (node_of ins c)
     | None => c ∉ fst <$> ins
     end).
Proof.
  intros Hcall ins.
  destruct (computeacolorhash_table _ _ _ _ _ _ _ _ _ _ _ Hcall)
    as (Hheap & Hn & Hdistinct & Hinv & Hord & Hnodes).
  fold ins in Hdistinct, Hord, Hnodes.
  split; [exact Hheap |]. split; [exact Hn |]. split; [exact Hdistinct |].
  split.
  { intros i chain achl Hi Hachl. destruct Hinv as (_ & Hhash & _).
    apply (Hhash i chain achl Hi Hachl). }
  intros c. pose proof (hash_in_range c) as Hh.
  destruct Hord as [Hlen Hord].
  destruct (read_in_range (buckets t) (c mod HASH_SIZE)) as [chain Hchain].
  { rewrite Hlen. lia. }
  exists chain. split; [exact Hchain |].
  apply read_Defined in Hchain as [_ Hchain].
  pose proof (Hord _ _ Hchain) as Hcolors. rewrite Z2Nat.id in Hcolors by lia.
  assert (Hseen : c ∈ achl_color <$> chain <-> c ∈ fst <$> ins).
  { rewrite Hcolors, list_elem_of_filter. unfold colors_seen.
    rewrite elem_of_remove_dups, elem_of_reverse. tauto. }
  destruct (chain_search chain c) as [k |] eqn:Hsearch.
  - destruct (chain_search_Some _ _ _ Hsearch) as (it & Hit & Hcol).
    split.
    + apply Hseen. rewrite <- Hcol.
      apply list_elem_of_fmap_2, (list_elem_of_lookup_2 _ k). exact Hit.
    + rewrite Hit. f_equal.
      assert (Hin : it ∈ table_nodes t).
      { unfold table_nodes. apply list_elem_of_join. exists chain.
        split; [apply (list_elem_of_lookup_2 _ k); exact Hit |].
        apply (list_elem_of_lookup_2 _ _ _ Hchain). }
      rewrite Hnodes in Hin. apply list_elem_of_fmap in Hin as (c' & -> & _).
      cbn in Hcol. rewrite Hcol. reflexivity.
  - apply chain_search_None in Hsearch. rewrite <- Hseen. exact Hsearch.
Qed.

Lemma computeacolorhash_lookup_witness :
  exists t n,
    pam_computeacolorhash Sample.image13 3 1 Sample.gamma 10 0
      (Some Sample.importance13) Sample.heap0
      = Defined (Some (t, n), arena_heap Sample.heap0) /\
    n = distinct_colors
          (fst <$> scan_inputs Sample.image13 3 1 0 (Some Sample.importance13)).
Proof.
  destruct (computeacolorhash_fits Sample.image13 3 1 Sample.gamma 10 0
              (Some Sample.importance13) Sample.heap0 eq_refl) as (t & n & Hcall).
  { vm_compute. discriminate. }
  exists t, n. split; [exact Hcall |].
  apply (computeacolorhash_lookup _ _ _ _ _ _ _ _ _ _ _ Hcall).
Defined.

(** ** pam_computeacolorhist: the shape of the image *)

Lemma scan_pixels_defined apixels imp cols (ps : list (Z * Z)) :
  forallb (fun pos => defined (pixel_at apixels imp cols pos)) ps = true ->
  pixel_at apixels imp cols <$> ps =
  Defined <$> omap (fun pos => outcome_to_option (pixel_at apixels imp cols pos)) ps.
Proof.
  induction ps as [| pos ps IH]; intros Hall; [reflexivity |].
  cbn in Hall. apply andb_true_iff in Hall as [Hpos Hall].
  cbn [fmap list_fmap omap list_omap].
  destruct (pixel_at apixels imp cols pos) as [pb |]; [| discriminate].
  cbn. f_equal. apply IH. exact Hall.
Qed.

Lemma scan_positions_row (n : Z) :
  scan_positions n 1 = (fun col => (0, col)) <$> seqZ 0 n.
Proof. unfold scan_positions. cbn. apply app_nil_r. Qed.

(** The reads of the scan of an image are the reads of the scan of the one
    row of its pixels. *)
Lemma scan_reads_flatten apixels cols rows ignorebits imp :
  image_wf apixels cols rows imp -> 0 <= cols -> 0 <= rows ->
  scan_reads [fst <$> scan_pixels apixels cols rows imp] (rows * cols) 1
    ignorebits imp =
  scan_reads apixels cols rows ignorebits imp.
Proof.
  intros Hwf Hcols Hrows.
  pose proof (scan_pixels_defined _ _ _ _ Hwf) as Hdef.
  fold (scan_pixels apixels cols rows imp) in Hdef.
  pose proof (scan_positions_index cols rows Hcols Hrows) as Hidx.
  pose proof (length_scan_positions cols rows Hcols Hrows) as Hlen.
  set (ps := scan_positions cols rows) in *.
  set (pbs := scan_pixels apixels cols rows imp) in *.
  unfold scan_reads. fold ps. rewrite scan_positions_row.
  apply list_eq. intros k. rewrite <- list_fmap_compose, !list_lookup_fmap.
  destruct (decide (Z.of_nat k < rows * cols)) as [Hk | Hk].
  2:{ rewrite lookup_seqZ_ge by lia.
      rewrite (lookup_ge_None_2 ps k) by lia. reflexivity. }
  rewrite lookup_seqZ_lt by lia. rewrite Z.add_0_l.
  destruct (lookup_lt_is_Some_2 ps k ltac:(lia)) as [pos Hpos].
  rewrite Hpos. cbn [fmap option_fmap option_map compose]. f_equal.
  (* the position and its index *)
  assert (Hk_pos : pos.1 * cols + pos.2 = Z.of_nat k).
  { apply (f_equal (fun l => l !! k)) in Hidx.
    rewrite list_lookup_fmap, Hpos, lookup_seqZ_lt in Hidx by lia.
    cbn in Hidx. injection Hidx as ->. lia. }
  (* the pixel and the boost read at the position *)
  apply (f_equal (fun l => l !! k)) in Hdef.
  rewrite !list_lookup_fmap, Hpos in Hdef. cbn in Hdef.
  destruct (pbs !! k) as [[p b] |] eqn:Hpb; [| discriminate].
  cbn in Hdef. injection Hdef as Hat.
  unfold input_at. rewrite Hat. cbn [mbind outcome_bind fst snd].
  unfold pixel_at in *. cbn [fst snd] in *.
  rewrite Z.mul_0_l, Z.add_0_l, <- Hk_pos.
  destruct (match imp with
            | Some m => v ← read m (pos.1 * cols + pos.2); Defined (boost_of v)
            | None => Defined Float32.one
            end) as [b' |]; [| discriminate].
  cbn [mbind outcome_bind] in *.
  change (read [fst <$> pbs] 0) with (Defined (fst <$> pbs)).
  cbn [mbind outcome_bind].
  assert (Hp : read (fst <$> pbs) (pos.1 * cols + pos.2) = Defined p).
  { apply read_Defined. split; [lia |]. rewrite Hk_pos, Nat2Z.id.
    rewrite list_lookup_fmap, Hpb. reflexivity. }
  rewrite Hp. cbn [mbind outcome_bind].
  destruct (read apixels pos.1) as [line |]; [| discriminate].
  cbn [mbind outcome_bind] in Hat.
  destruct (read line pos.2) as [q |]; [| discriminate].
  cbn [mbind outcome_bind] in Hat. apply Defined_inj in Hat.
  injection Hat as -> ->. reflexivity.
Qed.

(** X21. The shape of the image does not matter: an image of [rows] rows
    and [cols] columns gives what the image of one row, made of its
    [rows*cols] pixels in scan order, gives with the same importance
    map. *)
Theorem histogram_flatten (to_f : float -> rgb_pixel -> f_pixel)
    (apixels : list (list rgb_pixel)) (cols rows : Z) (gamma : float)
    (maxacolors ignorebits : Z) (importance_map : option (list float))
    (h : heap) :
  image_wf apixels cols rows importance_map -> 0 <= cols -> 0 <= rows ->
  pam_computeacolorhist to_f
    [fst <$> scan_pixels apixels cols rows importance_map] (rows * cols) 1
    gamma maxacolors ignorebits importance_map h =
  pam_computeacolorhist to_f apixels cols rows gamma maxacolors ignorebits
    importance_map h.
Proof.
  intros Hwf Hcols Hrows.
  apply histogram_same_reads, scan_reads_flatten; assumption.
Qed.

Lemma histogram_flatten_witness :
  pam_computeacolorhist Sample.to_f
    [[Sample.rgba 1 2 3 255; Sample.rgba 4 5 6 255;
      Sample.rgba 1 2 3 255; Sample.rgba 9 9 9 9]] 4 1
    Sample.gamma 10 0 None Sample.heap0 =
  pam_computeacolorhist Sample.to_f Sample.image22 2 2 Sample.gamma 10 0 None
    Sample.heap0.
Proof.
  apply (histogram_flatten Sample.to_f Sample.image22 2 2 Sample.gamma 10 0 None
           Sample.heap0); [reflexivity | lia | lia].
Defined.

(** ** pam_computeacolorhist: a read outside an array *)

(** X23. A read outside the pixel array or the importance map, at a point
    of the scan that the scan reaches without an overflow, is undefined
    behaviour of the whole call: neither a histogram nor Overflow comes
    back, whatever the rest of the image. *)
Theorem histogram_out_of_bounds (to_f : float -> rgb_pixel -> f_pixel)
    (apixels : list (list rgb_pixel)) (cols rows : Z) (gamma : float)
    (maxacolors ignorebits : Z) (importance_map : option (list float))
    (h : heap) (pre : list (Z * float)) (rest : list (outcome (Z * float))) :
  scan_reads apixels cols rows ignorebits importance_map
    = (Defined <$> pre) ++ OutOfBounds :: rest ->
  pre = [] \/ distinct_colors (fst <$> pre) <= maxacolors ->
  pam_computeacolorhist to_f apixels cols rows gamma maxacolors ignorebits
    importance_map h = OutOfBounds.
Proof.
  intros Hreads Hfit.
  pose proof (pam_computeacolorhist_sim to_f apixels cols rows gamma maxacolors
                ignorebits importance_map h) as Hsim.
  rewrite Hreads, hist_scan_app in Hsim.
  pose proof (hist_scan_overflow maxacolors pre ∅) as Hov. cbn zeta in Hov.
  rewrite dom_empty_L, union_empty_l_L, map_size_empty,
    <- distinct_colors_size in Hov.
  destruct (hist_scan maxacolors (Defined <$> pre) ∅) as [[m |] |].
  - exact Hsim.
  - exfalso. destruct Hov as [Hpos Hgt].
    destruct Hfit as [-> | Hfit]; [| lia].
    unfold distinct_colors in Hpos. cbn in Hpos. lia.
  - contradiction.
Qed.

Lemma histogram_out_of_bounds_witness :
  pam_computeacolorhist Sample.to_f Sample.image13 3 1 Sample.gamma 10 0
    (Some [Sample.zero; Sample.zero]) Sample.heap0 = OutOfBounds.
Proof.
  apply (histogram_out_of_bounds Sample.to_f Sample.image13 3 1 Sample.gamma 10 0
           (Some [Sample.zero; Sample.zero]) Sample.heap0
           [(4278387201, Sample.pow2 (-1)); (4278584580, Sample.pow2 (-1))] []).
  - reflexivity.
  - right. vm_compute. discriminate.
Defined.

